(** * laravel-mix: the context core (Mix), the component registrar and the
      grouping verb, as a shallow embedding.

    Sources embedded here:
    - [Mix] (class Mix: the getters primary and api, boot, build,
      buildConfigs, installDependencies, init, isHot, isWatching, isPolling,
      dispatch, dispatchToChildren, pushCurrent, popCurrent, withChild,
      whileCurrent, makeCurrent);
    - [src/components/ComponentRegistrar.js] (installAll, install,
      registerComponent and the listeners they subscribe, applyRules,
      applyPlugins), in its first, asynchronous form;
    - [src/components/Group.js] (register).

    JavaScript objects live in heaps indexed by natural numbers (contexts,
    component instances, promises); closures stored in objects are
    defunctionalised ([Handler], [Callable], [Job]).  Everything a method
    can observe or change is a field of [World]; a method is a function
    from worlds to a completion and a world ([M]).  Calls into
    collaborators that are not part of these sources (Dotenv, File,
    HotReloading, Dependencies, WebpackConfig, the hooks of components) are
    recorded in the [log] of the world.

    Asynchronous functions are run to completion when called: an [await] is
    where the reactions queued on promises run, not where other callers
    interleave.  Promises are explicit where the sources inspect them
    ([whileCurrent]) and in what async functions return.

    The development has two parts: the embedding (up to the scenarios),
    then the properties, one section for each subject; the last part
    ("Further properties of the embedded code") is about what the functions
    do besides: edge cases, invariants and how the calls compose. *)

From Stdlib Require Import ZArith.
From stdpp Require Import base list gmap strings.


(** ** JavaScript values *)

Abbreviation CtxId := nat (only parsing).
Abbreviation CompId := nat (only parsing).

(** A promise is either a cell of the promise heap or the promise returned by
    [p.finally(f)]: a distinct object that settles the way [p] does once the
    reaction [f] has run. *)
Inductive PromiseRef :=
| PCell (id : nat)
| PFinally (src : PromiseRef).

#[warnings="-register-all"]
Inductive JSVal :=
| VUndefined
| VNull
| VBool (b : bool)
| VNum (n : Z)
| VStr (s : string)
| VError (message : string)          (* new Error(message) *)
| VMix (ctx : CtxId)                 (* a Mix instance *)
| VApi (ctx : CtxId)                 (* the registrar's [components] object *)
| VConfig (ctx : CtxId)              (* a finished webpack configuration *)
| VPromise (p : PromiseRef)
| VArray (items : list JSVal)
| VObject (tag : nat).               (* any other object *)


(** Completion of a call: a value, a thrown exception, or (for [await] on a
    promise that never settles) no completion at all. *)
Inductive Res (A : Type) :=
| Ok (a : A)
| Throw (e : JSVal)
| Stall.
Arguments Ok {A} a.
Arguments Throw {A} e.
Arguments Stall {A}.

Inductive Settlement :=
| Fulfilled (v : JSVal)
| Rejected (e : JSVal).

(** ** Components *)

Inductive Hook :=
| HkName | HkMix | HkRegister | HkDependencies | HkBoot | HkBabelConfig
| HkWebpackEntry | HkWebpackRules | HkWebpackPlugins | HkWebpackConfig.

#[global] Instance Hook_eq_dec : EqDecision Hook.
Proof. solve_decision. Defined.

(** A component class.  Components are black boxes: what the registrar can
    see of one is which hooks it has, its flags, the names it answers to,
    and whether a call of a hook returns (and what) or throws. *)
Record ComponentClass := mkClass {
  ctorName : string;                        (* constructor.name *)
  nameHook : option (list string);          (* [].concat(component.name()) *)
  mixHook : option (list string);           (* Object.keys(component.mix()) *)
  passive : bool;
  requiresReload : bool;
  has : Hook -> bool;                       (* component.hook is defined *)
  outcome : Hook -> list JSVal -> Res JSVal (* how a call of the hook ends *)
}.

(** A component instance: its class and the two fields the registrar
    writes. *)
Record ComponentObj := mkObj {
  cls : ComponentClass;
  activated : bool;
  caller : option string
}.

(** ** Closures kept in objects *)

(** The listeners subscribed by [Mix.boot] and [ComponentRegistrar.install].
    [reg] is the context whose registrar created the closure ([this.mix]). *)
Inductive Handler :=
| HHotRecord (this : CtxId)                      (* () => this.hot.record() *)
| HGatherDependencies (reg : CtxId) (c : CompId)
| HInit (reg : CtxId) (c : CompId)
| HLoadingEntry (reg : CtxId) (c : CompId)
| HLoadingRules (reg : CtxId) (c : CompId)
| HLoadingPlugins (reg : CtxId) (c : CompId)
| HConfigReady (reg : CtxId) (c : CompId).

(** The entries of [this.components]. *)
Inductive Callable :=
| CVerb (reg : CtxId) (name : string) (c : CompId)  (* (...args) => { ... } *)
| CRaw (c : CompId) (key : string)                  (* component.mix()[key] *)
| CInProduction (reg : CtxId).                      (* () => this.config.production *)

(** Reactions queued on promises: [() => this.popCurrent()]. *)
Inductive Job :=
| JPopCurrent (this : CtxId).

Record PromiseCell := mkCell {
  settled : option Settlement;
  reactions : list Job
}.

(** ** What the outside world sees *)

Inductive Event :=
| EvWarn (message : string)                       (* console.warn *)
| EvDotenv                                        (* Dotenv.config() *)
| EvHotRecord (ctx : CtxId)                       (* this.hot.record() *)
| EvFire (ctx : CtxId) (event : string) (data : JSVal)  (* dispatcher.fire *)
| EvVerb (ctx : CtxId) (name : string) (c : CompId) (args : list JSVal)
| EvHook (c : CompId) (h : Hook) (args : list JSVal)
| EvRaw (c : CompId) (key : string) (args : list JSVal)
| EvQueue (c : CompId) (reload : bool)            (* Dependencies.queue *)
| EvInstallQueued                                 (* Dependencies.installQueued *)
| EvWebpackBuild (ctx : CtxId).                   (* this.webpackConfig.build() *)

(** ** Contexts and the world *)

Record Mix := mkMix {
  name : string;                          (* options.name *)
  booted : bool;
  initialized : bool;
  children : list CtxId;
  publicPath : option string;             (* config.publicPath, when set here *)
  babelMerged : list CompId;              (* merges into config.babelConfig *)
  listeners : list (string * Handler);    (* this.dispatcher *)
  components : gmap string Callable;      (* this.registrar.components *)
  ledger : list (string * CompId);        (* this.components (Components) *)
  has_api : bool                          (* this._api is set *)
}.

Record World := mkWorld {
  contexts : list Mix;                    (* heap of Mix instances *)
  primary : option CtxId;                 (* Mix._primary *)
  current : list CtxId;                   (* Mix.current; last = top *)
  globalMix : option CtxId;               (* global.Mix, .Config, .webpackConfig *)
  chunksCurrent : option CtxId;           (* set by chunks.makeCurrent() *)
  objects : list ComponentObj;            (* heap of component instances *)
  promises : list PromiseCell;            (* heap of promises *)
  microtasks : list Job;                  (* reactions ready to run *)
  log : list Event;
  MIX_GROUP : option string;              (* process.env.MIX_GROUP *)
  artisan : bool;                         (* File.exists('./artisan') *)
  modules : list ComponentClass           (* the classes installAll requires *)
}.

Definition M (A : Type) : Type := World -> Res A * World.

Definition ret {A} (a : A) : M A := fun w => (Ok a, w).
Definition throw {A} (e : JSVal) : M A := fun w => (Throw e, w).

Definition bind {A B} (m : M A) (k : A -> M B) : M B := fun w =>
  match m w with
  | (Ok a, w') => k a w'
  | (Throw e, w') => (Throw e, w')
  | (Stall, w') => (Stall, w')
  end.

Notation "x <- m ;; k" := (bind m (fun x => k))
  (at level 100, m at next level, right associativity).
Notation "m ;;; k" := (bind m (fun _ => k))
  (at level 100, right associativity).

(** A statement that cannot throw. *)
Definition exec (f : World -> World) : M unit := fun w => (Ok tt, f w).

(** Field updates. *)
Definition set_contexts (f : list Mix -> list Mix) (w : World) : World :=
  mkWorld (f (contexts w)) (primary w) (current w) (globalMix w)
    (chunksCurrent w) (objects w) (promises w) (microtasks w) (log w)
    (MIX_GROUP w) (artisan w) (modules w).

Definition set_primary (p : option CtxId) (w : World) : World :=
  mkWorld (contexts w) p (current w) (globalMix w)
    (chunksCurrent w) (objects w) (promises w) (microtasks w) (log w)
    (MIX_GROUP w) (artisan w) (modules w).

Definition set_current (f : list CtxId -> list CtxId) (w : World) : World :=
  mkWorld (contexts w) (primary w) (f (current w)) (globalMix w)
    (chunksCurrent w) (objects w) (promises w) (microtasks w) (log w)
    (MIX_GROUP w) (artisan w) (modules w).

Definition set_globals (g : option CtxId) (w : World) : World :=
  mkWorld (contexts w) (primary w) (current w) g g
    (objects w) (promises w) (microtasks w) (log w)
    (MIX_GROUP w) (artisan w) (modules w).

Definition set_objects (f : list ComponentObj -> list ComponentObj)
    (w : World) : World :=
  mkWorld (contexts w) (primary w) (current w) (globalMix w)
    (chunksCurrent w) (f (objects w)) (promises w) (microtasks w) (log w)
    (MIX_GROUP w) (artisan w) (modules w).

Definition set_promises (f : list PromiseCell -> list PromiseCell)
    (w : World) : World :=
  mkWorld (contexts w) (primary w) (current w) (globalMix w)
    (chunksCurrent w) (objects w) (f (promises w)) (microtasks w) (log w)
    (MIX_GROUP w) (artisan w) (modules w).

Definition set_microtasks (f : list Job -> list Job) (w : World) : World :=
  mkWorld (contexts w) (primary w) (current w) (globalMix w)
    (chunksCurrent w) (objects w) (promises w) (f (microtasks w)) (log w)
    (MIX_GROUP w) (artisan w) (modules w).

Definition emit (e : Event) (w : World) : World :=
  mkWorld (contexts w) (primary w) (current w) (globalMix w)
    (chunksCurrent w) (objects w) (promises w) (microtasks w) (log w ++ [e])
    (MIX_GROUP w) (artisan w) (modules w).

Definition upd_ctx (i : CtxId) (f : Mix -> Mix) : World -> World :=
  set_contexts (alter f i).

Definition upd_obj (c : CompId) (f : ComponentObj -> ComponentObj)
    : World -> World :=
  set_objects (alter f c).

Definition set_booted (b : bool) (m : Mix) : Mix :=
  mkMix (name m) b (initialized m) (children m) (publicPath m)
    (babelMerged m) (listeners m) (components m) (ledger m) (has_api m).
Definition set_initialized (b : bool) (m : Mix) : Mix :=
  mkMix (name m) (booted m) b (children m) (publicPath m)
    (babelMerged m) (listeners m) (components m) (ledger m) (has_api m).
Definition set_children (f : list CtxId -> list CtxId) (m : Mix) : Mix :=
  mkMix (name m) (booted m) (initialized m) (f (children m)) (publicPath m)
    (babelMerged m) (listeners m) (components m) (ledger m) (has_api m).
Definition set_publicPath (p : option string) (m : Mix) : Mix :=
  mkMix (name m) (booted m) (initialized m) (children m) p
    (babelMerged m) (listeners m) (components m) (ledger m) (has_api m).
Definition set_babelMerged (f : list CompId -> list CompId) (m : Mix) : Mix :=
  mkMix (name m) (booted m) (initialized m) (children m) (publicPath m)
    (f (babelMerged m)) (listeners m) (components m) (ledger m) (has_api m).
Definition set_listeners
    (f : list (string * Handler) -> list (string * Handler)) (m : Mix) : Mix :=
  mkMix (name m) (booted m) (initialized m) (children m) (publicPath m)
    (babelMerged m) (f (listeners m)) (components m) (ledger m) (has_api m).
Definition set_components
    (f : gmap string Callable -> gmap string Callable) (m : Mix) : Mix :=
  mkMix (name m) (booted m) (initialized m) (children m) (publicPath m)
    (babelMerged m) (listeners m) (f (components m)) (ledger m) (has_api m).
Definition set_has_api (b : bool) (m : Mix) : Mix :=
  mkMix (name m) (booted m) (initialized m) (children m) (publicPath m)
    (babelMerged m) (listeners m) (components m) (ledger m) b.
Definition set_ledger
    (f : list (string * CompId) -> list (string * CompId)) (m : Mix) : Mix :=
  mkMix (name m) (booted m) (initialized m) (children m) (publicPath m)
    (babelMerged m) (listeners m) (components m) (f (ledger m)) (has_api m).

(** Reads of a context's fields; a reference that is not in the heap reads
    as a context that was never touched. *)
Definition ctx_booted (w : World) (i : CtxId) : bool :=
  from_option booted false (contexts w !! i).
Definition ctx_initialized (w : World) (i : CtxId) : bool :=
  from_option initialized false (contexts w !! i).
Definition ctx_children (w : World) (i : CtxId) : list CtxId :=
  from_option children [] (contexts w !! i).
Definition ctx_listeners (w : World) (i : CtxId) : list (string * Handler) :=
  from_option listeners [] (contexts w !! i).
Definition ctx_components (w : World) (i : CtxId) : gmap string Callable :=
  from_option components ∅ (contexts w !! i).
Definition ctx_ledger (w : World) (i : CtxId) : list (string * CompId) :=
  from_option ledger [] (contexts w !! i).

(** ** Promises and the microtask queue *)

Fixpoint root (p : PromiseRef) : nat :=
  match p with
  | PCell id => id
  | PFinally src => root src
  end.

(** How a promise has settled, if it has.  The promise made by
    [p.finally(f)] settles as [p] does ([f] returns normally here). *)
Definition promise_state (w : World) (p : PromiseRef) : option Settlement :=
  c ← promises w !! root p; settled c.

Definition alloc_promise (c : PromiseCell) (w : World) : PromiseRef * World :=
  (PCell (length (promises w)), set_promises (fun l => l ++ [c]) w).

(** [new Promise(...)], still pending. *)
Definition newPromise : M PromiseRef := fun w =>
  let (p, w') := alloc_promise (mkCell None []) w in (Ok p, w').

(** A promise created settled: [Promise.resolve(v)], [Promise.reject(e)],
    or the promise of an async function whose body has run. *)
Definition settledPromise (s : Settlement) : M PromiseRef := fun w =>
  let (p, w') := alloc_promise (mkCell (Some s) []) w in (Ok p, w').

(** Resolving or rejecting a pending promise hands its reactions to the
    microtask queue; a settled promise stays as it is. *)
Definition settle (id : nat) (s : Settlement) (w : World) : World :=
  match promises w !! id with
  | Some (mkCell None rs) =>
      set_microtasks (fun q => q ++ rs)
        (set_promises (<[id := mkCell (Some s) []]>) w)
  | _ => w
  end.

(** [p.finally(job)]: the reaction waits for [p], or is queued at once when
    [p] has settled already; either way it runs after the current call. *)
Definition promise_finally (p : PromiseRef) (j : Job) : M PromiseRef := fun w =>
  match promises w !! root p with
  | Some (mkCell None rs) =>
      (Ok (PFinally p),
       set_promises (<[root p := mkCell None (rs ++ [j])]>) w)
  | Some (mkCell (Some _) _) =>
      (Ok (PFinally p), set_microtasks (fun q => q ++ [j]) w)
  | None => (Ok (PFinally p), w)
  end.

(** ** Mix: the current-context stack *)

Definition makeCurrent (this : CtxId) : World -> World :=
  set_globals (Some this).

Definition pushCurrent (this : CtxId) (w : World) : World :=
  set_current (fun s => s ++ [this]) (makeCurrent this w).

Definition popCurrent (this : CtxId) (w : World) : World :=
  let w1 := set_current (@removelast nat) w in
  match last (current w1) with
  | Some context => makeCurrent context w1
  | None => w1
  end.

Definition run_job (j : Job) : World -> World :=
  match j with
  | JPopCurrent this => popCurrent this
  end.

(** Drain the microtask queue. *)
Definition run_microtasks (w : World) : World :=
  foldl (fun w' j => run_job j w') (set_microtasks (fun _ => []) w)
    (microtasks w).

(** [await v] inside an async function. *)
Definition await (v : JSVal) : M JSVal := fun w =>
  let w' := run_microtasks w in
  match v with
  | VPromise p =>
      match promise_state w' p with
      | Some (Fulfilled r) => (Ok r, w')
      | Some (Rejected e) => (Throw e, w')
      | None => (Stall, w')
      end
  | _ => (Ok v, w')
  end.

(** The promise an async function returns.  The body is run to its end
    first: an [await] inside it is a point where the queued reactions run,
    not a point where other callers interleave. *)
Definition async (body : M JSVal) : M JSVal := fun w =>
  match body w with
  | (Ok (VPromise p), w') => (Ok (VPromise p), w')
  | (Ok v, w') =>
      let (p, w'') := alloc_promise (mkCell (Some (Fulfilled v)) []) w' in
      (Ok (VPromise p), w'')
  | (Throw e, w') =>
      let (p, w'') := alloc_promise (mkCell (Some (Rejected e)) []) w' in
      (Ok (VPromise p), w'')
  | (Stall, w') =>
      let (p, w'') := alloc_promise (mkCell None []) w' in
      (Ok (VPromise p), w'')
  end.

(** ** Mix: construction, boot, scoped execution *)

(** [new Mix(options)] with [resolveOptions]: the name defaults to 'Mix'. *)
Definition newMix (options_name : option string) : M CtxId := fun w =>
  (Ok (length (contexts w)),
   set_contexts
     (fun l => l ++ [mkMix (default "Mix" options_name) false false []
                       None [] [] ∅ [] false]) w).

(** The static getter [Mix.primary]. *)
Definition get_primary : M CtxId := fun w =>
  match primary w with
  | Some p => (Ok p, w)
  | None =>
      match newMix None w with
      | (Ok p, w') => (Ok p, set_primary (Some p) w')
      | (r, w') => (r, w')
      end
  end.

Definition sees (tool : string) (w : World) : bool :=
  if decide (tool = "laravel") then artisan w else false.

(** [Mix.listen] hands the callback to [this.dispatcher.listen]; see the
    Dispatcher section for what that is taken to do. *)
Definition listen (this : CtxId) (event : string) (callback : Handler)
    : World -> World :=
  upd_ctx this (set_listeners (fun l => l ++ [(event, callback)])).

Definition boot (this : CtxId) : M CtxId := fun w =>
  if ctx_booted w this then (Ok this, w)
  else
    let w1 := upd_ctx this (set_booted true) w in
    let w2 := if decide (primary w1 = Some this) then emit EvDotenv w1
              else w1 in
    let w3 := if sees "laravel" w2
              then upd_ctx this (set_publicPath (Some "public")) w2
              else w2 in
    let w4 := listen this "init" (HHotRecord this) w3 in
    (Ok this, pushCurrent this w4).

Definition whileCurrent (this : CtxId) (callback : CtxId -> M JSVal)
    : M JSVal := fun w =>
  let w1 := pushCurrent this w in
  match callback this w1 with
  | (Ok result, w2) =>
      match result with
      | VPromise p =>
          match promise_finally p (JPopCurrent this) w2 with
          | (Ok q, w3) => (Ok (VPromise q), w3)
          | (Throw err, w3) => (Throw err, popCurrent this w3)
          | (Stall, w3) => (Stall, w3)
          end
      | _ => (Ok VUndefined, popCurrent this w2)
      end
  | (Throw err, w2) => (Throw err, popCurrent this w2)
  | (Stall, w2) => (Stall, w2)
  end.

Definition withChild (this : CtxId) (name : string)
    (callback : CtxId -> M JSVal) : M JSVal :=
  context <- (c <- newMix (Some name) ;; boot c) ;;
  exec (upd_ctx this (set_children (fun l => l ++ [context]))) ;;;
  whileCurrent context callback.

(** ** ComponentRegistrar *)

Definition gets {A} (f : World -> A) : M A := fun w => (Ok (f w), w).

Fixpoint forEach {A} (l : list A) (f : A -> M unit) : M unit :=
  match l with
  | [] => ret tt
  | x :: l' => f x ;;; forEach l' f
  end.

Definition set_activated (b : bool) (o : ComponentObj) : ComponentObj :=
  mkObj (cls o) b (caller o).
Definition set_caller (n : option string) (o : ComponentObj) : ComponentObj :=
  mkObj (cls o) (activated o) n.

Definition obj_activated (w : World) (c : CompId) : bool :=
  from_option activated false (objects w !! c).
Definition obj_caller (w : World) (c : CompId) : option string :=
  o ← objects w !! c; caller o.
Definition obj_passive (w : World) (c : CompId) : bool :=
  from_option (fun o => passive (cls o)) false (objects w !! c).
Definition obj_requiresReload (w : World) (c : CompId) : bool :=
  from_option (fun o => requiresReload (cls o)) false (objects w !! c).
Definition obj_has (h : Hook) (w : World) (c : CompId) : bool :=
  from_option (fun o => has (cls o) h) false (objects w !! c).

(** [new Component()]: a fresh instance, on which the registrar has set
    neither [activated] nor [caller] yet. *)
Definition newComponent (k : ComponentClass) : M CompId := fun w =>
  (Ok (length (objects w)),
   set_objects (fun l => l ++ [mkObj k false None]) w).

(** A call [component.h(...args)] of a hook of the component. *)
Definition callHook (c : CompId) (h : Hook) (args : list JSVal) : M JSVal :=
  fun w =>
    match objects w !! c with
    | Some o => (outcome (cls o) h args, emit (EvHook c h args) w)
    | None => (Throw (VError "TypeError"), w)
    end.

(** Modelled from the spec: the class Components ([mix.components]) is not
    among the sources.  Per the spec, [record(name, component)] enters the
    component under its verb name in the build-record ledger of the
    context. *)
Definition record (reg : CtxId) (name : string) (c : CompId)
    : World -> World :=
  upd_ctx reg (set_ledger (fun l => l ++ [(name, c)])).

(** The verb callable [(...args) => { ... }] that [registerComponent]
    stores under [name]. *)
Definition verb (reg : CtxId) (name : string) (c : CompId)
    (args : list JSVal) : M JSVal :=
  exec (emit (EvVerb reg name c args)) ;;;
  exec (record reg name c) ;;;
  exec (upd_obj c (set_caller (Some name))) ;;;
  r <- gets (fun w => obj_has HkRegister w c) ;;
  (if r then callHook c HkRegister args else ret VUndefined) ;;;
  exec (upd_obj c (set_activated true)) ;;;
  ret (VApi reg).

(** Calling an entry of [this.components].  What a function taken from
    [component.mix()] does is the component's business; [config.production]
    is read as false. *)
Definition call (f : Callable) (args : list JSVal) : M JSVal :=
  match f with
  | CVerb reg name c => verb reg name c args
  | CRaw c key => exec (emit (EvRaw c key args)) ;;; ret VUndefined
  | CInProduction reg => ret (VBool false)
  end.

(** [name.replace(/^([A-Z])/, letter => letter.toLowerCase())] *)
Definition lcfirst (s : string) : string :=
  match s with
  | EmptyString => EmptyString
  | String a rest =>
      let n := Ascii.nat_of_ascii a in
      if (65 <=? n) && (n <=? 90)
      then String (Ascii.ascii_of_nat (n + 32)) rest
      else s
  end.

Definition componentNames (c : CompId) : M (list string) := fun w =>
  match objects w !! c with
  | None => (Throw (VError "TypeError"), w)
  | Some o =>
      match nameHook (cls o) with
      | Some names => (callHook c HkName [] ;;; ret names) w
      | None => (Ok [lcfirst (ctorName (cls o))], w)
      end
  end.

Definition componentMix (c : CompId) : M (list string) := fun w =>
  match objects w !! c with
  | None => (Throw (VError "TypeError"), w)
  | Some o =>
      match mixHook (cls o) with
      | Some keys => (callHook c HkMix [] ;;; ret keys) w
      | None => (Ok [], w)
      end
  end.

(** The local function [register] of [registerComponent]. *)
Definition register (reg : CtxId) (c : CompId) (name : string) : M unit :=
  exec (upd_ctx reg (set_components (<[name := CVerb reg name c]>))) ;;;
  p <- gets (fun w => obj_passive w c) ;;
  (if p then verb reg name c [] else ret VUndefined) ;;;
  keys <- componentMix c ;;
  forEach keys (fun key =>
    componentMix c ;;;
    exec (upd_ctx reg (set_components (<[key := CRaw c key]>)))).

Definition registerComponent (reg : CtxId) (c : CompId) : M unit :=
  names <- componentNames c ;;
  forEach names (register reg c).

Inductive Installable :=
| IClass (k : ComponentClass)      (* typeof Component === 'function' *)
| IInstance (c : CompId).

Definition install (reg : CtxId) (Component : Installable) : M JSVal :=
  component <- match Component with
               | IClass k => newComponent k
               | IInstance c => ret c
               end ;;
  registerComponent reg component ;;;
  exec (listen reg "internal:gather-dependencies"
          (HGatherDependencies reg component)) ;;;
  exec (listen reg "init" (HInit reg component)) ;;;
  ret (VApi reg).

Definition installAll (reg : CtxId) : M JSVal :=
  ms <- gets modules ;;
  forEach ms (fun k => install reg (IClass k) ;;; ret tt) ;;;
  ret (VApi reg).

(** The getter [api]. *)
Definition api (this : CtxId) : M JSVal :=
  a <- gets (fun w => from_option has_api false (contexts w !! this)) ;;
  (if a then ret tt
   else
     installAll this ;;;
     exec (upd_ctx this (set_has_api true)) ;;;
     exec (upd_ctx this
             (set_components (<["inProduction" := CInProduction this]>)))) ;;;
  ret (VApi this).

Definition eligible (c : CompId) : M bool :=
  gets (fun w => obj_activated w c || obj_passive w c).

Definition applyBabelConfig (reg : CtxId) (c : CompId) : M JSVal :=
  r <- callHook c HkBabelConfig [] ;;
  await r ;;;
  exec (upd_ctx reg (set_babelMerged (fun l => l ++ [c]))) ;;;
  ret VUndefined.

(** What [webpackRules] and [webpackPlugins] return is pushed onto the
    array that came with the event; the arrays are not part of the model,
    the calls are. *)
Definition applyRules (c : CompId) : M JSVal :=
  callHook c HkWebpackRules [] ;;; ret VUndefined.

Definition applyPlugins (c : CompId) : M JSVal :=
  callHook c HkWebpackPlugins [] ;;; ret VUndefined.

(** The bodies of the listeners. *)
Definition run_handler (h : Handler) (data : JSVal) : M JSVal :=
  match h with
  | HHotRecord this => exec (emit (EvHotRecord this)) ;;; ret VUndefined
  | HGatherDependencies reg c =>
      ok <- eligible c ;;
      if negb ok then ret VUndefined
      else
        d <- gets (fun w => obj_has HkDependencies w c) ;;
        if negb d then ret VUndefined
        else
          r <- callHook c HkDependencies [] ;;
          await r ;;;
          reload <- gets (fun w => obj_requiresReload w c) ;;
          exec (emit (EvQueue c reload)) ;;;
          ret VUndefined
  | HInit reg c =>
      ok <- eligible c ;;
      if negb ok then ret VUndefined
      else
        b <- gets (fun w => obj_has HkBoot w c) ;;
        r <- (if b then callHook c HkBoot [] else ret VUndefined) ;;
        await r ;;;
        bc <- gets (fun w => obj_has HkBabelConfig w c) ;;
        r' <- (if bc then applyBabelConfig reg c else ret VUndefined) ;;
        await r' ;;;
        exec (listen reg "loading-entry" (HLoadingEntry reg c)) ;;;
        exec (listen reg "loading-rules" (HLoadingRules reg c)) ;;;
        exec (listen reg "loading-plugins" (HLoadingPlugins reg c)) ;;;
        exec (listen reg "configReady" (HConfigReady reg c)) ;;;
        ret VUndefined
  | HLoadingEntry reg c =>
      e <- gets (fun w => obj_has HkWebpackEntry w c) ;;
      if e then callHook c HkWebpackEntry [data] else ret VUndefined
  | HLoadingRules reg c =>
      e <- gets (fun w => obj_has HkWebpackRules w c) ;;
      if e then applyRules c else ret VUndefined
  | HLoadingPlugins reg c =>
      e <- gets (fun w => obj_has HkWebpackPlugins w c) ;;
      if e then applyPlugins c else ret VUndefined
  | HConfigReady reg c =>
      e <- gets (fun w => obj_has HkWebpackConfig w c) ;;
      if e then callHook c HkWebpackConfig [data] else ret VUndefined
  end.

(** ** Dispatcher *)

(** Modelled from the spec: the Dispatcher class ([listen], [fire]) is not
    among the sources.  Per the spec, [listen] appends the handler to the
    handlers of the event (see [listen] above), and [fire] invokes the
    handlers registered for exactly that name, in registration order, each
    awaited before the next; a handler that throws aborts the rest and fails
    the firing. *)
Definition handlers_for (event : string) (l : list (string * Handler))
    : list Handler :=
  (filter (fun eh => eh.1 = event) l).*2.

Definition fire (this : CtxId) (event : string) (data : JSVal) : M JSVal :=
  async (
    exec (emit (EvFire this event data)) ;;;
    hs <- gets (fun w => handlers_for event (ctx_listeners w this)) ;;
    forEach hs (fun h => r <- run_handler h data ;; await r ;;; ret tt) ;;;
    ret VUndefined).

(** ** Mix: events, initialisation, build *)

(** The [data] argument of [dispatch]: a value, or a function producing
    it. *)
Inductive Data :=
| DVal (v : JSVal)
| DFun (f : M JSVal).

Definition dispatch (this : CtxId) (event : string) (data : Data) : M JSVal :=
  async (
    whileCurrent this (fun _ =>
      d <- match data with
           | DFun f => f
           | DVal v => ret v
           end ;;
      fire this event d)).

Fixpoint mapM {A B} (f : A -> M B) (l : list A) : M (list B) :=
  match l with
  | [] => ret []
  | x :: l' => y <- f x ;; ys <- mapM f l' ;; ret (y :: ys)
  end.

(** [await Promise.all(values)]: the reactions queued so far run; then the
    first rejection wins, a promise still pending stalls the caller, and
    otherwise the results come back in order. *)
Fixpoint all_results (w : World) (vs : list JSVal) : Res (list JSVal) :=
  match vs with
  | [] => Ok []
  | v :: vs' =>
      let here := match v with
                  | VPromise p =>
                      match promise_state w p with
                      | Some (Fulfilled r) => Ok r
                      | Some (Rejected e) => Throw e
                      | None => Stall
                      end
                  | _ => Ok v
                  end in
      match here, all_results w vs' with
      | Throw e, _ => Throw e
      | _, Throw e => Throw e
      | Stall, _ => Stall
      | _, Stall => Stall
      | Ok r, Ok rs => Ok (r :: rs)
      end
  end.

Definition awaitAll (vs : list JSVal) : M JSVal := fun w =>
  let w' := run_microtasks w in
  match all_results w' vs with
  | Ok rs => (Ok (VArray rs), w')
  | Throw e => (Throw e, w')
  | Stall => (Stall, w')
  end.

Definition dispatchToChildren (this : CtxId) (event : string) (data : Data)
    : M JSVal :=
  async (
    cs <- gets (fun w => ctx_children w this) ;;
    promises <- mapM (fun child => dispatch child event data) cs ;;
    awaitAll promises).

Definition installDependencies (this : CtxId) : M JSVal :=
  async (
    p1 <- dispatch this "internal:gather-dependencies" (DVal VUndefined) ;;
    await p1 ;;;
    p2 <- dispatchToChildren this "internal:gather-dependencies"
            (DVal VUndefined) ;;
    await p2 ;;;
    exec (emit EvInstallQueued) ;;;
    ret VUndefined).

Definition init (this : CtxId) : M JSVal :=
  async (
    i <- gets (fun w => ctx_initialized w this) ;;
    if i then ret VUndefined
    else
      exec (upd_ctx this (set_initialized true)) ;;;
      p1 <- dispatch this "init" (DVal (VMix this)) ;;
      await p1 ;;;
      p2 <- dispatchToChildren this "init" (DVal (VMix this)) ;;
      await p2 ;;;
      ret VUndefined).

(** The generator [buildConfigs], as the sequence of contexts whose
    [webpackConfig.build()] it yields.  The recursion follows the [children]
    references through the heap, so it is bounded by [fuel]; in a heap
    where children were created after their parents ([heap_tree] below) the
    number of contexts is fuel enough. *)
Fixpoint buildConfigs (fuel : nat) (w : World) (this : CtxId) : list CtxId :=
  match fuel with
  | 0 => []
  | S fuel' =>
      (if length (ctx_children w this) =? 0 then [this] else [])
      ++ (ctx_children w this ≫= buildConfigs fuel' w)
  end.

Definition warning : string :=
  "Mix was not set up correctly. Please ensure you import or require laravel-mix in your mix config.".

(** [this.webpackConfig.build()] is the external configuration builder: the
    call is recorded and stands for the configuration of that context. *)
Definition webpackConfig_build (this : CtxId) : M JSVal :=
  exec (emit (EvWebpackBuild this)) ;;;
  p <- settledPromise (Fulfilled (VConfig this)) ;;
  ret (VPromise p).

Definition build (this : CtxId) : M JSVal :=
  async (
    b <- gets (fun w => ctx_booted w this) ;;
    (if negb b
     then exec (emit (EvWarn warning)) ;;; boot this ;;; ret tt
     else ret tt) ;;;
    ops <- gets (fun w => buildConfigs (length (contexts w)) w this) ;;
    promises <- mapM webpackConfig_build ops ;;
    awaitAll promises).

(** ** Group *)

(** [callback] is [None] when the argument is missing (or otherwise
    falsy). *)
Definition Group_register (parent : CtxId) (name : string)
    (callback : option (JSVal -> CtxId -> M JSVal)) : M JSVal :=
  match callback with
  | None => throw (VError "A callback must be passed to mix.group()")
  | Some cb =>
      g <- gets MIX_GROUP ;;
      let shouldBuild :=
        match g with
        | Some group => bool_decide (name = group) || bool_decide (group = "")
        | None => true
        end in
      if negb shouldBuild then ret VUndefined
      else
        withChild parent name (fun context =>
          a <- api context ;; cb a context) ;;;
        ret VUndefined
  end.

(** ** Starting worlds *)

(** Nothing created yet. *)
Definition world0 : World :=
  mkWorld [] None [] None None [] [] [] [] None false [].

(** The state a build script starts in: the primary context exists and is
    booted. *)
Definition booted_world : World :=
  snd ((p <- get_primary ;; boot p) world0).

(** ** What a build script and the pipeline can do *)

(** The calls that reach the contexts from outside: a build script creates
    and boots contexts, installs components, calls verbs and declares groups
    (whose callbacks do the same); the pipeline fires events, installs
    dependencies, initialises and builds. *)
#[warnings="-register-all"]
Inductive Op :=
| OpPrimary                                      (* Mix.primary *)
| OpNew (name : option string)                   (* new Mix({ name }) *)
| OpBoot (ctx : CtxId)
| OpInstall (ctx : CtxId) (C : Installable)      (* registrar.install(C) *)
| OpApi (ctx : CtxId)                            (* ctx.api *)
| OpCall (ctx : CtxId) (verb : string) (args : list JSVal)
                                                 (* ctx.api[verb](...args) *)
| OpDispatch (ctx : CtxId) (event : string) (data : JSVal)
| OpInstallDependencies (ctx : CtxId)
| OpInit (ctx : CtxId)
| OpBuild (ctx : CtxId)
| OpGroup (parent : CtxId) (name : string) (body : list Op).
                                  (* group(name, () => { body }) *)

(** A method can only be called on a context that exists. *)
Definition on_context (ctx : CtxId) (m : M JSVal) : M JSVal :=
  ok <- gets (fun w => bool_decide (ctx < length (contexts w))) ;;
  if ok then m else throw (VError "TypeError").

Fixpoint run_op (o : Op) : M JSVal :=
  match o with
  | OpPrimary => p <- get_primary ;; ret (VMix p)
  | OpNew n => c <- newMix n ;; ret (VMix c)
  | OpBoot ctx => on_context ctx (c <- boot ctx ;; ret (VMix c))
  | OpInstall ctx C => on_context ctx (install ctx C)
  | OpApi ctx => on_context ctx (api ctx)
  | OpCall ctx v args =>
      on_context ctx (
        f <- gets (fun w => ctx_components w ctx !! v) ;;
        match f with
        | Some f => call f args
        | None => throw (VError "TypeError")
        end)
  | OpDispatch ctx event data =>
      on_context ctx (dispatch ctx event (DVal data))
  | OpInstallDependencies ctx => on_context ctx (installDependencies ctx)
  | OpInit ctx => on_context ctx (init ctx)
  | OpBuild ctx => on_context ctx (build ctx)
  | OpGroup parent n body =>
      on_context parent (
        Group_register parent n
          (Some (fun _ _ =>
             (fix run_all (l : list Op) : M JSVal :=
                match l with
                | [] => ret VUndefined
                | o' :: l' => run_op o' ;;; run_all l'
                end) body)))
  end.

(** The world after a sequence of operations, whatever their
    completions. *)
Definition run_ops (l : list Op) (w : World) : World :=
  foldl (fun w' o => snd (run_op o w')) w l.

(** ** Scenarios *)

(** The primary context, created but not booted. *)
Definition unbooted_world : World := snd (get_primary world0).

(** Two groups declared on the booted primary context. *)
Definition two_groups : World :=
  snd ((withChild 0 "a" (fun _ => ret VUndefined) ;;;
        withChild 0 "b" (fun _ => ret VUndefined)) booted_world).

(** A group inside a group. *)
Definition nested_groups : World :=
  snd (withChild 0 "outer"
         (fun outer => withChild outer "inner" (fun _ => ret VUndefined))
         booted_world).

(** Two components for the examples: Vue has to be called for, Notifications
    is passive. *)
Definition Vue : ComponentClass :=
  mkClass "Vue" None None false false
    (fun h => match h with
              | HkRegister | HkDependencies | HkBoot | HkWebpackEntry
              | HkWebpackRules | HkWebpackPlugins | HkWebpackConfig => true
              | _ => false
              end)
    (fun _ _ => Ok VUndefined).

Definition Notifications : ComponentClass :=
  mkClass "Notifications" None None true false
    (fun h => match h with
              | HkBoot | HkWebpackPlugins => true
              | _ => false
              end)
    (fun _ _ => Ok VUndefined).

Definition installed_world : World :=
  snd ((install 0 (IClass Notifications) ;;;
        install 0 (IClass Vue)) booted_world).

(** The scenario of the specification: Notifications (passive) and Vue are
    installed, Vue is never called for, the pipeline runs. *)
Definition notifications_only : list Op :=
  [OpPrimary; OpBoot 0; OpInstall 0 (IClass Notifications);
   OpInstall 0 (IClass Vue); OpInstallDependencies 0; OpInit 0;
   OpDispatch 0 "loading-plugins" (VArray []); OpBuild 0].

(** A build script that calls for Vue, and the pipeline. *)
Definition vue_build : list Op :=
  [OpPrimary; OpBoot 0; OpInstall 0 (IClass Notifications);
   OpInstall 0 (IClass Vue); OpCall 0 "vue" [VNum 3];
   OpDispatch 0 "loading-rules" (VArray []);
   OpInit 0;
   OpDispatch 0 "loading-rules" (VArray [])].

(** * Reasoning rules *)

Lemma bind_Ok {A B} (m : M A) (k : A -> M B) w a w' :
  m w = (Ok a, w') -> bind m k w = k a w'.
Proof. unfold bind. by intros ->. Qed.

Lemma bind_Throw {A B} (m : M A) (k : A -> M B) w e w' :
  m w = (Throw e, w') -> bind m k w = (Throw e, w').
Proof. unfold bind. by intros ->. Qed.

Lemma bind_Stall {A B} (m : M A) (k : A -> M B) w w' :
  m w = (Stall, w') -> bind m k w = (Stall, w').
Proof. unfold bind. by intros ->. Qed.

Lemma bind_gets {A B} (f : World -> A) (k : A -> M B) w :
  bind (gets f) k w = k (f w) w.
Proof. reflexivity. Qed.

Lemma bind_exec {B} (f : World -> World) (k : unit -> M B) w :
  bind (exec f) k w = k tt (f w).
Proof. reflexivity. Qed.

Lemma bind_ret {A B} (a : A) (k : A -> M B) w : bind (ret a) k w = k a w.
Proof. reflexivity. Qed.


(** [hoare P m Q]: started in a world satisfying [P], the call [m] ends
    (whatever its completion) in a world satisfying [Q]. *)
Definition hoare {A} (P : World -> Prop) (m : M A) (Q : World -> Prop) : Prop :=
  forall w, P w -> Q (snd (m w)).

Section Rules.
Context {A B : Type}.
Implicit Types P Q : World -> Prop.

Lemma hoare_conseq P P' Q Q' (m : M A) :
  (forall w, P w -> P' w) -> (forall w, Q' w -> Q w) ->
  hoare P' m Q' -> hoare P m Q.
Proof. unfold hoare. eauto. Qed.

Lemma hoare_ret P (a : A) : hoare P (ret a) P.
Proof. intros w Hw. exact Hw. Qed.

Lemma hoare_throw P e : hoare P (throw (A:=A) e) P.
Proof. intros w Hw. exact Hw. Qed.

Lemma hoare_exec P Q (f : World -> World) :
  (forall w, P w -> Q (f w)) -> hoare P (exec f) Q.
Proof. intros H w Hw. apply H, Hw. Qed.

Lemma hoare_bind P Q R (m : M A) (k : A -> M B) :
  hoare P m Q -> (forall w, Q w -> R w) -> (forall a, hoare Q (k a) R) ->
  hoare P (bind m k) R.
Proof.
  intros Hm HQR Hk w Hw. unfold bind. specialize (Hm w Hw).
  destruct (m w) as [[a|e|] w']; simpl in *; auto.
  apply (Hk a w' Hm).
Qed.

(** A read of the state is remembered by what follows it. *)
Lemma hoare_gets P Q (f : World -> A) (k : A -> M B) :
  (forall a, hoare (fun w => P w /\ f w = a) (k a) Q) ->
  hoare P (bind (gets f) k) Q.
Proof. intros H w Hw. unfold bind, gets. apply (H (f w) w). auto. Qed.
End Rules.

Lemma hoare_forEach {A} P (l : list A) (f : A -> M unit) :
  (forall x, x ∈ l -> hoare P (f x) P) -> hoare P (forEach l f) P.
Proof.
  induction l as [|x l IH]; intros H; simpl.
  - apply hoare_ret.
  - eapply hoare_bind; [apply H; left | auto |].
    intros _. apply IH. intros y Hy. apply H. by right.
Qed.

Lemma hoare_mapM {A B} P (l : list A) (f : A -> M B) :
  (forall x, x ∈ l -> hoare P (f x) P) -> hoare P (mapM f l) P.
Proof.
  induction l as [|x l IH]; intros H; simpl.
  - apply hoare_ret.
  - eapply hoare_bind; [apply H; left | auto |].
    intros y. eapply hoare_bind; [apply IH | auto |].
    + intros z Hz. apply H. by right.
    + intros ys. apply hoare_ret.
Qed.

Lemma hoare_async P Q (body : M JSVal) :
  hoare P body Q -> (forall c w, Q w -> Q (snd (alloc_promise c w))) ->
  hoare P (async body) Q.
Proof.
  intros Hb Ha w Hw. unfold async. specialize (Hb w Hw).
  destruct (body w) as [[v|e|] w']; simpl in *.
  - destruct v; simpl; auto; apply Ha; auto.
  - apply Ha; auto.
  - apply Ha; auto.
Qed.

(** * The current-context stack *)

Lemma current_pushCurrent this w :
  current (pushCurrent this w) = current w ++ [this].
Proof. reflexivity. Qed.

Lemma current_popCurrent this w :
  current (popCurrent this w) = removelast (current w).
Proof.
  unfold popCurrent. simpl. destruct (last (removelast (current w))); reflexivity.
Qed.

Lemma pop_push this that w :
  current (popCurrent that (pushCurrent this w)) = current w.
Proof.
  rewrite current_popCurrent, current_pushCurrent. apply removelast_last.
Qed.

Lemma current_run_jobs (js : list Job) (w : World) :
  current (foldl (fun w' j => run_job j w') w js)
  = Nat.iter (length js) (@removelast nat) (current w).
Proof.
  revert w. induction js as [|j js IH]; intros w; [reflexivity|].
  simpl foldl. rewrite IH. destruct j as [this]. simpl run_job.
  rewrite current_popCurrent. simpl length. by rewrite Nat.iter_succ_r.
Qed.

Lemma current_run_microtasks w :
  current (run_microtasks w)
  = Nat.iter (length (microtasks w)) (@removelast nat) (current w).
Proof. unfold run_microtasks. by rewrite current_run_jobs. Qed.

(** The reactions that run once [p] has settled: those already queued and
    those still waiting on [p]. *)
Definition waiting (w : World) (p : PromiseRef) : list Job :=
  microtasks w ++
  match promises w !! root p with
  | Some (mkCell None rs) => rs
  | _ => []
  end.

Lemma microtasks_settle p s w : microtasks (settle (root p) s w) = waiting w p.
Proof.
  unfold settle, waiting.
  destruct (promises w !! root p) as [[[s'|] rs]|]; simpl;
    by rewrite ?app_nil_r.
Qed.

Lemma current_settle id s w : current (settle id s w) = current w.
Proof.
  unfold settle. by destruct (promises w !! id) as [[[s'|] rs]|].
Qed.

(** The stack once [p] has settled and the reactions have run: one entry
    has come off for each reaction that was queued or waiting on [p]. *)
Lemma current_settled p s w :
  current (run_microtasks (settle (root p) s w))
  = Nat.iter (length (waiting w p)) (@removelast nat) (current w).
Proof.
  by rewrite current_run_microtasks, microtasks_settle, current_settle.
Qed.

(** What a scoped call does to the stack, whatever the callback does.  With
    [w2] the world the callback ends in: after a return of a value that is
    no promise, and after a throw, the top entry of [w2] has come off.
    After the return of a promise nothing has come off yet, and one more
    pop than before runs once the promise has settled (it is queued at once
    when the promise has settled already): with the reactions run, the
    stack is one entry shorter than it would be without the scoped call. *)
Lemma whileCurrent_pops this (callback : CtxId -> M JSVal) w :
  let w1 := pushCurrent this w in
  let r := fst (callback this w1) in
  let w2 := snd (callback this w1) in
  let w' := snd (whileCurrent this callback w) in
  match r with
  | Ok (VPromise p) =>
      current w' = current w2 /\
      (root p < length (promises w2) ->
       (promise_state w2 p = None -> microtasks w' = microtasks w2) /\
       waiting w' p = waiting w2 p ++ [JPopCurrent this] /\
       forall s, current (run_microtasks (settle (root p) s w'))
                 = removelast (current (run_microtasks (settle (root p) s w2))))
  | Stall => w' = w2
  | _ => current w' = removelast (current w2)
  end.
Proof.
  intros w1 r w2 w'. unfold w', r, w2, whileCurrent. fold w1.
  destruct (callback this w1) as [[v|e|] wc]; simpl;
    [|apply current_popCurrent|reflexivity].
  destruct v; try apply current_popCurrent.
  unfold promise_finally.
  destruct (promises wc !! root p) as [[[s'|] rs]|] eqn:Hp; simpl.
  - split; [reflexivity|]. intros _.
    assert (Hw : waiting (set_microtasks (fun q => q ++ [JPopCurrent this]) wc)
                   p
                 = waiting wc p ++ [JPopCurrent this]).
    { unfold waiting. simpl. rewrite Hp. by rewrite !app_nil_r. }
    split_and!.
    + unfold promise_state. by rewrite Hp.
    + exact Hw.
    + intros s. rewrite !current_settled, Hw, length_app. simpl.
      by rewrite Nat.add_1_r.
  - split; [reflexivity|]. intros Hlt.
    assert (Hw : waiting
                   (set_promises
                      (<[root p := mkCell None (rs ++ [JPopCurrent this])]>)
                      wc) p
                 = waiting wc p ++ [JPopCurrent this]).
    { unfold waiting. simpl. rewrite Hp, list_lookup_insert_eq by done.
      by rewrite app_assoc. }
    split_and!.
    + done.
    + exact Hw.
    + intros s. rewrite !current_settled, Hw, length_app. simpl.
      by rewrite Nat.add_1_r.
  - split; [reflexivity|]. intros Hlt.
    apply lookup_lt_is_Some_2 in Hlt as [cell Hcell]. congruence.
Qed.

(** The world in which [withChild] starts the scoped call: the child has
    been created and booted and is in the parent's [children]. *)
Definition child_entry (this : CtxId) (name : string) (w : World) : World :=
  snd ((context <- (c <- newMix (Some name) ;; boot c) ;;
        exec (upd_ctx this (set_children (fun l => l ++ [context])))) w).

Lemma withChild_unfold this name callback w :
  withChild this name callback w
  = whileCurrent (length (contexts w)) callback (child_entry this name w).
Proof.
  unfold withChild, child_entry, bind, newMix, boot, exec, ctx_booted. simpl.
  rewrite lookup_app_r by lia. rewrite Nat.sub_diag. reflexivity.
Qed.

Lemma current_child_entry this name w :
  current (child_entry this name w) = current w ++ [length (contexts w)].
Proof.
  unfold child_entry, bind, newMix, boot, exec, ctx_booted. simpl.
  rewrite lookup_app_r by lia. rewrite Nat.sub_diag. simpl.
  case_decide; destruct (sees _ _); reflexivity.
Qed.

(** C1.  [withChild] does not leave the stack as it found it.  Before the
    callback runs the child is on the stack twice: [boot] has pushed it and
    [whileCurrent] has pushed it again.  Whatever the callback does, one
    entry comes off afterwards and one only: at once after a return or a
    throw, and after the return of a promise once the promise has settled,
    fulfilled or rejected (the pop is registered on the promise by
    [whileCurrent]; nothing about it is assumed).  So a callback that
    leaves the stack as it found it, in this call, leaves the child on top
    of the stack that was there before: one entry deeper, on every exit
    path. *)
Theorem withChild_stack (this : CtxId) (name : string)
    (callback : CtxId -> M JSVal) (w : World) :
  let child := length (contexts w) in
  let w1 := pushCurrent child (child_entry this name w) in
  let r := fst (callback child w1) in
  let w2 := snd (callback child w1) in
  let w' := snd (withChild this name callback w) in
  current w1 = current w ++ [child; child] /\
  match r with
  | Ok (VPromise p) =>
      current w' = current w2 /\
      (root p < length (promises w2) ->
       (promise_state w2 p = None -> microtasks w' = microtasks w2) /\
       waiting w' p = waiting w2 p ++ [JPopCurrent child] /\
       forall s, current (run_microtasks (settle (root p) s w'))
                 = removelast (current (run_microtasks (settle (root p) s w2))))
  | Stall => w' = w2
  | _ => current w' = removelast (current w2)
  end /\
  (current w2 = current w1 ->
   match r with
   | Ok (VPromise p) =>
       root p < length (promises w2) -> waiting w2 p = [] ->
       current w' = current w ++ [child; child] /\
       forall s, current (run_microtasks (settle (root p) s w'))
                 = current w ++ [child]
   | Stall => True
   | _ => current w' = current w ++ [child]
   end).
Proof.
  intros child w1 r w2 w'.
  assert (H1 : current w1 = current w ++ [child; child]).
  { unfold w1. rewrite current_pushCurrent, current_child_entry.
    by rewrite <- app_assoc. }
  assert (Hw' : w' = snd (whileCurrent child callback
                            (child_entry this name w)))
    by (unfold w'; by rewrite withChild_unfold).
  clearbody w'. subst w'.
  pose proof (whileCurrent_pops child callback (child_entry this name w))
    as Hp.
  cbv zeta in Hp. fold w1 in Hp. fold r w2 in Hp.
  split; [exact H1|]. split; [exact Hp|].
  intros Hn. rewrite H1 in Hn.
  assert (Hrl : removelast (current w ++ [child; child])
                = current w ++ [child]).
  { change (current w ++ [child; child])
      with (current w ++ [child] ++ [child]).
    by rewrite app_assoc, removelast_last. }
  destruct r as [v|e|]; [|by rewrite Hp, Hn|done].
  destruct v; try (by rewrite Hp, Hn).
  intros Hlt Hwait. destruct Hp as [Hc Hs]. destruct (Hs Hlt) as (_ & _ & Hs').
  split; [by rewrite Hc|].
  intros s. rewrite Hs', current_settled, Hwait. simpl. by rewrite Hn.
Qed.

(** C1, witness: a callback that returns a pending promise, run in a group
    of the booted primary context.  When the call returns the child is on
    the stack twice; when the promise has settled, either way, once: the
    stack is one deeper than before the call. *)
Lemma withChild_stack_witness :
  let callback := fun _ : CtxId => p <- newPromise ;; ret (VPromise p) in
  let w' := snd (withChild 0 "group" callback booted_world) in
  current booted_world = [0] /\
  fst (withChild 0 "group" callback booted_world)
  = Ok (VPromise (PFinally (PCell 0))) /\
  current w' = [0; 1; 1] /\
  waiting w' (PCell 0) = [JPopCurrent 1] /\
  forall s, current (run_microtasks (settle 0 s w')) = [0; 1].
Proof.
  intros callback w'.
  pose proof (withChild_stack 0 "group" callback booted_world) as H.
  cbv zeta in H. destruct H as (_ & H2 & H3).
  change (fst (callback (length (contexts booted_world))
                 (pushCurrent (length (contexts booted_world))
                    (child_entry 0 "group" booted_world))))
    with (Ok (VPromise (PCell 0)) : Res JSVal) in H2, H3.
  cbv iota beta in H2, H3. fold w' in H2, H3.
  destruct H2 as [Hc Hs].
  destruct (Hs ltac:(vm_compute; lia)) as (_ & Hw & _).
  destruct (H3 eq_refl ltac:(vm_compute; lia) eq_refl) as [Hc' Hs'].
  split_and!; [reflexivity | reflexivity | exact Hc' | exact Hw | exact Hs'].
Defined.

(** C1, counterexample: with the primary context booted, a group leaves
    two entries on the stack where there was one, on each of the four exit
    paths: its callback returns, throws, or returns a promise that is then
    fulfilled, or rejected.  The child, not the parent, is the current
    context afterwards. *)
Lemma withChild_stack_counterexample :
  let returning := withChild 0 "group" (fun _ => ret VUndefined) booted_world in
  let throwing :=
    withChild 0 "group" (fun _ => throw (VError "boom")) booted_world in
  let deferring :=
    withChild 0 "group" (fun _ => p <- newPromise ;; ret (VPromise p))
      booted_world in
  let fulfilled :=
    run_microtasks (settle 0 (Fulfilled VUndefined) (snd deferring)) in
  let rejected :=
    run_microtasks (settle 0 (Rejected (VError "boom")) (snd deferring)) in
  length (current (snd returning)) <> length (current booted_world) /\
  length (current (snd throwing)) <> length (current booted_world) /\
  length (current fulfilled) <> length (current booted_world) /\
  length (current rejected) <> length (current booted_world) /\
  current booted_world = [0] /\
  current (snd returning) = [0; 1] /\
  current (snd throwing) = [0; 1] /\
  current fulfilled = [0; 1] /\
  current rejected = [0; 1] /\
  globalMix (snd returning) = Some 1.
Proof. repeat split; (discriminate || reflexivity). Qed.

(** * What a scoped call returns *)






(** * Group *)

(** C9.  Without a callback, [register] throws at once; the world is left
    exactly as it was: no context has been created, the parent's children
    are the same, nothing has been queued. *)
Theorem Group_register_without_callback (parent : CtxId) (name : string)
    (w : World) :
  let (r, w') := Group_register parent name None w in
  r = Throw (VError "A callback must be passed to mix.group()") /\
  w' = w /\
  ctx_children w' parent = ctx_children w parent /\
  length (contexts w') = length (contexts w) /\
  microtasks w' = microtasks w /\
  promises w' = promises w.
Proof. simpl. repeat split; reflexivity. Qed.

(** * The configurations that are built *)

Definition child_of (w : World) (p c : CtxId) : Prop := c ∈ ctx_children w p.

(** A context and everything below it. *)
Definition descendant (w : World) : relation CtxId := rtc (child_of w).

(** The shape of the heap that [withChild] builds: a child is created after
    its parent, it is in the [children] of one context only, and once. *)
Record heap_tree (w : World) : Prop := {
  tree_order : forall p c, child_of w p c -> p < c < length (contexts w);
  tree_parent : forall p1 p2 c, child_of w p1 c -> child_of w p2 c -> p1 = p2;
  tree_nodup : forall p, NoDup (ctx_children w p)
}.

Section Tree.
Variable w : World.
Hypothesis Htree : heap_tree w.

Lemma descendant_le a b : descendant w a b -> a <= b.
Proof.
  induction 1 as [|a c b Hac _ IH]; [lia|].
  apply (tree_order w Htree) in Hac. lia.
Qed.

Lemma descendant_comparable a b x :
  descendant w a x -> descendant w b x ->
  descendant w a b \/ descendant w b a.
Proof.
  intros Ha. revert b. pattern x. revert x Ha.
  apply rtc_ind_r; [by right|].
  intros y x Hay Hyx IH b Hb.
  apply rtc_inv_r in Hb as [->|(y' & Hby' & Hy'x)].
  - left. by eapply rtc_r.
  - rewrite (tree_parent w Htree _ _ _ Hy'x Hyx) in Hby'. by apply IH.
Qed.

Lemma siblings_apart p c1 c2 x :
  child_of w p c1 -> child_of w p c2 ->
  descendant w c1 x -> descendant w c2 x -> c1 = c2.
Proof.
  assert (Hone : forall a b, child_of w p a -> child_of w p b ->
                   descendant w a b -> a = b).
  { intros a b Ha Hb Hab.
    apply rtc_inv_r in Hab as [->|(y & Hay & Hyb)]; [done|].
    rewrite (tree_parent w Htree _ _ _ Hyb Hb) in Hay.
    apply descendant_le in Hay. apply (tree_order w Htree) in Ha. lia. }
  intros H1 H2 Hx1 Hx2.
  destruct (descendant_comparable _ _ _ Hx1 Hx2); [|symmetry]; by apply Hone.
Qed.

Lemma elem_of_buildConfigs fuel this x :
  this < length (contexts w) -> length (contexts w) - this <= fuel ->
  x ∈ buildConfigs fuel w this
  <-> descendant w this x /\ ctx_children w x = [].
Proof.
  revert this. induction fuel as [|fuel IH]; intros this Hthis Hfuel; [lia|].
  simpl. rewrite elem_of_app, list_elem_of_bind. split.
  - intros [Hx|(c & Hx & Hc)].
    + destruct (ctx_children w this) eqn:E; simpl in Hx; [|by inv Hx].
      apply list_elem_of_singleton in Hx as ->. by split.
    + pose proof (tree_order w Htree _ _ Hc).
      apply IH in Hx as [Hx Hleaf]; [|lia..].
      split; [|done]. by eapply rtc_l.
  - intros [Hx Hleaf].
    apply rtc_inv in Hx as [->|(c & Hc & Hx)].
    + left. rewrite Hleaf. simpl. by left.
    + right. exists c. split; [|done].
      pose proof (tree_order w Htree _ _ Hc). apply IH; [lia..|done].
Qed.

Lemma NoDup_buildConfigs fuel this :
  this < length (contexts w) -> length (contexts w) - this <= fuel ->
  NoDup (buildConfigs fuel w this).
Proof.
  revert this. induction fuel as [|fuel IH]; intros this Hthis Hfuel; [lia|].
  assert (Hb : buildConfigs (S fuel) w this
               = if decide (ctx_children w this = []) then [this]
                 else ctx_children w this ≫= buildConfigs fuel w).
  { simpl. by destruct (ctx_children w this). }
  rewrite Hb. case_decide; [apply NoDup_singleton|].
  assert (Hin : forall c, c ∈ ctx_children w this ->
                   c < length (contexts w) /\
                   length (contexts w) - c <= fuel).
  { intros c Hc. pose proof (tree_order w Htree _ _ Hc). lia. }
  apply NoDup_bind; [| |apply (tree_nodup w Htree)].
  - intros c1 c2 y H1 H2 Hy1 Hy2.
    apply elem_of_buildConfigs in Hy1 as [Hy1 _]; [|by apply Hin..].
    apply elem_of_buildConfigs in Hy2 as [Hy2 _]; [|by apply Hin..].
    by eapply siblings_apart.
  - intros c Hc. apply IH; by apply Hin.
Qed.
End Tree.

(** C4.  [buildConfigs] yields one build operation for each childless
    context at or below the one it is called on, and none for a context that
    has children; with two childless children that is exactly the two of
    them. *)
Theorem buildConfigs_leaves (w : World) (this : CtxId) (fuel : nat) :
  heap_tree w ->
  this < length (contexts w) ->
  length (contexts w) - this <= fuel ->
  NoDup (buildConfigs fuel w this) /\
  (forall x, x ∈ buildConfigs fuel w this
             <-> descendant w this x /\ ctx_children w x = []) /\
  (forall x, ctx_children w x <> [] -> x ∉ buildConfigs fuel w this) /\
  (forall a b, ctx_children w this = [a; b] ->
     ctx_children w a = [] -> ctx_children w b = [] ->
     buildConfigs fuel w this = [a; b]).
Proof.
  intros Htree Hthis Hfuel. split_and!.
  - by apply NoDup_buildConfigs.
  - intros x. by apply elem_of_buildConfigs.
  - intros x Hx Hin. apply elem_of_buildConfigs in Hin as [_ ?]; done.
  - intros a b Hch Ha Hb.
    assert (child_of w this a) as Hca by (unfold child_of; rewrite Hch; by left).
    apply (tree_order w Htree) in Hca.
    destruct fuel as [|[|fuel]]; [lia..|].
    simpl. rewrite Hch. simpl. by rewrite Ha, Hb.
Qed.

Lemma heap_tree_two_groups : heap_tree two_groups.
Proof.
  split.
  - intros p c H. unfold child_of in H.
    destruct p as [|[|[|p]]]; vm_compute in H;
      apply list_elem_of_In in H; simpl in H;
      [|tauto..]. destruct H as [<-|[<-|[]]]; vm_compute; lia.
  - intros p1 p2 c H1 H2. unfold child_of in H1, H2.
    destruct p1 as [|[|[|p1]]]; vm_compute in H1;
      apply list_elem_of_In in H1; simpl in H1; try tauto.
    destruct p2 as [|[|[|p2]]]; vm_compute in H2;
      apply list_elem_of_In in H2; simpl in H2; try tauto.
  - intros p. destruct p as [|[|[|p]]]; vm_compute;
      repeat constructor; rewrite list_elem_of_In; simpl; lia.
Qed.

(** C4, witness: the primary context with two groups builds the two
    groups' configurations and none of its own. *)
Lemma buildConfigs_leaves_witness :
  heap_tree two_groups /\
  0 < length (contexts two_groups) /\
  buildConfigs (length (contexts two_groups)) two_groups 0 = [1; 2].
Proof.
  split; [exact heap_tree_two_groups|]. split; [vm_compute; lia|].
  assert (H0 : 0 < length (contexts two_groups)) by (vm_compute; lia).
  assert (H1 : length (contexts two_groups) - 0
               <= length (contexts two_groups)) by lia.
  destruct (buildConfigs_leaves two_groups 0 _ heap_tree_two_groups H0 H1)
    as (_ & _ & _ & H).
  apply H; reflexivity.
Defined.

(** * Building without having booted *)

Lemma ctx_booted_boot this w :
  this < length (contexts w) -> ctx_booted (snd (boot this w)) this = true.
Proof.
  intros Hthis. apply lookup_lt_is_Some_2 in Hthis as [m Hm].
  unfold boot. destruct (ctx_booted w this) eqn:E; [exact E|].
  unfold ctx_booted, listen, upd_ctx. simpl.
  case_decide; destruct (sees _ _); simpl;
    rewrite !list_lookup_alter_eq, Hm; reflexivity.
Qed.

Lemma promises_run_jobs (js : list Job) (w : World) :
  promises (foldl (fun w' j => run_job j w') w js) = promises w.
Proof.
  revert w. induction js as [|[this] js IH]; intros w; [reflexivity|].
  simpl. rewrite IH. unfold popCurrent. simpl.
  by destruct (last (removelast (current w))).
Qed.

Lemma promises_run_microtasks w : promises (run_microtasks w) = promises w.
Proof. unfold run_microtasks. by rewrite promises_run_jobs. Qed.

(** The operations that [build] hands to [Promise.all] all succeed: the
    external builder is not what this development is about. *)
Lemma mapM_webpackConfig_build (ops : list CtxId) (w : World) :
  exists ps w',
    mapM webpackConfig_build ops w = (Ok ps, w') /\
    promises w `prefix_of` promises w' /\
    forall w'', promises w' `prefix_of` promises w'' ->
      all_results w'' ps = Ok (VConfig <$> ops).
Proof.
  revert w. induction ops as [|c ops IH]; intros w.
  { exists [], w. by repeat split. }
  set (w1 := snd (webpackConfig_build c w)).
  destruct (IH w1) as (ps & w' & Hm & Hpre & Hall).
  exists (VPromise (PCell (length (promises w))) :: ps), w'. split_and!.
  - simpl. erewrite bind_Ok by reflexivity. fold w1.
    erewrite bind_Ok by exact Hm. reflexivity.
  - etrans; [|exact Hpre]. by apply prefix_app_r.
  - intros w'' Hw''. simpl.
    assert (Hcell : promises w'' !! length (promises w)
                    = Some (mkCell (Some (Fulfilled (VConfig c))) [])).
    { eapply prefix_lookup_Some; [|etrans; [exact Hpre|exact Hw'']].
      simpl. by rewrite list_lookup_middle. }
    unfold promise_state. simpl. rewrite Hcell. simpl.
    by rewrite (Hall w'' Hw'').
Qed.

(** C8.  [build] on a context that was not booted warns, boots the context,
    and from there on is [build] on the booted context; the promise it
    returns is fulfilled with the configurations. *)
Theorem build_unbooted (this : CtxId) (w : World) :
  this < length (contexts w) ->
  ctx_booted w this = false ->
  let warned := emit (EvWarn warning) w in
  let booted_first := snd (boot this warned) in
  log warned = log w ++ [EvWarn warning] /\
  ctx_booted booted_first this = true /\
  build this w = build this booted_first /\
  exists p w' configs,
    build this w = (Ok (VPromise p), w') /\
    promise_state w' p = Some (Fulfilled (VArray configs)) /\
    configs = VConfig <$> buildConfigs (length (contexts booted_first))
                            booted_first this.
Proof.
  intros Hthis Hboot warned booted_first.
  assert (Hb : ctx_booted booted_first this = true)
    by (apply ctx_booted_boot; exact Hthis).
  assert (Hr : boot this warned = (Ok this, booted_first)).
  { unfold booted_first, boot. by destruct (ctx_booted warned this). }
  assert (Heq : build this w = build this booted_first).
  { unfold build, async. rewrite !bind_gets, Hboot, Hb. simpl negb. cbv iota.
    rewrite bind_ret.
    erewrite (bind_Ok (bind (exec (emit (EvWarn warning))) _));
      [reflexivity|].
    rewrite bind_exec. fold warned. erewrite bind_Ok by exact Hr.
    reflexivity. }
  split_and!; [reflexivity | exact Hb | exact Heq |].
  rewrite Heq. unfold build, async. rewrite bind_gets, Hb. simpl negb. cbv iota.
  rewrite bind_ret, bind_gets.
  set (ops := buildConfigs _ booted_first this).
  destruct (mapM_webpackConfig_build ops booted_first)
    as (ps & w1 & Hm & _ & Hall).
  erewrite bind_Ok by exact Hm. unfold awaitAll.
  rewrite Hall by (by rewrite promises_run_microtasks).
  eexists _, _, _. split_and!; [reflexivity| |reflexivity].
  unfold promise_state. simpl. by rewrite list_lookup_middle.
Qed.

(** C8, witness: building the primary context before it was booted. *)
Lemma build_unbooted_witness :
  0 < length (contexts unbooted_world) /\
  ctx_booted unbooted_world 0 = false /\
  build 0 unbooted_world
  = build 0 (snd (boot 0 (emit (EvWarn warning) unbooted_world))) /\
  log (snd (build 0 unbooted_world))
  = [EvWarn warning; EvDotenv; EvWebpackBuild 0].
Proof.
  assert (H0 : 0 < length (contexts unbooted_world)) by (vm_compute; lia).
  assert (H1 : ctx_booted unbooted_world 0 = false) by reflexivity.
  split; [exact H0|]. split; [exact H1|]. split; [|reflexivity].
  pose proof (build_unbooted 0 unbooted_world H0 H1) as H.
  simpl in H. destruct H as (_ & _ & H & _). exact H.
Defined.

(** * Verbs *)

(** What [install] publishes for a component that needs calling for and
    answers to the name derived from its constructor: the verb callable of
    that component, under that name. *)
Lemma install_publishes reg k w :
  reg < length (contexts w) ->
  nameHook k = None -> mixHook k = None -> passive k = false ->
  let name := lcfirst (ctorName k) in
  exists w',
    install reg (IClass k) w = (Ok (VApi reg), w') /\
    ctx_components w' reg !! name = Some (CVerb reg name (length (objects w))).
Proof.
  intros Hreg Hn Hm Hp name.
  apply lookup_lt_is_Some_2 in Hreg as [m Hmx].
  unfold install. erewrite bind_Ok by reflexivity.
  set (c := length (objects w)).
  set (w1 := set_objects _ w).
  assert (Ho : objects w1 !! c = Some (mkObj k false None)).
  { simpl. by rewrite list_lookup_middle. }
  assert (Hc1 : contexts w1 !! reg = Some m) by exact Hmx.
  clearbody w1.
  assert (Hr : register reg c name w1
               = (Ok tt, upd_ctx reg (set_components
                                        (<[name := CVerb reg name c]>)) w1)).
  { unfold register. rewrite bind_exec, bind_gets.
    unfold obj_passive at 1. simpl objects. rewrite Ho. simpl from_option.
    rewrite Hp. cbv iota. rewrite bind_ret.
    erewrite bind_Ok; cycle 1.
    { unfold componentMix. simpl objects. rewrite Ho. simpl. rewrite Hm.
      reflexivity. }
    reflexivity. }
  erewrite bind_Ok; cycle 1.
  { unfold registerComponent. erewrite bind_Ok; cycle 1.
    { unfold componentNames. rewrite Ho. simpl. rewrite Hn. reflexivity. }
    simpl forEach. fold name. erewrite bind_Ok by exact Hr. reflexivity. }
  rewrite !bind_exec. unfold ret. eexists. split; [reflexivity|].
  unfold ctx_components, listen. simpl.
  rewrite !list_lookup_alter_eq, Hc1. simpl. apply lookup_insert_eq.
Qed.

(** C6 (as amended).  Calling the verb callable that [registerComponent]
    made for a component under a name records the component under that
    name in the ledger, sets [caller] to the name and calls the [register]
    hook (when the component has one) with the very arguments of the call.
    When that hook returns, or there is none, [activated] is set and the
    call returns the API.  When the hook throws, the error comes out of
    the call and [activated] stays as it was; so too when the hook never
    returns. *)
Theorem verb_activates (reg : CtxId) (name : string) (c : CompId)
    (args : list JSVal) (w : World) (o : ComponentObj) :
  objects w !! c = Some o ->
  reg < length (contexts w) ->
  let registered :=
    if has (cls o) HkRegister then outcome (cls o) HkRegister args
    else Ok VUndefined in
  let (r, w') := call (CVerb reg name c) args w in
  ctx_ledger w' reg = ctx_ledger w reg ++ [(name, c)] /\
  obj_caller w' c = Some name /\
  log w' = log w ++ EvVerb reg name c args ::
             (if has (cls o) HkRegister then [EvHook c HkRegister args]
              else []) /\
  match registered with
  | Ok _ => r = Ok (VApi reg) /\ obj_activated w' c = true
  | Throw e => r = Throw e /\ obj_activated w' c = activated o
  | Stall => r = Stall /\ obj_activated w' c = activated o
  end.
Proof.
  intros Hc Hreg registered.
  apply lookup_lt_is_Some_2 in Hreg as [m Hm].
  unfold registered, call, verb, record. rewrite !bind_exec, bind_gets.
  unfold obj_has at 1. simpl. rewrite list_lookup_alter_eq, Hc. simpl.
  destruct (has (cls o) HkRegister) eqn:Hhas.
  - assert (Hh : callHook c HkRegister args
                   (upd_obj c (set_caller (Some name))
                      (upd_ctx reg
                         (set_ledger (fun l => l ++ [(name, c)]))
                         (emit (EvVerb reg name c args) w)))
                 = (outcome (cls o) HkRegister args,
                    emit (EvHook c HkRegister args)
                      (upd_obj c (set_caller (Some name))
                         (upd_ctx reg
                            (set_ledger (fun l => l ++ [(name, c)]))
                            (emit (EvVerb reg name c args) w))))).
    { unfold callHook. simpl. by rewrite list_lookup_alter_eq, Hc. }
    destruct (outcome (cls o) HkRegister args) as [v|e|].
    + erewrite bind_Ok by exact Hh. rewrite bind_exec. unfold ret.
      unfold ctx_ledger, obj_caller, obj_activated. simpl.
      rewrite !list_lookup_alter_eq, Hc, Hm. simpl.
      by rewrite <- app_assoc.
    + erewrite bind_Throw by exact Hh.
      unfold ctx_ledger, obj_caller, obj_activated. simpl.
      rewrite !list_lookup_alter_eq, Hc, Hm. simpl.
      by rewrite <- app_assoc.
    + erewrite bind_Stall by exact Hh.
      unfold ctx_ledger, obj_caller, obj_activated. simpl.
      rewrite !list_lookup_alter_eq, Hc, Hm. simpl.
      by rewrite <- app_assoc.
  - cbv iota. rewrite bind_ret, bind_exec. unfold ret.
    unfold ctx_ledger, obj_caller, obj_activated. simpl.
    rewrite !list_lookup_alter_eq, Hc, Hm. done.
Qed.

(** C6, witness: [mix.vue('3')] on the primary context. *)
Lemma verb_activates_witness :
  ctx_components installed_world 0 !! "vue" = Some (CVerb 0 "vue" 1) /\
  objects installed_world !! 1 = Some (mkObj Vue false None) /\
  0 < length (contexts installed_world) /\
  outcome Vue HkRegister [VStr "3"] = Ok VUndefined /\
  let (r, w') := call (CVerb 0 "vue" 1) [VStr "3"] installed_world in
  r = Ok (VApi 0) /\
  ctx_ledger w' 0 = ctx_ledger installed_world 0 ++ [("vue", 1)] /\
  obj_caller w' 1 = Some "vue" /\
  log w' = log installed_world ++
             [EvVerb 0 "vue" 1 [VStr "3"]; EvHook 1 HkRegister [VStr "3"]] /\
  obj_activated w' 1 = true.
Proof.
  assert (H1 : objects installed_world !! 1 = Some (mkObj Vue false None))
    by reflexivity.
  assert (H2 : 0 < length (contexts installed_world)) by (vm_compute; lia).
  split; [reflexivity|].
  split; [exact H1|]. split; [exact H2|]. split; [reflexivity|].
  pose proof (verb_activates 0 "vue" 1 [VStr "3"] installed_world _ H1 H2)
    as H.
  cbv zeta in H.
  destruct (call (CVerb 0 "vue" 1) [VStr "3"] installed_world) as [r w'].
  destruct H as (Hl & Hc & Hlog & Hr & Ha).
  split_and!; [exact Hr | exact Hl | exact Hc | exact Hlog | exact Ha].
Defined.

(** A component that has to be called for, and whose [register] hook
    rejects what it is called with. *)
Definition Picky : ComponentClass :=
  mkClass "Picky" None None false false
    (fun h => match h with HkRegister | HkBoot => true | _ => false end)
    (fun h _ => match h with
                | HkRegister => Throw (VError "bad arguments")
                | _ => Ok VUndefined
                end).

Definition picky_world : World :=
  snd (install 0 (IClass Picky) booted_world).

(** C6, counterexample: the verb callable of Picky is called as
    [mix.picky(1)].  The component is recorded and named as the caller,
    its [register] hook is called with the argument, and throws; the call
    throws, and the component is not activated. *)
Lemma verb_activates_counterexample :
  ctx_components picky_world 0 !! "picky" = Some (CVerb 0 "picky" 0) /\
  obj_activated picky_world 0 = false /\
  let (r, w') := call (CVerb 0 "picky" 0) [VNum 1] picky_world in
  r = Throw (VError "bad arguments") /\
  ctx_ledger w' 0 = [("picky", 0)] /\
  obj_caller w' 0 = Some "picky" /\
  log w' = log picky_world ++
             [EvVerb 0 "picky" 0 [VNum 1]; EvHook 0 HkRegister [VNum 1]] /\
  obj_activated w' 0 = false /\
  obj_activated w' 0 <> true.
Proof.
  split; [vm_compute; reflexivity|]. split; [reflexivity|].
  vm_compute. repeat split. discriminate.
Qed.

(** * Passive components *)

(** The calls of verb callables of component [c] in a stretch of the log:
    registrar, name and arguments of each. *)
Definition verb_calls (c : CompId) (l : list Event)
    : list (CtxId * string * list JSVal) :=
  omap (fun e => match e with
                 | EvVerb reg n c' args =>
                     if decide (c' = c) then Some (reg, n, args) else None
                 | _ => None
                 end) l.

Lemma verb_calls_app c l1 l2 :
  verb_calls c (l1 ++ l2) = verb_calls c l1 ++ verb_calls c l2.
Proof. apply omap_app. Qed.

(** The hooks that [install] calls without asking whether the component is
    activated all return. *)
Definition install_hooks_return (k : ComponentClass) : Prop :=
  forall h, h ∈ [HkName; HkMix; HkRegister] -> exists v, outcome k h [] = Ok v.

Definition is_instance (w : World) (c : CompId) (k : ComponentClass) : Prop :=
  exists o, objects w !! c = Some o /\ cls o = k.

Lemma callHook_Ok c h args w o v :
  objects w !! c = Some o -> outcome (cls o) h args = Ok v ->
  callHook c h args w = (Ok v, emit (EvHook c h args) w).
Proof. intros Ho Hv. unfold callHook. by rewrite Ho, Hv. Qed.

Lemma componentMix_effect c k w :
  is_instance w c k -> install_hooks_return k ->
  exists w' l,
    componentMix c w = (Ok (default [] (mixHook k)), w') /\
    objects w' = objects w /\
    log w' = log w ++ l /\ verb_calls c l = [].
Proof.
  intros (o & Ho & <-) Hret. unfold componentMix. rewrite Ho.
  destruct (mixHook (cls o)) as [keys|]; simpl.
  - destruct (Hret HkMix) as [v Hv]; [set_solver|].
    erewrite bind_Ok by (by eapply callHook_Ok).
    eexists _, [_]. by repeat split.
  - exists w, []. by rewrite app_nil_r.
Qed.

Lemma mix_keys_effect reg c k (keys : list string) w :
  is_instance w c k -> install_hooks_return k ->
  exists w' l,
    forEach keys (fun key =>
      componentMix c ;;;
      exec (upd_ctx reg (set_components (<[key := CRaw c key]>)))) w
    = (Ok tt, w') /\
    objects w' = objects w /\
    log w' = log w ++ l /\ verb_calls c l = [].
Proof.
  intros Hi Hret. revert w Hi.
  induction keys as [|key keys IH]; intros w Hi; simpl.
  { exists w, []. by rewrite app_nil_r. }
  destruct (componentMix_effect c k w Hi Hret) as (w1 & l1 & Hm & Ho1 & Hl1 & Hv1).
  erewrite bind_Ok; cycle 1.
  { erewrite bind_Ok by exact Hm. reflexivity. }
  set (w2 := upd_ctx reg _ w1).
  destruct (IH w2) as (w' & l2 & Hf & Ho2 & Hl2 & Hv2).
  { unfold is_instance. simpl. by rewrite Ho1. }
  exists w', (l1 ++ l2). rewrite Hf, Ho2, Hl2. simpl. rewrite Ho1, Hl1.
  rewrite verb_calls_app, Hv1, Hv2, app_assoc. done.
Qed.

Lemma verb_effect reg n c k w :
  is_instance w c k -> install_hooks_return k ->
  exists w' l,
    verb reg n c [] w = (Ok (VApi reg), w') /\
    is_instance w' c k /\ obj_activated w' c = true /\
    length (objects w') = length (objects w) /\
    log w' = log w ++ l /\ verb_calls c l = [(reg, n, [])].
Proof.
  intros (o & Ho & <-) Hret. unfold verb, record.
  rewrite !bind_exec, bind_gets.
  unfold obj_has at 1. simpl. rewrite list_lookup_alter_eq, Ho. simpl.
  destruct (Hret HkRegister) as [v Hv]; [set_solver|].
  destruct (has (cls o) HkRegister).
  - erewrite bind_Ok; cycle 1.
    { eapply callHook_Ok; simpl.
      - by rewrite list_lookup_alter_eq, Ho.
      - exact Hv. }
    rewrite bind_exec. unfold ret. eexists _, [_; _]. split_and!.
    + reflexivity.
    + eexists. simpl. rewrite !list_lookup_alter_eq, Ho. done.
    + unfold obj_activated. simpl. by rewrite !list_lookup_alter_eq, Ho.
    + simpl. by rewrite !length_alter.
    + simpl. by rewrite <- app_assoc.
    + simpl. by rewrite decide_True.
  - cbv iota. rewrite bind_ret, bind_exec. unfold ret.
    eexists _, [_]. split_and!.
    + reflexivity.
    + eexists. simpl. rewrite !list_lookup_alter_eq, Ho. done.
    + unfold obj_activated. simpl. by rewrite !list_lookup_alter_eq, Ho.
    + simpl. by rewrite !length_alter.
    + reflexivity.
    + simpl. by rewrite decide_True.
Qed.

Lemma register_effect reg c k n w :
  is_instance w c k -> passive k = true -> install_hooks_return k ->
  exists w' l,
    register reg c n w = (Ok tt, w') /\
    is_instance w' c k /\ obj_activated w' c = true /\
    length (objects w') = length (objects w) /\
    log w' = log w ++ l /\ verb_calls c l = [(reg, n, [])].
Proof.
  intros Hi Hp Hret. unfold register. rewrite bind_exec, bind_gets.
  set (w0 := upd_ctx reg _ w).
  assert (Hi0 : is_instance w0 c k) by exact Hi.
  assert (Hp0 : obj_passive w0 c = true).
  { destruct Hi0 as (o & Ho & <-). unfold obj_passive. by rewrite Ho. }
  rewrite Hp0.
  destruct (verb_effect reg n c k w0 Hi0 Hret)
    as (w1 & l1 & Hv & Hi1 & Ha1 & Hn1 & Hl1 & Hc1).
  erewrite bind_Ok by exact Hv.
  destruct (componentMix_effect c k w1 Hi1 Hret)
    as (w2 & l2 & Hm & Ho2 & Hl2 & Hc2).
  erewrite bind_Ok by exact Hm.
  destruct (mix_keys_effect reg c k (default [] (mixHook k)) w2)
    as (w3 & l3 & Hf & Ho3 & Hl3 & Hc3); [|exact Hret|].
  { unfold is_instance. by rewrite Ho2. }
  exists w3, (l1 ++ l2 ++ l3). rewrite Hf. split_and!.
  - reflexivity.
  - unfold is_instance. by rewrite Ho3, Ho2.
  - unfold obj_activated. by rewrite Ho3, Ho2.
  - by rewrite Ho3, Ho2.
  - rewrite Hl3, Hl2, Hl1. simpl. by rewrite <- !app_assoc.
  - by rewrite !verb_calls_app, Hc1, Hc2, Hc3.
Qed.

Lemma registerComponent_names reg c k (names : list string) w :
  is_instance w c k -> passive k = true -> install_hooks_return k ->
  exists w' l,
    forEach names (register reg c) w = (Ok tt, w') /\
    is_instance w' c k /\
    (names <> [] -> obj_activated w' c = true) /\
    length (objects w') = length (objects w) /\
    log w' = log w ++ l /\
    verb_calls c l = (fun n => (reg, n, [])) <$> names.
Proof.
  intros Hi Hp Hret. revert w Hi.
  induction names as [|n names IH]; intros w Hi; simpl.
  { exists w, []. by rewrite app_nil_r. }
  destruct (register_effect reg c k n w Hi Hp Hret)
    as (w1 & l1 & Hr & Hi1 & Ha1 & Hn1 & Hl1 & Hc1).
  erewrite bind_Ok by exact Hr.
  destruct (IH w1 Hi1) as (w2 & l2 & Hf & Hi2 & Ha2 & Hn2 & Hl2 & Hc2).
  exists w2, (l1 ++ l2). rewrite Hf. split_and!; try done.
  - intros _. destruct names as [|n' names]; [|by apply Ha2].
    simpl in Hf. injection Hf as <-. exact Ha1.
  - by rewrite Hn2.
  - by rewrite Hl2, Hl1, app_assoc.
  - by rewrite verb_calls_app, Hc1, Hc2.
Qed.

(** C7 (as amended).  Installing a passive component whose name, mix and
    register hooks return calls the verb callable of each name it is
    registered under once, with no arguments: exactly once for a component
    with the one name derived from its constructor, once per name when its
    [name] hook gives several, not at all when it gives none.  Nothing else
    calls a verb callable of it during the installation, and the component
    is activated when [install] returns if it has a name at all. *)
Theorem install_passive (reg : CtxId) (k : ComponentClass) (w : World) :
  passive k = true ->
  install_hooks_return k ->
  let c := length (objects w) in
  let names := default [lcfirst (ctorName k)] (nameHook k) in
  exists w' l,
    install reg (IClass k) w = (Ok (VApi reg), w') /\
    log w' = log w ++ l /\
    verb_calls c l = (fun n => (reg, n, [])) <$> names /\
    (names <> [] -> obj_activated w' c = true).
Proof.
  intros Hp Hret c names. unfold install.
  set (w1 := set_objects (fun l => l ++ [mkObj k false None]) w).
  assert (Ho1 : objects w1 !! c = Some (mkObj k false None)).
  { simpl. by rewrite list_lookup_middle. }
  erewrite bind_Ok by reflexivity. fold w1.
  assert (Hnames : exists w2 l2,
             componentNames c w1 = (Ok names, w2) /\
             objects w2 = objects w1 /\
             log w2 = log w ++ l2 /\ verb_calls c l2 = []).
  { unfold componentNames. rewrite Ho1. simpl. unfold names.
    destruct (nameHook k) as [ns|]; simpl.
    - destruct (Hret HkName) as [v Hv]; [set_solver|].
      erewrite bind_Ok by (by eapply callHook_Ok).
      eexists _, [_]. by repeat split.
    - exists w1, []. by rewrite app_nil_r. }
  destruct Hnames as (w2 & l2 & Hn & Ho2 & Hl2 & Hc2).
  destruct (registerComponent_names reg c k names w2)
    as (w3 & l3 & Hf & Hi3 & Ha3 & _ & Hl3 & Hc3); [|exact Hp|exact Hret|].
  { exists (mkObj k false None). by rewrite Ho2. }
  erewrite bind_Ok; cycle 1.
  { unfold registerComponent. erewrite bind_Ok by exact Hn. exact Hf. }
  rewrite !bind_exec. unfold ret.
  eexists _, (l2 ++ l3). split_and!.
  - reflexivity.
  - simpl. by rewrite Hl3, Hl2, app_assoc.
  - by rewrite verb_calls_app, Hc2, Hc3.
  - intros Hne. specialize (Ha3 Hne). unfold obj_activated in *. exact Ha3.
Qed.

(** C7, witness: installing Notifications on the booted primary context. *)
Lemma install_passive_witness :
  passive Notifications = true /\
  install_hooks_return Notifications /\
  exists w' l,
    install 0 (IClass Notifications) booted_world = (Ok (VApi 0), w') /\
    log w' = log booted_world ++ l /\
    verb_calls 0 l = [(0, "notifications", [])] /\
    obj_activated w' 0 = true.
Proof.
  assert (Hret : install_hooks_return Notifications)
    by (intros h _; exists VUndefined; reflexivity).
  split; [reflexivity|]. split; [exact Hret|].
  destruct (install_passive 0 Notifications booted_world eq_refl Hret)
    as (w' & l & Hi & Hl & Hv & Ha).
  exists w', l. split_and!; [exact Hi | exact Hl | exact Hv |].
  apply Ha. discriminate.
Defined.

(** A passive component whose [register] hook throws when called without
    arguments. *)
Definition Fragile : ComponentClass :=
  mkClass "Fragile" None None true false
    (fun h => match h with HkRegister | HkBoot => true | _ => false end)
    (fun h _ => match h with
                | HkRegister => Throw (VError "missing argument")
                | _ => Ok VUndefined
                end).

(** A passive component registered under two names, and one registered
    under none. *)
Definition Twins : ComponentClass :=
  mkClass "Twins" (Some ["js"; "ts"]) None true false
    (fun h => match h with HkName | HkBoot => true | _ => false end)
    (fun _ _ => Ok VUndefined).

Definition Nameless : ComponentClass :=
  mkClass "Nameless" (Some []) None true false
    (fun h => match h with HkName | HkBoot => true | _ => false end)
    (fun _ _ => Ok VUndefined).

(** C7, counterexample: three passive components installed on the booted
    primary context.  Twins, registered under two names, has its verb
    callable called twice, once under each name.  Nameless, registered
    under no name, has it called not at all and is not activated when
    [install] returns.  Fragile, whose [register] hook throws, has it
    called once, but [install] throws and the component is not
    activated. *)
Lemma install_passive_counterexample :
  let twins := install 0 (IClass Twins) booted_world in
  let nameless := install 0 (IClass Nameless) booted_world in
  let fragile := install 0 (IClass Fragile) booted_world in
  passive Twins = true /\ passive Nameless = true /\ passive Fragile = true /\
  fst twins = Ok (VApi 0) /\
  verb_calls 0 (log (snd twins)) = [(0, "js", []); (0, "ts", [])] /\
  length (verb_calls 0 (log (snd twins))) <> 1 /\
  fst nameless = Ok (VApi 0) /\
  verb_calls 0 (log (snd nameless)) = [] /\
  length (verb_calls 0 (log (snd nameless))) <> 1 /\
  obj_activated (snd nameless) 0 = false /\
  fst fragile = Throw (VError "missing argument") /\
  verb_calls 0 (log (snd fragile)) = [(0, "fragile", [])] /\
  obj_activated (snd fragile) 0 = false.
Proof. vm_compute. repeat split; discriminate. Qed.

(** * Initialisation *)

(** The firings in a stretch of the log: context and event of each. *)
Definition fired (l : list Event) : list (CtxId * string) :=
  omap (fun e => match e with
                 | EvFire ctx event _ => Some (ctx, event)
                 | _ => None
                 end) l.

(** [tree_fired w0 x w]: from [w0] to [w] the [children] and [initialized]
    fields of all contexts have stayed as they were, and the firings [x]
    have been added to the log. *)
Definition tree_fired (w0 : World) (x : list (CtxId * string)) (w : World)
    : Prop :=
  children <$> contexts w = children <$> contexts w0 /\
  initialized <$> contexts w = initialized <$> contexts w0 /\
  fired (log w) = fired (log w0) ++ x.

Lemma tree_fired_refl w : tree_fired w [] w.
Proof. unfold tree_fired. by rewrite app_nil_r. Qed.

Lemma tree_fired_trans w0 x w1 y w2 :
  tree_fired w0 x w1 -> tree_fired w1 y w2 -> tree_fired w0 (x ++ y) w2.
Proof.
  intros (H1 & H2 & H3) (H4 & H5 & H6). split_and!; [congruence..|].
  by rewrite H6, H3, app_assoc.
Qed.

Lemma tree_fired_quiet w0 x w1 w2 :
  tree_fired w0 x w1 -> tree_fired w1 [] w2 -> tree_fired w0 x w2.
Proof.
  intros H1 H2. rewrite <- (app_nil_r x). by eapply tree_fired_trans.
Qed.

Lemma tree_fired_children w0 x w i :
  tree_fired w0 x w -> ctx_children w i = ctx_children w0 i.
Proof.
  intros (H & _ & _). unfold ctx_children.
  apply (f_equal (fun l => l !! i)) in H. rewrite !list_lookup_fmap in H.
  destruct (contexts w !! i), (contexts w0 !! i); simpl in *; congruence.
Qed.

Lemma tree_fired_initialized w0 x w i :
  tree_fired w0 x w -> ctx_initialized w i = ctx_initialized w0 i.
Proof.
  intros (_ & H & _). unfold ctx_initialized.
  apply (f_equal (fun l => l !! i)) in H. rewrite !list_lookup_fmap in H.
  destruct (contexts w !! i), (contexts w0 !! i); simpl in *; congruence.
Qed.

(** A call is quiet when it fires nothing and leaves the tree alone. *)
Definition quiet {A} (m : M A) : Prop :=
  forall w0 x, hoare (tree_fired w0 x) m (tree_fired w0 x).

Lemma quiet_intro {A} (m : M A) :
  (forall w, tree_fired w [] (snd (m w))) -> quiet m.
Proof.
  intros H w0 x w Hw. eapply tree_fired_quiet; [exact Hw | apply H].
Qed.

Lemma quiet_elim {A} (m : M A) w : quiet m -> tree_fired w [] (snd (m w)).
Proof. intros H. apply H, tree_fired_refl. Qed.

Lemma quiet_ret {A} (a : A) : quiet (ret a).
Proof. intros w0 x. apply hoare_ret. Qed.

Lemma quiet_bind {A B} (m : M A) (k : A -> M B) :
  quiet m -> (forall a, quiet (k a)) -> quiet (bind m k).
Proof.
  intros Hm Hk w0 x. eapply hoare_bind; [apply Hm | auto | intros a; apply Hk].
Qed.

Lemma quiet_gets {A B} (f : World -> A) (k : A -> M B) :
  (forall a, quiet (k a)) -> quiet (bind (gets f) k).
Proof.
  intros Hk w0 x. apply hoare_gets. intros a.
  eapply hoare_conseq; [| |apply (Hk a w0 x)]; simpl; tauto.
Qed.

Lemma fmap_alter_same {A B} (g : A -> B) (f : A -> A) (i : nat) (l : list A) :
  (forall a, g (f a) = g a) -> g <$> alter f i l = g <$> l.
Proof.
  intros H. revert i. induction l as [|a l IH]; intros [|i]; simpl; try done.
  - by rewrite H.
  - f_equal. apply IH.
Qed.

(** A state change is quiet when it keeps the two fields and logs no
    firing. *)
Definition quiet_change (f : World -> World) : Prop :=
  forall w, tree_fired w [] (f w).

Lemma quiet_exec f : quiet_change f -> quiet (exec f).
Proof. intros H. apply quiet_intro. exact H. Qed.

Lemma quiet_change_upd_ctx i f :
  (forall m, children (f m) = children m) ->
  (forall m, initialized (f m) = initialized m) ->
  quiet_change (upd_ctx i f).
Proof.
  intros H1 H2 w. unfold tree_fired. simpl.
  rewrite !fmap_alter_same by done. by rewrite app_nil_r.
Qed.

Lemma quiet_change_emit e :
  (forall ctx event d, e <> EvFire ctx event d) -> quiet_change (emit e).
Proof.
  intros H w. unfold tree_fired, fired. simpl. rewrite omap_app. simpl.
  split_and!; try done. destruct e; try done. by destruct (H ctx event data).
Qed.

Lemma quiet_change_popCurrent this : quiet_change (popCurrent this).
Proof.
  intros w. unfold popCurrent, tree_fired. simpl.
  destruct (last (removelast (current w))); simpl; by rewrite app_nil_r.
Qed.

Lemma quiet_change_pushCurrent this : quiet_change (pushCurrent this).
Proof. intros w. unfold tree_fired. simpl. by rewrite app_nil_r. Qed.

Lemma quiet_change_run_microtasks : quiet_change run_microtasks.
Proof.
  intros w. unfold run_microtasks.
  assert (H : forall js w1, tree_fired w1 []
                (foldl (fun w' j => run_job j w') w1 js)).
  { induction js as [|[this] js IH]; intros w1; [apply tree_fired_refl|].
    simpl.
    eapply tree_fired_quiet; [apply quiet_change_popCurrent | apply IH]. }
  eapply tree_fired_quiet; [|apply H].
  unfold tree_fired. simpl. by rewrite app_nil_r.
Qed.

Lemma quiet_await v : quiet (await v).
Proof.
  apply quiet_intro. intros w. unfold await.
  destruct v; try apply quiet_change_run_microtasks.
  destruct (promise_state (run_microtasks w) p) as [[r|e]|];
    apply quiet_change_run_microtasks.
Qed.

Lemma quiet_callHook c h args : quiet (callHook c h args).
Proof.
  apply quiet_intro. intros w. unfold callHook.
  destruct (objects w !! c); [|apply tree_fired_refl].
  by apply quiet_change_emit.
Qed.

Lemma quiet_forEach {A} (l : list A) (f : A -> M unit) :
  (forall x, quiet (f x)) -> quiet (forEach l f).
Proof. intros H w0 x. apply hoare_forEach. intros a _. apply H. Qed.

Lemma quiet_listen reg event h : quiet (exec (listen reg event h)).
Proof. apply quiet_exec. by apply quiet_change_upd_ctx. Qed.

Ltac quiet_step :=
  first
    [ apply quiet_ret
    | apply quiet_await
    | apply quiet_callHook
    | apply quiet_listen
    | apply quiet_exec; first [ by apply quiet_change_emit
                              | by apply quiet_change_upd_ctx ]
    | apply quiet_gets; intros ?
    | apply quiet_bind; [|intros ?]
    | match goal with |- quiet (if ?b then _ else _) => destruct b end ].

Lemma quiet_run_handler h data : quiet (run_handler h data).
Proof.
  destruct h; simpl; unfold eligible, applyBabelConfig, applyRules,
    applyPlugins; repeat quiet_step.
Qed.

Lemma tree_fired_alloc w0 x c w :
  tree_fired w0 x w -> tree_fired w0 x (snd (alloc_promise c w)).
Proof. exact id. Qed.

Lemma hoare_whileCurrent P Q R this (callback : CtxId -> M JSVal) :
  (forall w, P w -> Q (pushCurrent this w)) ->
  hoare Q (callback this) R ->
  (forall w, R w -> R (popCurrent this w)) ->
  (forall p j w, R w -> R (snd (promise_finally p j w))) ->
  hoare P (whileCurrent this callback) R.
Proof.
  intros Hpush Hcb Hpop Hfin w Hw. unfold whileCurrent.
  specialize (Hcb _ (Hpush w Hw)).
  destruct (callback this (pushCurrent this w)) as [[v|e|] w2]; simpl in *;
    auto.
  destruct v; simpl; auto.
  specialize (Hfin p (JPopCurrent this) w2 Hcb).
  destruct (promise_finally p (JPopCurrent this) w2) as [[q|e|] w3];
    simpl in *; auto.
Qed.

Lemma tree_fired_finally w0 x p j w :
  tree_fired w0 x w -> tree_fired w0 x (snd (promise_finally p j w)).
Proof.
  intros H. unfold promise_finally.
  by destruct (promises w !! root p) as [[[s|] rs]|].
Qed.

Lemma hoare_fire w0 x this event data :
  hoare (tree_fired w0 x) (fire this event data)
    (tree_fired w0 (x ++ [(this, event)])).
Proof.
  unfold fire. apply hoare_async; [|intros c w; apply tree_fired_alloc].
  eapply hoare_bind with (Q := tree_fired w0 (x ++ [(this, event)]));
    [|auto|].
  - apply hoare_exec. intros w (H1 & H2 & H3). split_and!; try done.
    simpl. unfold fired in *. rewrite omap_app, H3. simpl.
    by rewrite app_assoc.
  - intros _. apply quiet_gets. intros hs. apply quiet_bind.
    + apply quiet_forEach. intros h.
      repeat first [apply quiet_run_handler | quiet_step].
    + intros _. apply quiet_ret.
Qed.

Lemma hoare_dispatch w0 x this event v :
  hoare (tree_fired w0 x) (dispatch this event (DVal v))
    (tree_fired w0 (x ++ [(this, event)])).
Proof.
  unfold dispatch. apply hoare_async; [|intros c w; apply tree_fired_alloc].
  eapply hoare_whileCurrent with (Q := tree_fired w0 x).
  - intros w Hw. eapply tree_fired_quiet; [exact Hw|].
    apply quiet_change_pushCurrent.
  - intros w Hw. rewrite bind_ret. by apply hoare_fire.
  - intros w Hw. eapply tree_fired_quiet; [exact Hw|].
    apply quiet_change_popCurrent.
  - intros p j w. apply tree_fired_finally.
Qed.

Lemma async_returns (body : M JSVal) w :
  exists p, fst (async body w) = Ok (VPromise p).
Proof.
  unfold async. destruct (body w) as [[v|e|] w']; simpl; eauto.
  destruct v; simpl; eauto.
Qed.

Lemma dispatch_effect this event v w :
  exists p w',
    dispatch this event (DVal v) w = (Ok (VPromise p), w') /\
    tree_fired w [(this, event)] w'.
Proof.
  assert (exists p, fst (dispatch this event (DVal v) w) = Ok (VPromise p))
    as [p Hp] by (unfold dispatch; apply async_returns).
  pose proof (hoare_dispatch w [] this event v w (tree_fired_refl w)) as Hd.
  destruct (dispatch this event (DVal v) w) as [r w']. simpl in *. subst r.
  by exists p, w'.
Qed.

Lemma mapM_dispatch event v (cs : list CtxId) w :
  exists ps w',
    mapM (fun child => dispatch child event (DVal v)) cs w = (Ok ps, w') /\
    tree_fired w ((fun c => (c, event)) <$> cs) w'.
Proof.
  revert w. induction cs as [|c cs IH]; intros w; simpl.
  { exists [], w. split; [done | apply tree_fired_refl]. }
  destruct (dispatch_effect c event v w) as (p & w1 & Hd & Ht1).
  destruct (IH w1) as (ps & w' & Hm & Ht).
  exists (VPromise p :: ps), w'. split.
  - erewrite bind_Ok by exact Hd. erewrite bind_Ok by exact Hm. done.
  - eapply (tree_fired_trans _ [_]); [exact Ht1 | exact Ht].
Qed.

Lemma await_state v w : snd (await v w) = run_microtasks w.
Proof.
  unfold await. destruct v; try reflexivity.
  by destruct (promise_state (run_microtasks w) p) as [[r|e]|].
Qed.

Lemma tree_fired_await w0 x v w :
  tree_fired w0 x w -> tree_fired w0 x (snd (await v w)).
Proof.
  intros H. rewrite await_state.
  eapply tree_fired_quiet; [exact H | apply quiet_change_run_microtasks].
Qed.

Lemma dispatchToChildren_effect this event v w :
  exists p w',
    dispatchToChildren this event (DVal v) w = (Ok (VPromise p), w') /\
    tree_fired w ((fun c => (c, event)) <$> ctx_children w this) w'.
Proof.
  unfold dispatchToChildren, async. rewrite bind_gets.
  destruct (mapM_dispatch event v (ctx_children w this) w)
    as (ps & w1 & Hm & Ht).
  erewrite bind_Ok by exact Hm. unfold awaitAll.
  assert (Ht' : tree_fired w ((fun c => (c, event)) <$> ctx_children w this)
                  (run_microtasks w1)).
  { eapply tree_fired_quiet; [exact Ht | apply quiet_change_run_microtasks]. }
  destruct (all_results (run_microtasks w1) ps) as [rs|e|]; simpl; eauto.
Qed.

(** What [async] makes of the completion of its body. *)
Lemma async_state (body : M JSVal) w r w1 :
  body w = (r, w1) ->
  (forall p, r <> Ok (VPromise p)) ->
  exists w',
    async body w = (Ok (VPromise (PCell (length (promises w1)))), w') /\
    contexts w' = contexts w1 /\ log w' = log w1 /\ current w' = current w1 /\
    promise_state w' (PCell (length (promises w1)))
    = match r with
      | Ok v => Some (Fulfilled v)
      | Throw e => Some (Rejected e)
      | Stall => None
      end.
Proof.
  intros Hb Hr. unfold async. rewrite Hb.
  destruct r as [v|e|].
  - destruct v; try (by destruct (Hr p));
      (eexists; split_and!; [reflexivity..|];
       unfold promise_state; simpl; by rewrite list_lookup_middle).
  - eexists; split_and!; [reflexivity..|].
    unfold promise_state; simpl; by rewrite list_lookup_middle.
  - eexists; split_and!; [reflexivity..|].
    unfold promise_state; simpl; by rewrite list_lookup_middle.
Qed.

Lemma ctx_children_upd_ctx i f w j :
  (forall m, children (f m) = children m) ->
  ctx_children (upd_ctx i f w) j = ctx_children w j.
Proof.
  intros H. unfold ctx_children. simpl.
  destruct (decide (i = j)) as [->|Hne].
  - rewrite list_lookup_alter_eq. destruct (contexts w !! j); simpl; auto.
  - by rewrite list_lookup_alter_ne.
Qed.

(** The body of [init] on a context that is not initialized yet. *)
Lemma init_body this w :
  this < length (contexts w) ->
  let body :=
    (exec (upd_ctx this (set_initialized true)) ;;;
     p1 <- dispatch this "init" (DVal (VMix this)) ;;
     await p1 ;;;
     p2 <- dispatchToChildren this "init" (DVal (VMix this)) ;;
     await p2 ;;;
     ret VUndefined) in
  exists r w1 rest,
    body w = (r, w1) /\
    (forall p, r <> Ok (VPromise p)) /\
    ctx_initialized w1 this = true /\
    (forall i, ctx_children w1 i = ctx_children w i) /\
    fired (log w1) = fired (log w) ++ (this, "init") :: rest /\
    (rest = [] \/ rest = (fun c => (c, "init")) <$> ctx_children w this) /\
    (forall v, r = Ok v ->
       rest = (fun c => (c, "init")) <$> ctx_children w this).
Proof.
  intros Hthis body. unfold body. rewrite bind_exec.
  set (w1 := upd_ctx this (set_initialized true) w).
  assert (Hi1 : ctx_initialized w1 this = true).
  { apply lookup_lt_is_Some_2 in Hthis as [m Hm].
    unfold ctx_initialized, w1. simpl. by rewrite list_lookup_alter_eq, Hm. }
  assert (Hc1 : forall i, ctx_children w1 i = ctx_children w i).
  { intros i. by apply ctx_children_upd_ctx. }
  assert (Hl1 : log w1 = log w) by reflexivity.
  destruct (dispatch_effect this "init" (VMix this) w1)
    as (p1 & w2 & Hd & Ht2).
  erewrite bind_Ok by exact Hd.
  pose proof (tree_fired_await _ _ (VPromise p1) _ Ht2) as Ht3.
  destruct (await (VPromise p1) w2) as [r3 w3] eqn:Ha. simpl in Ht3.
  assert (Hc3 : forall i, ctx_children w3 i = ctx_children w i).
  { intros i. rewrite <- Hc1. by eapply tree_fired_children. }
  destruct r3 as [v3|e3|].
  - erewrite bind_Ok by exact Ha.
    destruct (dispatchToChildren_effect this "init" (VMix this) w3)
      as (p2 & w4 & Hd4 & Ht4).
    erewrite bind_Ok by exact Hd4. rewrite Hc3 in Ht4.
    pose proof (tree_fired_trans _ _ _ _ _ Ht3 Ht4) as Ht4'.
    pose proof (tree_fired_await _ _ (VPromise p2) _ Ht4') as Ht5.
    destruct (await (VPromise p2) w4) as [r5 w5] eqn:Ha5. simpl in Ht5.
    exists (match r5 with Ok _ => Ok VUndefined | Throw e => Throw e
                     | Stall => Stall end), w5,
      ((fun c => (c, "init")) <$> ctx_children w this).
    split_and!.
    + unfold bind. rewrite Ha5. by destruct r5.
    + intros p. by destruct r5.
    + erewrite tree_fired_initialized by exact Ht5. exact Hi1.
    + intros i. rewrite <- Hc1. by eapply tree_fired_children.
    + destruct Ht5 as (_ & _ & ->). by rewrite Hl1.
    + by right.
    + done.
  - exists (Throw e3), w3, []. split_and!.
    + by erewrite bind_Throw by exact Ha.
    + done.
    + erewrite tree_fired_initialized by exact Ht3. exact Hi1.
    + exact Hc3.
    + destruct Ht3 as (_ & _ & ->). by rewrite Hl1.
    + by left.
    + done.
  - exists Stall, w3, []. split_and!.
    + by erewrite bind_Stall by exact Ha.
    + done.
    + erewrite tree_fired_initialized by exact Ht3. exact Hi1.
    + exact Hc3.
    + destruct Ht3 as (_ & _ & ->). by rewrite Hl1.
    + by left.
    + done.
Qed.

(** The two awaited rounds of [init] and [installDependencies], taken
    apart: the event on the context itself, then, that having succeeded,
    the event on the children, then, that having succeeded too, the
    rest. *)
Lemma rounds_split this event v (k : M JSVal) w :
  let own := (p1 <- dispatch this event (DVal v) ;; await p1) w in
  let below := (p2 <- dispatchToChildren this event (DVal v) ;; await p2)
                 (snd own) in
  (p1 <- dispatch this event (DVal v) ;;
   await p1 ;;;
   p2 <- dispatchToChildren this event (DVal v) ;;
   await p2 ;;;
   k) w
  = match fst own with
    | Ok _ =>
        match fst below with
        | Ok _ => k (snd below)
        | Throw e => (Throw e, snd below)
        | Stall => (Stall, snd below)
        end
    | Throw e => (Throw e, snd own)
    | Stall => (Stall, snd own)
    end.
Proof.
  unfold bind.
  destruct (dispatch this event (DVal v) w) as [[a|e|] wa]; simpl; try done.
  destruct (await a wa) as [[b|e|] wb]; simpl; try done.
  destruct (dispatchToChildren this event (DVal v) wb) as [[c|e|] wc]; simpl;
    try done.
  by destruct (await c wc) as [[d|e|] wd].
Qed.

Lemma own_round_fired this event v w :
  tree_fired w [(this, event)]
    (snd ((p1 <- dispatch this event (DVal v) ;; await p1) w)).
Proof.
  destruct (dispatch_effect this event v w) as (p1 & w2 & Hd & Ht).
  erewrite bind_Ok by exact Hd. by apply tree_fired_await.
Qed.

Lemma children_round_fired this event v w :
  tree_fired w ((fun c => (c, event)) <$> ctx_children w this)
    (snd ((p2 <- dispatchToChildren this event (DVal v) ;; await p2) w)).
Proof.
  destruct (dispatchToChildren_effect this event v w) as (p2 & w2 & Hd & Ht).
  erewrite bind_Ok by exact Hd. by apply tree_fired_await.
Qed.

(** C5.  [init] on an initialized context does nothing (but return a
    fulfilled promise).  Otherwise it marks the context initialized and
    fires [init] on the context itself; when that firing has succeeded, and
    only then, it fires [init] on each of the context's own children, in
    order, whatever the handlers of the children do.  It fires on no other
    context: a child's children are not reached.  The promise of [init] is
    fulfilled when both rounds have succeeded, so after the firings on the
    children; it is rejected with the error of the round that failed, and
    stays pending when a round never finishes. *)
Theorem init_fires (this : CtxId) (w : World) :
  this < length (contexts w) ->
  exists p w',
    init this w = (Ok (VPromise p), w') /\
    if ctx_initialized w this then
      contexts w' = contexts w /\ log w' = log w /\ current w' = current w /\
      promise_state w' p = Some (Fulfilled VUndefined)
    else
      let own := (p1 <- dispatch this "init" (DVal (VMix this)) ;; await p1)
                   (upd_ctx this (set_initialized true) w) in
      let below := (p2 <- dispatchToChildren this "init" (DVal (VMix this)) ;;
                    await p2) (snd own) in
      ctx_initialized w' this = true /\
      exists rest,
        fired (log w') = fired (log w) ++ (this, "init") :: rest /\
        rest = match fst own with
               | Ok _ => (fun c => (c, "init")) <$> ctx_children w this
               | _ => []
               end /\
        (rest = [] \/ rest = (fun c => (c, "init")) <$> ctx_children w this) /\
        (forall c e, (c, e) ∈ (this, "init") :: rest ->
           e = "init" /\ (c = this \/ child_of w this c)) /\
        promise_state w' p
        = match fst own with
          | Ok _ =>
              match fst below with
              | Ok _ => Some (Fulfilled VUndefined)
              | Throw e => Some (Rejected e)
              | Stall => None
              end
          | Throw e => Some (Rejected e)
          | Stall => None
          end /\
        (forall v, promise_state w' p = Some (Fulfilled v) ->
           rest = (fun c => (c, "init")) <$> ctx_children w this).
Proof.
  intros Hthis. unfold init.
  set (body := i <- gets (fun w => ctx_initialized w this) ;;
               if i then ret VUndefined
               else exec (upd_ctx this (set_initialized true)) ;;;
                    p1 <- dispatch this "init" (DVal (VMix this)) ;;
                    await p1 ;;;
                    p2 <- dispatchToChildren this "init"
                            (DVal (VMix this)) ;;
                    await p2 ;;;
                    ret VUndefined).
  destruct (ctx_initialized w this) eqn:Hi.
  { destruct (async_state body w (Ok VUndefined) w)
      as (w' & Ha & Hc & Hl & Hcur & Hp); [|done|].
    { unfold body. by rewrite bind_gets, Hi. }
    by exists (PCell (length (promises w))), w'. }
  set (w0 := upd_ctx this (set_initialized true) w).
  set (own := (p1 <- dispatch this "init" (DVal (VMix this)) ;; await p1) w0).
  set (below := (p2 <- dispatchToChildren this "init" (DVal (VMix this)) ;;
                 await p2) (snd own)).
  set (kids := (fun c => (c, "init")) <$> ctx_children w this).
  assert (Hi0 : ctx_initialized w0 this = true).
  { apply lookup_lt_is_Some_2 in Hthis as [m Hm].
    unfold ctx_initialized, w0. simpl. by rewrite list_lookup_alter_eq, Hm. }
  assert (Hc0 : forall i, ctx_children w0 i = ctx_children w i)
    by (intros i; by apply ctx_children_upd_ctx).
  pose proof (own_round_fired this "init" (VMix this) w0) as Hown.
  fold own in Hown.
  pose proof (children_round_fired this "init" (VMix this) (snd own))
    as Hbelow.
  fold below in Hbelow.
  rewrite (tree_fired_children _ _ _ this Hown), Hc0 in Hbelow.
  fold kids in Hbelow.
  pose proof (tree_fired_trans _ _ _ _ _ Hown Hbelow) as Hboth.
  set (rest := match fst own with Ok _ => kids | _ => [] end).
  assert (Hb : exists r wb,
             body w = (r, wb) /\ (forall q, r <> Ok (VPromise q)) /\
             tree_fired w0 ((this, "init") :: rest) wb /\
             match r with
             | Ok x => Some (Fulfilled x)
             | Throw e => Some (Rejected e)
             | Stall => None
             end
             = match fst own with
               | Ok _ =>
                   match fst below with
                   | Ok _ => Some (Fulfilled VUndefined)
                   | Throw e => Some (Rejected e)
                   | Stall => None
                   end
               | Throw e => Some (Rejected e)
               | Stall => None
               end).
  { unfold body. rewrite bind_gets, Hi, bind_exec. fold w0.
    rewrite rounds_split. fold own. fold below. unfold rest.
    destruct (fst own) as [x|e|].
    - destruct (fst below) as [y|e|]; eexists _, _;
        (split; [reflexivity|]); split_and!; done.
    - eexists _, _. split; [reflexivity|]. split_and!; done.
    - eexists _, _. split; [reflexivity|]. split_and!; done. }
  destruct Hb as (r & wb & Hb & Hr & Ht & Hstate).
  destruct (async_state body w r wb Hb Hr) as (w' & Ha & Hc & Hl & _ & Hp).
  exists (PCell (length (promises wb))), w'. split; [exact Ha|].
  cbv zeta. fold w0. fold own. fold below. fold kids. split.
  { unfold ctx_initialized in *. rewrite Hc.
    fold (ctx_initialized wb this).
    by rewrite (tree_fired_initialized _ _ _ this Ht). }
  exists rest. split_and!.
  - rewrite Hl. by destruct Ht as (_ & _ & ->).
  - reflexivity.
  - unfold rest. destruct (fst own); auto.
  - intros c e Hin. apply elem_of_cons in Hin as [Heq|Hin].
    { injection Heq as -> ->. auto. }
    unfold rest in Hin. destruct (fst own); try (by inv Hin).
    apply list_elem_of_fmap in Hin as (c' & Heq & Hc').
    injection Heq as -> ->. split; [done|]. by right.
  - by rewrite Hp, Hstate.
  - intros v Hv. rewrite Hp, Hstate in Hv. unfold rest.
    by destruct (fst own).
Qed.

(** A passive component whose [boot] hook throws. *)
Definition Broken : ComponentClass :=
  mkClass "Broken" None None true false
    (fun h => match h with HkBoot => true | _ => false end)
    (fun h _ => match h with
                | HkBoot => Throw (VError "cannot boot")
                | _ => Ok VUndefined
                end).

(** Two groups on the booted primary context; Broken is installed in the
    first. *)
Definition broken_groups : World :=
  run_ops [OpPrimary; OpBoot 0;
           OpGroup 0 "a" [OpInstall 1 (IClass Broken)]; OpGroup 0 "b" []]
    world0.

(** C5, witness: initialising the primary context of [two_groups] fires
    [init] on it and on the two groups, and the promise is fulfilled.  In
    [broken_groups] the first group fails to initialise: the second gets
    its firing all the same, and the promise of [init] is rejected. *)
Lemma init_fires_witness :
  0 < length (contexts two_groups) /\
  ctx_initialized two_groups 0 = false /\
  (exists p w',
     init 0 two_groups = (Ok (VPromise p), w') /\
     ctx_initialized w' 0 = true /\
     fired (log w')
     = fired (log two_groups) ++ [(0, "init"); (1, "init"); (2, "init")] /\
     promise_state w' p = Some (Fulfilled VUndefined)) /\
  0 < length (contexts broken_groups) /\
  exists p w',
    init 0 broken_groups = (Ok (VPromise p), w') /\
    fired (log w')
    = fired (log broken_groups) ++ [(0, "init"); (1, "init"); (2, "init")] /\
    promise_state w' p = Some (Rejected (VError "cannot boot")).
Proof.
  assert (H0 : 0 < length (contexts two_groups)) by (vm_compute; lia).
  assert (H1 : ctx_initialized two_groups 0 = false) by reflexivity.
  assert (H2 : 0 < length (contexts broken_groups)) by (vm_compute; lia).
  split; [exact H0|]. split; [exact H1|]. split; [|split; [exact H2|]].
  - destruct (init_fires 0 two_groups H0) as (p & w' & Hi & H).
    rewrite H1 in H. cbv zeta in H.
    destruct H as (Ht & rest & Hf & Hrest & _ & _ & Hp & _).
    exists p, w'. split_and!; [exact Hi | exact Ht | |].
    + rewrite Hf, Hrest. vm_compute. reflexivity.
    + rewrite Hp. vm_compute. reflexivity.
  - destruct (init_fires 0 broken_groups H2) as (p & w' & Hi & H).
    change (ctx_initialized broken_groups 0) with false in H. cbv zeta in H.
    destruct H as (Ht & rest & Hf & Hrest & _ & _ & Hp & _).
    exists p, w'. split_and!; [exact Hi | |].
    + rewrite Hf, Hrest. vm_compute. reflexivity.
    + rewrite Hp. vm_compute. reflexivity.
Defined.

(** C5, counterexample: the inner group is a descendant of the primary
    context, and [init] on the primary context, though it succeeds, fires
    [init] on the primary context and on the outer group only. *)
Lemma init_fires_counterexample :
  descendant nested_groups 0 2 /\
  ctx_initialized nested_groups 0 = false /\
  fst (init 0 nested_groups) = Ok (VPromise (PCell 3)) /\
  promise_state (snd (init 0 nested_groups)) (PCell 3)
  = Some (Fulfilled VUndefined) /\
  fired (log (snd (init 0 nested_groups))) = [(0, "init"); (1, "init")] /\
  (2, "init") ∉ fired (log (snd (init 0 nested_groups))).
Proof.
  split_and!; [|vm_compute; reflexivity..|].
  - apply rtc_l with 1; [|apply rtc_once]; unfold child_of;
      vm_compute; by left.
  - intros H. apply list_elem_of_In in H. vm_compute in H.
    destruct H as [H|[H|[]]]; discriminate.
Qed.

(** * Lifecycle hooks and activation *)

(** ** Calls never undo what was done *)

(** [grows w w']: every component instance of [w] is still there in [w'],
    of the same class, activated if it was; and the log of [w'] extends
    that of [w]. *)
Definition grows (w w' : World) : Prop :=
  (forall c o, objects w !! c = Some o ->
     exists o', objects w' !! c = Some o' /\ cls o' = cls o /\
                (activated o = true -> activated o' = true)) /\
  log w `prefix_of` log w'.

#[global] Instance grows_preorder : PreOrder grows.
Proof.
  split.
  - intros w. split; [eauto|done].
  - intros w1 w2 w3 [H1 L1] [H2 L2]. split; [|by etrans].
    intros c o Ho. destruct (H1 c o Ho) as (o' & Ho' & Hc & Ha).
    destruct (H2 c o' Ho') as (o'' & Ho'' & Hc' & Ha').
    exists o''. split_and!; [done|congruence|auto].
Qed.

Section Steps.
Variable R : relation World.
Context `{!PreOrder R}.

(** Every call relates the world it starts in to the one it ends in. *)
Definition steps {A} (m : M A) : Prop := forall w, R w (snd (m w)).

Lemma steps_ret {A} (a : A) : steps (ret a).
Proof. intros w. reflexivity. Qed.

Lemma steps_gets {A} (f : World -> A) : steps (gets f).
Proof. intros w. reflexivity. Qed.

Lemma steps_throw {A} e : steps (throw (A:=A) e).
Proof. intros w. reflexivity. Qed.

Lemma steps_exec f : (forall w, R w (f w)) -> steps (exec f).
Proof. intros H w. apply H. Qed.

Lemma steps_bind {A B} (m : M A) (k : A -> M B) :
  steps m -> (forall a, steps (k a)) -> steps (bind m k).
Proof.
  intros Hm Hk w. unfold bind. specialize (Hm w).
  destruct (m w) as [[a|e|] w']; simpl in *; auto.
  etrans; [exact Hm | apply Hk].
Qed.

Lemma steps_forEach {A} (l : list A) (f : A -> M unit) :
  (forall x, steps (f x)) -> steps (forEach l f).
Proof.
  intros H. induction l as [|x l IH]; simpl; [apply steps_ret|].
  apply steps_bind; auto.
Qed.

Lemma steps_mapM {A B} (l : list A) (f : A -> M B) :
  (forall x, steps (f x)) -> steps (mapM f l).
Proof.
  intros H. induction l as [|x l IH]; simpl; [apply steps_ret|].
  apply steps_bind; [auto|]. intros y. apply steps_bind; [auto|].
  intros ys. apply steps_ret.
Qed.

Lemma steps_async (body : M JSVal) :
  (forall c w, R w (snd (alloc_promise c w))) -> steps body ->
  steps (async body).
Proof.
  intros Ha Hb w. unfold async. specialize (Hb w).
  destruct (body w) as [[v|e|] w']; simpl in *;
    [destruct v; simpl; auto| |]; (etrans; [exact Hb | apply Ha]).
Qed.

Lemma steps_whileCurrent this (callback : CtxId -> M JSVal) :
  (forall w, R w (pushCurrent this w)) ->
  (forall w, R w (popCurrent this w)) ->
  (forall p j w, R w (snd (promise_finally p j w))) ->
  steps (callback this) -> steps (whileCurrent this callback).
Proof.
  intros Hpush Hpop Hfin Hcb w. unfold whileCurrent.
  specialize (Hcb (pushCurrent this w)).
  assert (Hw2 : forall w2, R (pushCurrent this w) w2 -> R w w2)
    by (intros w2 H; etrans; [apply Hpush | exact H]).
  destruct (callback this (pushCurrent this w)) as [[v|e|] w2]; simpl in *.
  - assert (R w (popCurrent this w2))
      by (etrans; [apply Hw2, Hcb | apply Hpop]).
    destruct v; simpl; auto.
    specialize (Hfin p (JPopCurrent this) w2).
    destruct (promise_finally p (JPopCurrent this) w2) as [[q|e|] w3];
      simpl in *; try (etrans; [apply Hw2, Hcb | exact Hfin]).
    etrans; [apply Hw2, Hcb|]. etrans; [exact Hfin | apply Hpop].
  - etrans; [apply Hw2, Hcb | apply Hpop].
  - auto.
Qed.
End Steps.

(** A state change that touches neither the component instances nor the
    log. *)
Definition silent (f : World -> World) : Prop :=
  forall w, objects (f w) = objects w /\ log (f w) = log w.

Lemma grows_silent f w : silent f -> grows w (f w).
Proof. intros H. destruct (H w) as [Ho Hl]. split; rewrite ?Ho, ?Hl; eauto. Qed.

Lemma grows_emit e w : grows w (emit e w).
Proof. split; [eauto|]. simpl. by apply prefix_app_r. Qed.

Lemma grows_upd_obj c f w :
  (forall o, cls (f o) = cls o) ->
  (forall o, activated o = true -> activated (f o) = true) ->
  grows w (upd_obj c f w).
Proof.
  intros Hc Ha. split; [|done]. intros c' o Ho. simpl.
  destruct (decide (c = c')) as [->|Hne].
  - exists (f o). rewrite list_lookup_alter_eq, Ho. auto.
  - exists o. by rewrite list_lookup_alter_ne.
Qed.

Lemma silent_upd_ctx i f : silent (upd_ctx i f).
Proof. done. Qed.

Lemma silent_popCurrent this : silent (popCurrent this).
Proof.
  intros w. unfold popCurrent. simpl.
  by destruct (last (removelast (current w))).
Qed.

Lemma grows_run_microtasks w : grows w (run_microtasks w).
Proof.
  unfold run_microtasks.
  assert (H : forall js w1, grows w1 (foldl (fun w' j => run_job j w') w1 js)).
  { induction js as [|[this] js IH]; intros w1; [reflexivity|].
    simpl. etrans; [|apply IH]. apply grows_silent, silent_popCurrent. }
  etrans; [|apply H]. by apply grows_silent.
Qed.

Lemma grows_promise_finally p j w : grows w (snd (promise_finally p j w)).
Proof.
  unfold promise_finally.
  destruct (promises w !! root p) as [[[s|] rs]|]; simpl;
    (split; [eauto | done]).
Qed.

Lemma steps_await v : steps grows (await v).
Proof.
  intros w. unfold await. destruct v; try apply grows_run_microtasks.
  destruct (promise_state (run_microtasks w) p) as [[r|e]|];
    apply grows_run_microtasks.
Qed.

Lemma steps_callHook c h args : steps grows (callHook c h args).
Proof.
  intros w. unfold callHook.
  destruct (objects w !! c); [apply grows_emit | reflexivity].
Qed.

Ltac grows_step :=
  first
    [ apply (steps_ret grows)
    | apply (steps_gets grows)
    | apply steps_await
    | apply steps_callHook
    | apply (steps_exec grows); intros ?;
      first [ apply grows_emit
            | apply (grows_silent (upd_ctx _ _)), silent_upd_ctx
            | by apply grows_upd_obj ]
    | apply (steps_bind grows); [|intros ?]
    | match goal with |- steps _ (if ?b then _ else _) => destruct b end ].

Lemma steps_run_handler h data : steps grows (run_handler h data).
Proof.
  destruct h; simpl; unfold eligible, applyBabelConfig, applyRules,
    applyPlugins, listen; repeat grows_step.
Qed.

(** ** The invariant of the registrar *)

(** The hooks that the listeners of [install] call. *)
Definition lifecycle (h : Hook) : bool :=
  match h with
  | HkDependencies | HkBoot | HkBabelConfig | HkWebpackEntry | HkWebpackRules
  | HkWebpackPlugins | HkWebpackConfig => true
  | _ => false
  end.

(** The four hooks behind the listeners that the [init] listener
    subscribes. *)
Definition contribution (h : Hook) : bool :=
  match h with
  | HkWebpackEntry | HkWebpackRules | HkWebpackPlugins | HkWebpackConfig =>
      true
  | _ => false
  end.

(** A verb callable of component [c] has been called in [l]. *)
Definition verb_called (c : CompId) (l : list Event) : Prop :=
  exists reg n args, EvVerb reg n c args ∈ l.

Definition eligible_in (w : World) (c : CompId) : Prop :=
  obj_activated w c || obj_passive w c = true.

(** The component exists and its [boot] hook, if it has one, has been
    called in [l]. *)
Definition boot_called (w : World) (c : CompId) (l : list Event) : Prop :=
  c < length (objects w) /\
  (obj_has HkBoot w c = true -> EvHook c HkBoot [] ∈ l).

(** What must be the case when an event is logged after the events
    [pre]. *)
Definition event_ok (w : World) (pre : list Event) (e : Event) : Prop :=
  match e with
  | EvHook c h _ =>
      c < length (objects w) /\
      (lifecycle h = true -> verb_called c pre \/ obj_passive w c = true) /\
      (contribution h = true -> boot_called w c pre)
  | _ => True
  end.

(** What must be the case when a listener is subscribed. *)
Definition handler_ok (w : World) (h : Handler) : Prop :=
  match h with
  | HLoadingEntry _ c | HLoadingRules _ c | HLoadingPlugins _ c
  | HConfigReady _ c => eligible_in w c /\ boot_called w c (log w)
  | _ => True
  end.

Record Inv (w : World) : Prop := {
  inv_activated :
    forall c, obj_activated w c = true -> verb_called c (log w);
  inv_listeners :
    forall i ev h, (ev, h) ∈ ctx_listeners w i -> handler_ok w h;
  inv_log :
    forall n e, log w !! n = Some e -> event_ok w (take n (log w)) e
}.

Definition stable (S : World -> Prop) : Prop :=
  forall w w', grows w w' -> S w -> S w'.

Lemma grows_allocated w w' c :
  grows w w' -> c < length (objects w) -> c < length (objects w').
Proof.
  intros [H _] Hc. apply lookup_lt_is_Some_2 in Hc as [o Ho].
  destruct (H c o Ho) as (o' & Ho' & _). by eapply lookup_lt_Some.
Qed.

Lemma grows_static {A} (f : ComponentClass -> A) (d : A) w w' c :
  grows w w' -> c < length (objects w) ->
  from_option (fun o => f (cls o)) d (objects w' !! c)
  = from_option (fun o => f (cls o)) d (objects w !! c).
Proof.
  intros [H _] Hc. apply lookup_lt_is_Some_2 in Hc as [o Ho].
  destruct (H c o Ho) as (o' & Ho' & Hcls & _).
  rewrite Ho, Ho'. simpl. by rewrite Hcls.
Qed.

Lemma grows_activated w w' c :
  grows w w' -> obj_activated w c = true -> obj_activated w' c = true.
Proof.
  intros [H _]. unfold obj_activated.
  destruct (objects w !! c) as [o|] eqn:Ho; [|done]. simpl. intros Ha.
  destruct (H c o Ho) as (o' & Ho' & _ & Hact). rewrite Ho'. simpl. auto.
Qed.

Lemma eligible_allocated w c : eligible_in w c -> c < length (objects w).
Proof.
  unfold eligible_in, obj_activated, obj_passive. intros H.
  apply lookup_lt_is_Some. by destruct (objects w !! c).
Qed.

Lemma verb_called_prefix c l l' :
  l `prefix_of` l' -> verb_called c l -> verb_called c l'.
Proof.
  intros [k ->] (reg & n & args & H). exists reg, n, args.
  apply elem_of_app. by left.
Qed.

Lemma stable_eligible c : stable (fun w => eligible_in w c).
Proof.
  intros w w' Hg H. pose proof (eligible_allocated _ _ H) as Hc.
  unfold eligible_in in *. apply orb_true_iff in H as [H|H].
  - by rewrite (grows_activated _ _ _ Hg H).
  - unfold obj_passive in *.
    rewrite (grows_static passive false _ _ _ Hg Hc), H. apply orb_true_r.
Qed.

Lemma boot_called_grows w w' c l l' :
  grows w w' -> l `prefix_of` l' -> boot_called w c l -> boot_called w' c l'.
Proof.
  intros Hg [k ->] [Hc Hb]. split; [by eapply grows_allocated|].
  unfold obj_has in *. rewrite (grows_static (fun k => has k HkBoot) false
                                   _ _ _ Hg Hc).
  intros H. apply elem_of_app. left. auto.
Qed.

Lemma stable_boot_called c : stable (fun w => boot_called w c (log w)).
Proof. intros w w' Hg. apply boot_called_grows; [done | apply Hg]. Qed.

Lemma stable_verb_called c : stable (fun w => verb_called c (log w)).
Proof. intros w w' Hg. apply verb_called_prefix, Hg. Qed.

Lemma stable_handler_ok h : stable (fun w => handler_ok w h).
Proof.
  intros w w' Hg. destruct h; simpl; try done;
    intros [He Hb]; (split; [by eapply stable_eligible
                            |by eapply stable_boot_called]).
Qed.

Lemma stable_and (S1 S2 : World -> Prop) :
  stable S1 -> stable S2 -> stable (fun w => S1 w /\ S2 w).
Proof. intros H1 H2 w w' Hg [? ?]. split; eauto. Qed.

Lemma stable_Forall {A} (S : World -> A -> Prop) (l : list A) :
  (forall a, stable (fun w => S w a)) -> stable (fun w => Forall (S w) l).
Proof.
  intros H w w' Hg HF. eapply Forall_impl; [exact HF|].
  intros a. by apply H.
Qed.

Lemma event_ok_grows w w' pre e :
  grows w w' -> event_ok w pre e -> event_ok w' pre e.
Proof.
  intros Hg. destruct e; simpl; try done. intros (Hc & Hl & Hb).
  split_and!.
  - by eapply grows_allocated.
  - intros Hh. destruct (Hl Hh) as [?|Hp]; [by left|right].
    unfold obj_passive in *. by rewrite (grows_static passive false
                                            _ _ _ Hg Hc).
  - intros Hh. eapply boot_called_grows; [done..|auto].
Qed.

(** One step of the world keeps the invariant when what it adds is in
    order. *)
Lemma Inv_step w w' :
  Inv w -> grows w w' ->
  (forall c, obj_activated w' c = true ->
     obj_activated w c = true \/ verb_called c (log w')) ->
  (forall i ev h, (ev, h) ∈ ctx_listeners w' i ->
     (ev, h) ∈ ctx_listeners w i \/ handler_ok w' h) ->
  (forall n e, log w' !! n = Some e -> length (log w) <= n ->
     event_ok w' (take n (log w')) e) ->
  Inv w'.
Proof.
  intros [Ia Il Ie] Hg Ha Hl He. split.
  - intros c Hc. destruct (Ha c Hc) as [H|H]; [|done].
    eapply verb_called_prefix; [apply Hg | auto].
  - intros i ev h Hh. destruct (Hl i ev h Hh) as [H|H]; [|done].
    eapply stable_handler_ok; [exact Hg | eauto].
  - intros n e Hn. destruct (decide (n < length (log w))) as [Hlt|Hge].
    + destruct Hg as [Ho [k Hk]]. rewrite Hk in Hn |- *.
      rewrite lookup_app_l in Hn by done.
      rewrite take_app_le by lia.
      eapply event_ok_grows; [|by apply Ie]. split; [done|by exists k].
    + apply He; [done|lia].
Qed.

(** A silent change that adds no listener keeps the invariant. *)
Lemma Inv_silent f w :
  silent f ->
  (forall i, ctx_listeners (f w) i ⊆ ctx_listeners w i) ->
  Inv w -> Inv (f w).
Proof.
  intros Hs Hl HI. destruct (Hs w) as [Ho Hlog].
  apply (Inv_step w); [done | by apply grows_silent | ..].
  - intros c. unfold obj_activated. rewrite Ho. by left.
  - intros i ev h Hh. left. by apply Hl.
  - intros n e Hn Hge. rewrite Hlog in Hn.
    apply lookup_lt_Some in Hn. lia.
Qed.

Lemma Inv_emit e w : event_ok w (log w) e -> Inv w -> Inv (emit e w).
Proof.
  intros He HI. apply (Inv_step w); [done | apply grows_emit | ..].
  - intros c Hc. by left.
  - intros i ev h Hh. by left.
  - intros n e' Hn Hge. simpl in *.
    apply lookup_snoc_Some in Hn as [[Hlt _]|[-> ->]]; [lia|].
    by rewrite take_app_length.
Qed.

Lemma ctx_listeners_listen i ev h w j :
  ctx_listeners (listen i ev h w) j
  ⊆ ctx_listeners w j ++ (if decide (i = j) then [(ev, h)] else []).
Proof.
  unfold ctx_listeners, listen. simpl. destruct (decide (i = j)) as [->|Hne].
  - rewrite list_lookup_alter_eq.
    destruct (contexts w !! j); simpl; set_solver.
  - rewrite list_lookup_alter_ne by done. rewrite app_nil_r. set_solver.
Qed.

Lemma Inv_listen i ev h w : handler_ok w h -> Inv w -> Inv (listen i ev h w).
Proof.
  intros Hh HI.
  apply (Inv_step w); [done | apply (grows_silent (listen i ev h)); done | ..].
  - intros c Hc. by left.
  - intros j ev' h' Hin. apply ctx_listeners_listen in Hin.
    apply elem_of_app in Hin as [Hin|Hin]; [by left|right].
    case_decide; [|by inv Hin].
    apply list_elem_of_singleton in Hin. by injection Hin as -> ->.
  - intros n e Hn Hge. apply lookup_lt_Some in Hn. simpl in *. lia.
Qed.

Lemma Inv_upd_obj c f w :
  (forall o, cls (f o) = cls o) ->
  (forall o, activated o = true -> activated (f o) = true) ->
  (forall o, activated (f o) = true -> activated o = true \/
                                      verb_called c (log w)) ->
  Inv w -> Inv (upd_obj c f w).
Proof.
  intros Hc Ha Hv HI.
  apply (Inv_step w); [done | by apply grows_upd_obj | ..].
  - intros c'. unfold obj_activated. simpl.
    destruct (decide (c = c')) as [->|Hne].
    + rewrite list_lookup_alter_eq. destruct (objects w !! c'); simpl; auto.
    + rewrite list_lookup_alter_ne by done. auto.
  - intros i ev h Hh. by left.
  - intros n e Hn Hge. apply lookup_lt_Some in Hn. simpl in *. lia.
Qed.

Lemma Inv_newComponent k w :
  Inv w -> Inv (set_objects (fun l => l ++ [mkObj k false None]) w).
Proof.
  intros HI. apply (Inv_step w); [done|..].
  - split; [|done]. intros c o Ho. exists o. simpl.
    rewrite lookup_app_l by (by eapply lookup_lt_Some). done.
  - intros c. unfold obj_activated. simpl. intros Hc. left.
    destruct (decide (c < length (objects w))) as [Hlt|Hge].
    + by rewrite lookup_app_l in Hc.
    + rewrite lookup_app_r in Hc by lia.
      by destruct (c - length (objects w)) as [|[|n]].
  - intros i ev h Hh. by left.
  - intros n e Hn Hge. apply lookup_lt_Some in Hn. simpl in *. lia.
Qed.

Lemma Inv_newMix m w :
  listeners m = [] -> Inv w -> Inv (set_contexts (fun l => l ++ [m]) w).
Proof.
  intros Hm. apply (Inv_silent (set_contexts (fun l => l ++ [m]))); [done|].
  intros i. unfold ctx_listeners. simpl.
  destruct (decide (i < length (contexts w))) as [Hlt|Hge].
  - by rewrite lookup_app_l.
  - rewrite lookup_app_r by lia.
    destruct (i - length (contexts w)) as [|[|n]]; simpl;
      rewrite ?Hm; set_solver.
Qed.

(** ** Calls keep the invariant *)

(** [good S m]: under the side condition [S], the call [m] keeps the
    invariant; and it only adds to the world. *)
Definition good {A} (S : World -> Prop) (m : M A) : Prop :=
  hoare (fun w => Inv w /\ S w) m Inv /\ steps grows m.

Lemma good_ret {A} S (a : A) : good S (ret a).
Proof. split; [by intros w [? ?] | apply (steps_ret grows)]. Qed.

Lemma good_throw {A} S e : good S (throw (A:=A) e).
Proof. split; [by intros w [? ?] | intros w; reflexivity]. Qed.

Lemma good_weaken {A} (S S' : World -> Prop) (m : M A) :
  (forall w, Inv w -> S w -> S' w) -> good S' m -> good S m.
Proof.
  intros H [Hh Hs]. split; [|done]. intros w [HI HS]. apply Hh. auto.
Qed.

(** Sequencing, with a condition [S'] that the first call establishes. *)
Lemma good_bind_post {A B} (S S' : World -> Prop) (m : M A) (k : A -> M B) :
  hoare (fun w => Inv w /\ S w) m (fun w => Inv w /\ S' w) ->
  steps grows m ->
  (forall a, good S' (k a)) ->
  good S (bind m k).
Proof.
  intros Hm Hs Hk. split.
  - eapply hoare_bind; [exact Hm | by intros w [? _] |].
    intros a. apply (proj1 (Hk a)).
  - apply (steps_bind grows); [done | intros a; apply Hk].
Qed.

Lemma good_bind {A B} (S : World -> Prop) (m : M A) (k : A -> M B) :
  stable S -> good S m -> (forall a, good S (k a)) -> good S (bind m k).
Proof.
  intros HS [Hm Hs] Hk. apply (good_bind_post S S); [|done|done].
  intros w [HI Hw]. split; [by apply Hm|].
  eapply HS; [apply Hs | done].
Qed.

(** A read of the state may teach something about it. *)
Lemma good_learn {A B} (S : World -> Prop) (S' : A -> World -> Prop)
    (f : World -> A) (k : A -> M B) :
  (forall w, Inv w -> S w -> S' (f w) w) ->
  (forall a, good (S' a) (k a)) ->
  good S (bind (gets f) k).
Proof.
  intros HS Hk. split.
  - apply hoare_gets. intros a w [[HI Hw] <-].
    apply (proj1 (Hk (f w))). split; auto.
  - apply (steps_bind grows); [apply (steps_gets grows) | intros a; apply Hk].
Qed.

Lemma good_gets {A B} (S : World -> Prop) (f : World -> A) (k : A -> M B) :
  (forall a, good S (k a)) -> good S (bind (gets f) k).
Proof. intros Hk. by apply (good_learn S (fun _ => S)). Qed.

Lemma good_exec (S : World -> Prop) f :
  (forall w, Inv w -> S w -> Inv (f w)) -> (forall w, grows w (f w)) ->
  good S (exec f).
Proof.
  intros H Hg. split; [|by apply (steps_exec grows)]. intros w [HI Hw]. by apply H.
Qed.

Lemma good_upd_ctx (S : World -> Prop) i f :
  (forall m, listeners (f m) = listeners m) -> good S (exec (upd_ctx i f)).
Proof.
  intros Hf. apply good_exec; [|intros w; by apply grows_silent].
  intros w HI _. apply (Inv_silent (upd_ctx i f)); [done| |done].
  intros j. unfold ctx_listeners. simpl.
  destruct (decide (i = j)) as [->|Hne].
  - rewrite list_lookup_alter_eq. destruct (contexts w !! j); simpl;
      rewrite ?Hf; set_solver.
  - by rewrite list_lookup_alter_ne.
Qed.

Lemma good_emit (S : World -> Prop) e :
  (forall w, Inv w -> S w -> event_ok w (log w) e) -> good S (exec (emit e)).
Proof.
  intros H. apply good_exec; [|apply grows_emit].
  intros w HI Hw. apply Inv_emit; auto.
Qed.

Lemma good_listen (S : World -> Prop) i ev h :
  (forall w, Inv w -> S w -> handler_ok w h) -> good S (exec (listen i ev h)).
Proof.
  intros H. apply good_exec; [|intros w; by apply grows_silent].
  intros w HI Hw. apply Inv_listen; auto.
Qed.

Lemma Inv_popCurrent this w : Inv w -> Inv (popCurrent this w).
Proof.
  apply (Inv_silent (popCurrent this)); [apply silent_popCurrent|].
  intros i. unfold popCurrent, ctx_listeners. simpl.
  by destruct (last (removelast (current w))).
Qed.

Lemma Inv_run_microtasks w : Inv w -> Inv (run_microtasks w).
Proof.
  intros HI. unfold run_microtasks.
  assert (H : forall js w1, Inv w1 ->
                Inv (foldl (fun w' j => run_job j w') w1 js)).
  { induction js as [|[this] js IH]; intros w1 H1; [done|].
    simpl. by apply IH, Inv_popCurrent. }
  apply H. by apply (Inv_silent (set_microtasks (fun _ => []))).
Qed.

Lemma good_await S v : good S (await v).
Proof.
  split; [|apply steps_await]. intros w [HI _]. rewrite await_state.
  by apply Inv_run_microtasks.
Qed.

Lemma good_callHook (S : World -> Prop) c h args :
  (lifecycle h = true -> forall w, Inv w -> S w -> eligible_in w c) ->
  (contribution h = true ->
   forall w, Inv w -> S w -> boot_called w c (log w)) ->
  good S (callHook c h args).
Proof.
  intros Hl Hc. split; [|apply steps_callHook]. intros w [HI Hw].
  unfold callHook. destruct (objects w !! c) as [o|] eqn:Ho; [|done].
  simpl. apply Inv_emit; [|done]. simpl. split_and!.
  - by eapply lookup_lt_Some.
  - intros Hh. specialize (Hl Hh w HI Hw). unfold eligible_in in Hl.
    apply orb_true_iff in Hl as [Ha|Hp]; [left|by right].
    by apply (inv_activated w HI).
  - intros Hh. by apply Hc.
Qed.

Lemma good_async S (body : M JSVal) : good S body -> good S (async body).
Proof.
  intros [Hh Hs]. split.
  - apply hoare_async; [done|]. intros c w.
    by apply (Inv_silent (fun w => snd (alloc_promise c w))).
  - apply (steps_async grows); [|done]. intros c w.
    by apply (grows_silent (fun w => snd (alloc_promise c w))).
Qed.

Lemma good_forEach {A} S (l : list A) (f : A -> M unit) :
  stable S -> (forall x, x ∈ l -> good S (f x)) -> good S (forEach l f).
Proof.
  intros HS. induction l as [|x l IH]; intros H; simpl; [apply good_ret|].
  apply good_bind; [done | apply H; by left |].
  intros _. apply IH. intros y Hy. apply H. by right.
Qed.

Lemma good_mapM {A B} S (l : list A) (f : A -> M B) :
  stable S -> (forall x, good S (f x)) -> good S (mapM f l).
Proof.
  intros HS H. induction l as [|x l IH]; simpl; [apply good_ret|].
  apply good_bind; [done | apply H |]. intros y.
  apply good_bind; [done | apply IH |]. intros ys. apply good_ret.
Qed.

Lemma stable_True : stable (fun _ => True).
Proof. done. Qed.

Lemma silent_pushCurrent this : silent (pushCurrent this).
Proof. done. Qed.

Lemma Inv_promise_finally p j w : Inv w -> Inv (snd (promise_finally p j w)).
Proof.
  intros HI. unfold promise_finally.
  destruct (promises w !! root p) as [[[s|] rs]|]; simpl; [| |done].
  - by apply (Inv_silent (set_microtasks (fun q => q ++ [j]))).
  - by apply (Inv_silent (set_promises
                            (<[root p := mkCell None (rs ++ [j])]>))).
Qed.

Lemma good_whileCurrent S this (callback : CtxId -> M JSVal) :
  stable S -> good S (callback this) -> good S (whileCurrent this callback).
Proof.
  intros HS [Hh Hs]. split.
  - eapply hoare_whileCurrent; [|exact Hh|apply Inv_popCurrent
                               |apply Inv_promise_finally].
    intros w [HI Hw]. split.
    + by apply (Inv_silent (pushCurrent this)).
    + eapply HS; [|exact Hw]. by apply grows_silent.
  - apply (steps_whileCurrent grows); [..|done].
    + intros w. by apply grows_silent.
    + intros w. apply grows_silent, silent_popCurrent.
    + apply grows_promise_finally.
Qed.

Ltac good_step :=
  lazymatch goal with
  | |- good _ (ret _) => apply good_ret
  | |- good _ (throw _) => apply good_throw
  | |- good _ (await _) => apply good_await
  | |- good _ (exec (upd_ctx _ _)) => apply good_upd_ctx; by intros []
  | |- good _ (bind (gets _) _) => apply good_gets; intros ?
  | |- good _ (bind _ _) =>
      apply good_bind; [by auto using stable_True, stable_eligible,
                          stable_boot_called, stable_verb_called,
                          stable_and | | intros ?]
  | |- good _ (if ?b then _ else _) => destruct b
  end.

Lemma good_verb reg n c args : good (fun _ => True) (verb reg n c args).
Proof.
  unfold verb, record.
  apply (good_bind_post _ (fun w => verb_called c (log w))).
  { intros w [HI _]. split; [by apply Inv_emit|].
    exists reg, n, args. simpl. apply elem_of_app. right. by left. }
  { apply (steps_exec grows), grows_emit. }
  intros _. repeat good_step.
  - apply good_exec; [|intros w; by apply grows_upd_obj].
    intros w HI _. apply Inv_upd_obj; auto.
  - by apply good_callHook.
  - apply good_exec; [|intros w; by apply grows_upd_obj].
    intros w HI Hv. apply Inv_upd_obj; auto.
Qed.

Lemma good_call f args : good (fun _ => True) (call f args).
Proof.
  destruct f; simpl; [apply good_verb | | apply good_ret].
  apply good_bind; [done | by apply good_emit | intros _; apply good_ret].
Qed.

Lemma good_pointwise {A} S (m : M A) :
  (forall w, exists m' : M A, good S m' /\ m w = m' w) -> good S m.
Proof.
  intros H. split.
  - intros w Hw. destruct (H w) as (m' & [Hh _] & ->). by apply Hh.
  - intros w. destruct (H w) as (m' & [_ Hs] & ->). apply Hs.
Qed.

Lemma good_componentNames c : good (fun _ => True) (componentNames c).
Proof.
  apply good_pointwise. intros w. unfold componentNames.
  destruct (objects w !! c) as [o|].
  - destruct (nameHook (cls o)) as [names|].
    + eexists. split; [|reflexivity].
      apply good_bind; [done | by apply good_callHook |].
      intros _. apply good_ret.
    + exists (ret [lcfirst (ctorName (cls o))]). split; [apply good_ret|done].
  - exists (throw (VError "TypeError")). split; [apply good_throw|done].
Qed.

Lemma good_componentMix c : good (fun _ => True) (componentMix c).
Proof.
  apply good_pointwise. intros w. unfold componentMix.
  destruct (objects w !! c) as [o|].
  - destruct (mixHook (cls o)) as [keys|].
    + eexists. split; [|reflexivity].
      apply good_bind; [done | by apply good_callHook |].
      intros _. apply good_ret.
    + exists (ret []). split; [apply good_ret|done].
  - exists (throw (VError "TypeError")). split; [apply good_throw|done].
Qed.

Lemma good_register reg c n : good (fun _ => True) (register reg c n).
Proof.
  unfold register. repeat good_step.
  - apply good_verb.
  - apply good_componentMix.
  - apply good_forEach; [done|]. intros key _.
    repeat good_step. apply good_componentMix.
Qed.

Lemma good_install reg C : good (fun _ => True) (install reg C).
Proof.
  unfold install, registerComponent. repeat good_step.
  - destruct C; [|apply good_ret]. split.
    + intros w [HI _]. by apply Inv_newComponent.
    + intros w. split; [|done]. intros c o Ho. exists o. simpl.
      rewrite lookup_app_l by (by eapply lookup_lt_Some). done.
  - apply good_componentNames.
  - apply good_forEach; [done|]. intros n _. apply good_register.
  - by apply good_listen.
  - by apply good_listen.
Qed.

Lemma good_api this : good (fun _ => True) (api this).
Proof.
  unfold api, installAll. repeat good_step.
  apply good_forEach; [done|]. intros k _.
  repeat good_step. apply good_install.
Qed.

Lemma good_run_handler h data :
  good (fun w => handler_ok w h) (run_handler h data).
Proof.
  destruct h; simpl.
  - apply good_bind; [done | by apply good_emit | intros _; apply good_ret].
  - unfold eligible.
    apply (good_learn _ (fun a w => a = true -> eligible_in w c)); [done|].
    intros [|]; simpl; [|apply good_ret].
    apply (good_weaken _ (fun w => eligible_in w c)); [auto|].
    repeat good_step.
    + by apply good_callHook.
    + by apply good_emit.
  - unfold eligible.
    apply (good_learn _ (fun a w => a = true -> eligible_in w c)); [done|].
    intros [|]; simpl; [|apply good_ret].
    apply (good_weaken _ (fun w => eligible_in w c)); [auto|].
    apply (good_learn _ (fun b w => eligible_in w c /\
                                    obj_has HkBoot w c = b)); [done|].
    intros b.
    apply (good_bind_post _ (fun w => eligible_in w c /\
                                      boot_called w c (log w))).
    { intros w [HI [He Hb]]. destruct b.
      - assert (Hg : good (fun w => eligible_in w c) (callHook c HkBoot []))
          by (by apply good_callHook).
        split; [apply Hg; by split|].
        pose proof (eligible_allocated _ _ He) as Hc.
        apply lookup_lt_is_Some_2 in Hc as [o Ho].
        unfold callHook. rewrite Ho. simpl. split.
        + by eapply stable_eligible; [apply grows_emit|].
        + split; [simpl; by eapply lookup_lt_Some|].
          intros _. simpl. apply elem_of_app. right. by left.
      - split_and!; [done..|]. split; [by apply eligible_allocated|].
        simpl. congruence. }
    { destruct b; [apply steps_callHook | apply (steps_ret grows)]. }
    intros r. unfold applyBabelConfig. repeat good_step;
      try (by apply good_callHook; [intros _ w _ [? _]|]);
      try (apply good_listen; by intros w _ [? ?]).
  - apply good_gets. intros []; [|apply good_ret].
    apply good_callHook; by intros _ w _ [? ?].
  - apply good_gets. intros []; [|apply good_ret]. unfold applyRules.
    apply good_bind; [apply (stable_handler_ok (HLoadingRules reg c)) | |].
    + apply good_callHook; by intros _ w _ [? ?].
    + intros _. apply good_ret.
  - apply good_gets. intros []; [|apply good_ret]. unfold applyPlugins.
    apply good_bind; [apply (stable_handler_ok (HLoadingPlugins reg c)) | |].
    + apply good_callHook; by intros _ w _ [? ?].
    + intros _. apply good_ret.
  - apply good_gets. intros []; [|apply good_ret].
    apply good_callHook; by intros _ w _ [? ?].
Qed.

Lemma good_fire this event data : good (fun _ => True) (fire this event data).
Proof.
  unfold fire. apply good_async.
  apply good_bind; [done | by apply good_emit |]. intros _.
  apply (good_learn _ (fun hs w => Forall (handler_ok w) hs)).
  { intros w HI _. apply Forall_forall. intros h Hh.
    unfold handlers_for in Hh.
    apply list_elem_of_fmap in Hh as ([ev h'] & -> & Hh).
    apply list_elem_of_filter in Hh as [_ Hh].
    by apply (inv_listeners w HI this ev h'). }
  intros hs.
  assert (HS : stable (fun w => Forall (handler_ok w) hs))
    by (apply stable_Forall; intros h; apply stable_handler_ok).
  apply good_bind; [done | | intros _; apply good_ret].
  apply good_forEach; [done|]. intros h Hh.
  apply good_bind; [done| |].
  - eapply good_weaken; [|apply good_run_handler].
    intros w _ HF. rewrite Forall_forall in HF. by apply HF.
  - intros r. apply good_bind; [done | apply good_await |].
    intros _. apply good_ret.
Qed.

Lemma good_dispatch this event v :
  good (fun _ => True) (dispatch this event (DVal v)).
Proof.
  unfold dispatch. apply good_async, good_whileCurrent; [done|].
  apply good_bind; [done | apply good_ret | intros d; apply good_fire].
Qed.

Lemma good_awaitAll vs : good (fun _ => True) (awaitAll vs).
Proof.
  split.
  - intros w [HI _]. unfold awaitAll.
    destruct (all_results (run_microtasks w) vs); simpl;
      by apply Inv_run_microtasks.
  - intros w. unfold awaitAll.
    destruct (all_results (run_microtasks w) vs); simpl;
      apply grows_run_microtasks.
Qed.

Lemma good_dispatchToChildren this event v :
  good (fun _ => True) (dispatchToChildren this event (DVal v)).
Proof.
  unfold dispatchToChildren. apply good_async. repeat good_step.
  - apply good_mapM; [done|]. intros c. apply good_dispatch.
  - apply good_awaitAll.
Qed.

Lemma good_installDependencies this :
  good (fun _ => True) (installDependencies this).
Proof.
  unfold installDependencies. apply good_async. repeat good_step.
  - apply good_dispatch.
  - apply good_dispatchToChildren.
  - by apply good_emit.
Qed.

Lemma good_init this : good (fun _ => True) (init this).
Proof.
  unfold init. apply good_async. repeat good_step.
  - apply good_dispatch.
  - apply good_dispatchToChildren.
Qed.

Lemma good_boot this : good (fun _ => True) (boot this).
Proof.
  apply good_pointwise. intros w. unfold boot.
  destruct (ctx_booted w this).
  { exists (ret this). split; [apply good_ret|done]. }
  exists (exec (upd_ctx this (set_booted true)) ;;;
          p <- gets primary ;;
          (if decide (p = Some this) then exec (emit EvDotenv) else ret tt) ;;;
          l <- gets (sees "laravel") ;;
          (if l then exec (upd_ctx this (set_publicPath (Some "public")))
           else ret tt) ;;;
          exec (listen this "init" (HHotRecord this)) ;;;
          exec (pushCurrent this) ;;;
          ret this).
  split.
  - repeat good_step.
    + by apply good_emit.
    + by apply good_listen.
    + apply good_exec; [|intros w'; by apply grows_silent].
      intros w' HI _. by apply (Inv_silent (pushCurrent this)).
  - rewrite !bind_exec, bind_gets. simpl primary.
    case_decide; rewrite ?bind_exec, ?bind_ret, bind_gets;
      destruct (sees _ _); by rewrite ?bind_exec, ?bind_ret.
Qed.

Lemma good_newMix o : good (fun _ => True) (newMix o).
Proof.
  split.
  - intros w [HI _]. by apply Inv_newMix.
  - intros w. by apply (grows_silent (set_contexts _)).
Qed.

Lemma good_get_primary : good (fun _ => True) get_primary.
Proof.
  split.
  - intros w [HI _]. unfold get_primary. destruct (primary w); [done|].
    simpl. apply (Inv_silent (set_primary _)); [done..|].
    by apply Inv_newMix.
  - intros w. unfold get_primary. destruct (primary w); [reflexivity|].
    simpl. by apply (grows_silent (fun w => set_primary _ (set_contexts _ w))).
Qed.

Lemma good_build this : good (fun _ => True) (build this).
Proof.
  unfold build. apply good_async. repeat good_step.
  - by apply good_emit.
  - apply good_boot.
  - apply good_mapM; [done|]. intros c. unfold webpackConfig_build.
    repeat good_step; [by apply good_emit|].
    split.
    + intros w [HI _].
      by apply (Inv_silent (fun w => snd (settledPromise _ w))).
    + intros w. by apply (grows_silent (fun w => snd (settledPromise _ w))).
  - apply good_awaitAll.
Qed.

Lemma good_withChild this n (callback : CtxId -> M JSVal) :
  (forall c, good (fun _ => True) (callback c)) ->
  good (fun _ => True) (withChild this n callback).
Proof.
  intros H. unfold withChild. repeat good_step.
  - apply good_newMix.
  - apply good_boot.
  - by apply good_whileCurrent.
Qed.

Lemma good_Group_register parent n (callback : JSVal -> CtxId -> M JSVal) :
  (forall a c, good (fun _ => True) (callback a c)) ->
  good (fun _ => True) (Group_register parent n (Some callback)).
Proof.
  intros H. unfold Group_register. repeat good_step.
  apply good_withChild. intros c. repeat good_step; [apply good_api | apply H].
Qed.

Lemma Op_induction (P : Op -> Prop) :
  P OpPrimary -> (forall n, P (OpNew n)) -> (forall c, P (OpBoot c)) ->
  (forall c C, P (OpInstall c C)) -> (forall c, P (OpApi c)) ->
  (forall c v a, P (OpCall c v a)) -> (forall c e d, P (OpDispatch c e d)) ->
  (forall c, P (OpInstallDependencies c)) -> (forall c, P (OpInit c)) ->
  (forall c, P (OpBuild c)) ->
  (forall p n body, Forall P body -> P (OpGroup p n body)) ->
  forall o, P o.
Proof.
  intros H1 H2 H3 H4 H5 H6 H7 H8 H9 H10 H11.
  fix IH 1. intros [| | | | | | | | | |p n body];
    [apply H1 | apply H2 | apply H3 | apply H4 | apply H5 | apply H6
    | apply H7 | apply H8 | apply H9 | apply H10 |].
  apply H11. induction body as [|o body IHb]; constructor.
  - apply IH.
  - exact IHb.
Qed.

Lemma good_on_context S ctx m : good S m -> good S (on_context ctx m).
Proof.
  intros H. unfold on_context. apply good_gets.
  intros []; [exact H | apply good_throw].
Qed.

Lemma good_run_op o : good (fun _ => True) (run_op o).
Proof.
  induction o as [| | | | | | | | | |p n body IH] using Op_induction; simpl;
    try apply good_on_context.
  - apply good_bind; [done | apply good_get_primary |].
    intros c. apply good_ret.
  - apply good_bind; [done | apply good_newMix | intros c; apply good_ret].
  - apply good_bind; [done | apply good_boot | intros c'; apply good_ret].
  - apply good_install.
  - apply good_api.
  - apply good_gets. intros [f|]; [apply good_call | apply good_throw].
  - apply good_dispatch.
  - apply good_installDependencies.
  - apply good_init.
  - apply good_build.
  - apply good_Group_register. intros _ _.
    induction IH as [|o body Ho _ IHb]; [apply good_ret|].
    apply good_bind; [done | exact Ho | intros _; exact IHb].
Qed.

Lemma Inv_world0 : Inv world0.
Proof.
  split.
  - intros c. unfold obj_activated. simpl. done.
  - intros i ev h. unfold ctx_listeners. simpl. set_solver.
  - intros n e. simpl. done.
Qed.

Lemma Inv_run_ops l : Inv (run_ops l world0).
Proof.
  unfold run_ops. generalize Inv_world0. generalize world0.
  induction l as [|o l IH]; intros w HI; [done|].
  simpl. apply IH. by apply (proj1 (good_run_op o)).
Qed.

(** C2.  Whatever is installed, called, fired, initialised or built, and
    however often: a component that is not passive and of which no verb
    callable has been called never has its dependencies, boot, babelConfig,
    webpackEntry, webpackRules, webpackPlugins or webpackConfig hook
    called. *)
Theorem hooks_need_activation (ops : list Op) (c : CompId) (h : Hook)
    (args : list JSVal) :
  let w := run_ops ops world0 in
  obj_passive w c = false ->
  (~ verb_called c (log w)) ->
  lifecycle h = true ->
  EvHook c h args ∉ log w.
Proof.
  intros w Hp Hv Hh Hin.
  apply list_elem_of_lookup in Hin as [n Hn].
  destruct (inv_log w (Inv_run_ops ops) n _ Hn) as (_ & Hl & _).
  destruct (Hl Hh) as [Hc|Hc]; [|congruence].
  apply Hv. eapply verb_called_prefix; [|exact Hc]. apply prefix_take.
Qed.

(** C2, witness: in that scenario Vue's boot hook is not called (and
    Notifications' is). *)
Lemma hooks_need_activation_witness :
  let w := run_ops notifications_only world0 in
  obj_passive w 1 = false /\
  (~ verb_called 1 (log w)) /\
  (EvHook 1 HkBoot [] ∉ log w) /\
  (EvHook 0 HkBoot [] ∈ log w).
Proof.
  intros w.
  assert (Hp : obj_passive w 1 = false) by reflexivity.
  assert (Hv : ~ verb_called 1 (log w)).
  { intros (reg & n & a & H). apply list_elem_of_In in H. vm_compute in H.
    repeat (destruct H as [H|H]; [discriminate|]). exact H. }
  split_and!; [exact Hp | exact Hv | |].
  - exact (hooks_need_activation notifications_only 1 HkBoot [] Hp Hv eq_refl).
  - apply list_elem_of_In. vm_compute. tauto.
Defined.




(** * The heap of contexts stays a tree *)

(** [same_shape w w']: the contexts of [w'] are those of [w], with the same
    children. *)
Definition same_shape (w w' : World) : Prop :=
  children <$> contexts w' = children <$> contexts w.

#[global] Instance same_shape_preorder : PreOrder same_shape.
Proof.
  split; [done|]. intros w1 w2 w3 H1 H2. unfold same_shape in *. congruence.
Qed.

Lemma same_shape_children w w' i :
  same_shape w w' -> ctx_children w' i = ctx_children w i.
Proof.
  intros H. unfold ctx_children.
  apply (f_equal (fun l => l !! i)) in H. rewrite !list_lookup_fmap in H.
  destruct (contexts w' !! i), (contexts w !! i); simpl in *; congruence.
Qed.

Lemma same_shape_length w w' :
  same_shape w w' -> length (contexts w') = length (contexts w).
Proof.
  intros H. apply (f_equal length) in H. by rewrite !length_fmap in H.
Qed.

Lemma heap_tree_same_shape w w' : same_shape w w' -> heap_tree w -> heap_tree w'.
Proof.
  intros H [H1 H2 H3].
  assert (Hc : forall p c, child_of w' p c <-> child_of w p c).
  { intros p c. unfold child_of. by rewrite (same_shape_children _ _ _ H). }
  split.
  - intros p c Hpc. rewrite (same_shape_length _ _ H). by apply H1, Hc.
  - intros p1 p2 c ?%Hc ?%Hc. eauto.
  - intros p. rewrite (same_shape_children _ _ _ H). apply H3.
Qed.

Lemma shape_fixed f w : contexts (f w) = contexts w -> same_shape w (f w).
Proof. unfold same_shape. by intros ->. Qed.

Lemma shape_upd_ctx i f w :
  (forall m, children (f m) = children m) -> same_shape w (upd_ctx i f w).
Proof. intros H. unfold same_shape. simpl. by apply fmap_alter_same. Qed.

Lemma shape_popCurrent this w : same_shape w (popCurrent this w).
Proof.
  apply shape_fixed. unfold popCurrent. simpl.
  by destruct (last (removelast (current w))).
Qed.

Lemma shape_run_microtasks w : same_shape w (run_microtasks w).
Proof.
  unfold run_microtasks.
  assert (H : forall js w1,
             same_shape w1 (foldl (fun w' j => run_job j w') w1 js)).
  { induction js as [|[this] js IH]; intros w1; [reflexivity|].
    simpl. etrans; [apply shape_popCurrent | apply IH]. }
  etrans; [|apply H]. by apply shape_fixed.
Qed.

Lemma shape_await v : steps same_shape (await v).
Proof. intros w. rewrite await_state. apply shape_run_microtasks. Qed.

Lemma shape_callHook c h args : steps same_shape (callHook c h args).
Proof.
  intros w. unfold callHook. destruct (objects w !! c); [|reflexivity].
  by apply shape_fixed.
Qed.

Lemma shape_async body : steps same_shape body -> steps same_shape (async body).
Proof.
  apply (steps_async same_shape). intros c w. by apply shape_fixed.
Qed.

Lemma shape_pointwise {A} (m : M A) :
  (forall w, exists m' : M A, steps same_shape m' /\ m w = m' w) ->
  steps same_shape m.
Proof. intros H w. destruct (H w) as (m' & Hs & ->). apply Hs. Qed.

Ltac shape_step :=
  lazymatch goal with
  | |- steps _ (ret _) => apply (steps_ret same_shape)
  | |- steps _ (throw _) => apply (steps_throw same_shape)
  | |- steps _ (gets _) => apply (steps_gets same_shape)
  | |- steps _ (await _) => apply shape_await
  | |- steps _ (callHook _ _ _) => apply shape_callHook
  | |- steps _ (async _) => apply shape_async
  | |- steps _ (exec (upd_ctx _ _)) =>
      apply (steps_exec same_shape); intros ?; apply shape_upd_ctx; by intros []
  | |- steps _ (exec (listen _ _ _)) =>
      apply (steps_exec same_shape); intros ?; apply shape_upd_ctx; by intros []
  | |- steps _ (exec _) =>
      apply (steps_exec same_shape); intros ?; by apply shape_fixed
  | |- steps _ (bind _ _) => apply (steps_bind same_shape); [|intros ?]
  | |- steps _ (forEach _ _) => apply (steps_forEach same_shape); intros ?
  | |- steps _ (mapM _ _) => apply (steps_mapM same_shape); intros ?
  | |- steps _ (if ?b then _ else _) => destruct b
  | |- steps _ (match ?x with Some _ => _ | None => _ end) => destruct x
  end.

Lemma shape_verb reg n c args : steps same_shape (verb reg n c args).
Proof. unfold verb, record. repeat shape_step. Qed.

Lemma shape_componentNames c : steps same_shape (componentNames c).
Proof.
  apply shape_pointwise. intros w. unfold componentNames.
  destruct (objects w !! c) as [o|].
  - destruct (nameHook (cls o)) as [names|].
    + exists (callHook c HkName [] ;;; ret names).
      split; [repeat shape_step | reflexivity].
    + exists (ret [lcfirst (ctorName (cls o))]).
      split; [repeat shape_step | reflexivity].
  - exists (throw (VError "TypeError")).
    split; [repeat shape_step | reflexivity].
Qed.

Lemma shape_componentMix c : steps same_shape (componentMix c).
Proof.
  apply shape_pointwise. intros w. unfold componentMix.
  destruct (objects w !! c) as [o|].
  - destruct (mixHook (cls o)) as [keys|].
    + exists (callHook c HkMix [] ;;; ret keys).
      split; [repeat shape_step | reflexivity].
    + exists (ret []). split; [repeat shape_step | reflexivity].
  - exists (throw (VError "TypeError")).
    split; [repeat shape_step | reflexivity].
Qed.

Lemma shape_install reg C : steps same_shape (install reg C).
Proof.
  unfold install, registerComponent, register.
  repeat first [ apply shape_verb | apply shape_componentNames
               | apply shape_componentMix | shape_step ].
  destruct C; [|apply (steps_ret same_shape)]. intros w. by apply shape_fixed.
Qed.

Lemma shape_api this : steps same_shape (api this).
Proof.
  unfold api, installAll. repeat first [apply shape_install | shape_step].
Qed.

Lemma shape_run_handler h data : steps same_shape (run_handler h data).
Proof.
  destruct h; simpl; unfold eligible, applyBabelConfig, applyRules,
    applyPlugins; repeat shape_step.
Qed.

Lemma shape_whileCurrent this callback :
  steps same_shape (callback this) ->
  steps same_shape (whileCurrent this callback).
Proof.
  apply (steps_whileCurrent same_shape).
  - intros w. by apply shape_fixed.
  - apply shape_popCurrent.
  - intros p j w. unfold same_shape, promise_finally.
    by destruct (promises w !! root p) as [[[s|] rs]|].
Qed.

Lemma shape_dispatch this event v :
  steps same_shape (dispatch this event (DVal v)).
Proof.
  unfold dispatch. apply shape_async, shape_whileCurrent. unfold fire.
  repeat first [apply shape_run_handler | shape_step].
Qed.

Lemma shape_awaitAll vs : steps same_shape (awaitAll vs).
Proof.
  intros w. unfold awaitAll.
  destruct (all_results (run_microtasks w) vs); apply shape_run_microtasks.
Qed.

Lemma shape_boot this : steps same_shape (boot this).
Proof.
  intros w. unfold boot. destruct (ctx_booted w this); [reflexivity|].
  simpl. unfold same_shape, listen, upd_ctx. simpl.
  case_decide; destruct (sees _ _); simpl;
    by rewrite !fmap_alter_same by (by intros []).
Qed.

Lemma shape_pipeline this :
  steps same_shape (installDependencies this) /\
  steps same_shape (init this) /\
  steps same_shape (build this).
Proof.
  unfold installDependencies, init, build, dispatchToChildren,
    webpackConfig_build.
  split_and!;
    repeat first [ apply shape_dispatch | apply shape_awaitAll
                 | apply shape_boot | shape_step ];
    intros w; by apply shape_fixed.
Qed.

Lemma heap_tree_steps {A} (m : M A) :
  steps same_shape m -> hoare heap_tree m heap_tree.
Proof. intros H w Hw. eapply heap_tree_same_shape; [apply H | exact Hw]. Qed.

Lemma ctx_children_newMix m w p :
  children m = [] ->
  ctx_children (set_contexts (fun l => l ++ [m]) w) p = ctx_children w p.
Proof.
  intros Hm. unfold ctx_children. simpl.
  destruct (decide (p < length (contexts w))) as [Hlt|Hge].
  - by rewrite lookup_app_l.
  - rewrite lookup_app_r by lia.
    rewrite (lookup_ge_None_2 (contexts w)) by lia.
    by destruct (p - length (contexts w)) as [|[|k]].
Qed.

Lemma heap_tree_newMix_world m w :
  children m = [] -> heap_tree w ->
  heap_tree (set_contexts (fun l => l ++ [m]) w).
Proof.
  intros Hm [H1 H2 H3].
  assert (Hc : forall p c,
             child_of (set_contexts (fun l => l ++ [m]) w) p c
             <-> child_of w p c).
  { intros p c. unfold child_of. by rewrite ctx_children_newMix. }
  split.
  - intros p c H%Hc. apply H1 in H. simpl. rewrite length_app. simpl. lia.
  - intros p1 p2 c ?%Hc ?%Hc. eauto.
  - intros p. by rewrite ctx_children_newMix.
Qed.

Lemma heap_tree_newMix o : hoare heap_tree (newMix o) heap_tree.
Proof. intros w Hw. by apply heap_tree_newMix_world. Qed.

Lemma heap_tree_get_primary : hoare heap_tree get_primary heap_tree.
Proof.
  intros w Hw. unfold get_primary. destruct (primary w); [done|]. simpl.
  apply (heap_tree_same_shape (snd (newMix None w))).
  - by apply (shape_fixed (set_primary _)).
  - by apply heap_tree_newMix_world.
Qed.

(** Where [withChild] starts its callback, the new child hangs below its
    parent. *)
Lemma heap_tree_child_entry this n w :
  this < length (contexts w) -> heap_tree w ->
  heap_tree (child_entry this n w).
Proof.
  intros Hthis Hw. set (c := length (contexts w)).
  set (w1 := snd (newMix (Some n) w)).
  assert (H1 : heap_tree w1) by (by apply heap_tree_newMix_world).
  set (w2 := snd (boot c w1)).
  assert (Hs2 : same_shape w1 w2) by apply shape_boot.
  assert (H2 : heap_tree w2) by (by eapply heap_tree_same_shape).
  assert (Hlen : length (contexts w2) = S c).
  { rewrite (same_shape_length _ _ Hs2). simpl. rewrite length_app.
    simpl. unfold c. lia. }
  assert (Hch2 : forall p, ctx_children w2 p = ctx_children w p).
  { intros p. rewrite (same_shape_children _ _ _ Hs2).
    by apply ctx_children_newMix. }
  assert (He : child_entry this n w
               = upd_ctx this (set_children (fun l => l ++ [c])) w2).
  { assert (Hb : fst (boot c w1) = Ok c)
      by (unfold boot; by destruct (ctx_booted w1 c)).
    unfold child_entry, w2. unfold bind at 1. unfold bind at 1.
    change (newMix (Some n) w) with (Ok c, w1).
    destruct (boot c w1) as [r wb]. simpl in Hb. by subst r. }
  rewrite He.
  assert (Hch3 : forall p,
             ctx_children (upd_ctx this (set_children (fun l => l ++ [c])) w2)
               p
             = if decide (p = this) then ctx_children w this ++ [c]
               else ctx_children w p).
  { intros p. unfold ctx_children at 1. simpl.
    destruct (decide (p = this)) as [->|Hne].
    - rewrite list_lookup_alter_eq. rewrite <- Hch2. unfold ctx_children.
      assert (is_Some (contexts w2 !! this)) as [m Hm]
        by (apply lookup_lt_is_Some; lia).
      by rewrite Hm.
    - rewrite list_lookup_alter_ne by done. apply Hch2. }
  destruct Hw as [Ho Hp Hn].
  assert (Hfresh : forall p, c ∉ ctx_children w p).
  { intros p Hin. apply Ho in Hin. unfold c in Hin. lia. }
  split.
  - intros p k. unfold child_of. rewrite Hch3. simpl. rewrite length_alter, Hlen.
    case_decide as Hd; [subst p|].
    + intros [Hin|Hin]%elem_of_app.
      * apply Ho in Hin. lia.
      * apply list_elem_of_singleton in Hin as ->. lia.
    + intros Hin. apply Ho in Hin. lia.
  - intros p1 p2 k. unfold child_of. rewrite !Hch3.
    repeat case_decide; subst; try done.
    + intros [Hin|Hin]%elem_of_app Hin2.
      * by eapply Hp.
      * apply list_elem_of_singleton in Hin as ->. by apply Hfresh in Hin2.
    + intros Hin1 [Hin|Hin]%elem_of_app.
      * by eapply Hp.
      * apply list_elem_of_singleton in Hin as ->. by apply Hfresh in Hin1.
    + apply Hp.
  - intros p. rewrite Hch3. case_decide; [|apply Hn].
    apply NoDup_app. split_and!; [apply Hn| |apply NoDup_singleton].
    intros k Hk ->%list_elem_of_singleton. by apply Hfresh in Hk.
Qed.

Lemma heap_tree_withChild this n (callback : CtxId -> M JSVal) :
  (forall c, hoare heap_tree (callback c) heap_tree) ->
  hoare (fun w => heap_tree w /\ this < length (contexts w))
    (withChild this n callback) heap_tree.
Proof.
  intros Hcb w [Hw Hthis]. rewrite withChild_unfold.
  apply (hoare_whileCurrent heap_tree heap_tree heap_tree).
  - intros w' Hw'. eapply heap_tree_same_shape; [|exact Hw'].
    by apply shape_fixed.
  - apply Hcb.
  - intros w' Hw'. eapply heap_tree_same_shape; [|exact Hw'].
    apply shape_popCurrent.
  - intros p j w' Hw'. eapply heap_tree_same_shape; [|exact Hw'].
    unfold same_shape, promise_finally.
    by destruct (promises w' !! root p) as [[[s|] rs]|].
  - by apply heap_tree_child_entry.
Qed.

Lemma heap_tree_on_context ctx m :
  hoare (fun w => heap_tree w /\ ctx < length (contexts w)) m heap_tree ->
  hoare heap_tree (on_context ctx m) heap_tree.
Proof.
  intros H. unfold on_context. apply hoare_gets.
  intros [] w [Hw Hd]; [|done]. apply H. split; [done|].
  by apply bool_decide_eq_true in Hd.
Qed.

Lemma heap_tree_run_op o : hoare heap_tree (run_op o) heap_tree.
Proof.
  induction o as [| | | | | | | | | |p n body IH] using Op_induction; simpl.
  1: { eapply hoare_bind; [apply heap_tree_get_primary | done |].
       intros c. apply hoare_ret. }
  1: { eapply hoare_bind; [apply heap_tree_newMix | done |].
       intros c. apply hoare_ret. }
  1-8: (apply heap_tree_on_context;
        eapply hoare_conseq; [by intros w [? _] | by intros w ? |]).
  - apply heap_tree_steps. repeat first [apply shape_boot | shape_step].
  - apply heap_tree_steps, shape_install.
  - apply heap_tree_steps, shape_api.
  - apply heap_tree_steps. apply (steps_bind same_shape); [shape_step|].
    intros [[]|]; simpl; repeat first [apply shape_verb | shape_step].
  - apply heap_tree_steps, shape_dispatch.
  - apply heap_tree_steps, shape_pipeline.
  - apply heap_tree_steps, shape_pipeline.
  - apply heap_tree_steps, shape_pipeline.
  - apply heap_tree_on_context. unfold Group_register.
    apply hoare_gets. intros g.
    match goal with |- hoare _ (if ?b then _ else _) _ => destruct b end;
      [by intros w [[? _] _]|].
    eapply hoare_bind with (Q := heap_tree); [|done|intros _; apply hoare_ret].
    eapply hoare_conseq; [| |apply heap_tree_withChild].
    + by intros w [? _].
    + done.
    + intros c. eapply hoare_bind;
        [apply heap_tree_steps, shape_api | done |].
      intros _. induction IH as [|o body Ho _ IHb]; [apply hoare_ret|].
      eapply hoare_bind; [exact Ho | done | intros _; exact IHb].
Qed.

(** Every world that a build script and the pipeline can produce has a
    tree of contexts. *)
Lemma heap_tree_run_ops l : heap_tree (run_ops l world0).
Proof.
  assert (H0 : heap_tree world0).
  { split.
    - intros p c H. unfold child_of, ctx_children in H. simpl in H.
      by apply not_elem_of_nil in H.
    - intros p1 p2 c H. unfold child_of, ctx_children in H. simpl in H.
      by apply not_elem_of_nil in H.
    - intros p. unfold ctx_children. simpl. apply NoDup_nil_2. }
  unfold run_ops. revert H0. generalize world0.
  induction l as [|o l IH]; intros w Hw; [done|].
  simpl. apply IH. by apply heap_tree_run_op.
Qed.

(** * Further properties of the embedded code *)

(** ** [Mix.primary] *)

(** X1.  [Mix.primary] makes the primary context on the first access only:
    the access returns a context that is the primary one from then on, a
    second access returns the same context and changes nothing; when there
    was none, the context returned is new, not booted, named 'Mix', and
    neither the stack nor the log has changed. *)
Theorem primary_is_created_once (w : World) :
  exists p w1,
    get_primary w = (Ok p, w1) /\
    primary w1 = Some p /\
    get_primary w1 = (Ok p, w1) /\
    match primary w with
    | Some q => p = q /\ w1 = w
    | None =>
        p = length (contexts w) /\
        contexts w1
        = contexts w ++ [mkMix "Mix" false false [] None [] [] ∅ [] false] /\
        ctx_booted w1 p = false /\
        current w1 = current w /\ log w1 = log w
    end.
Proof.
  unfold get_primary. destruct (primary w) as [q|] eqn:Hp.
  - exists q, w. by rewrite Hp.
  - simpl. eexists _, _. split; [reflexivity|]. simpl. split_and!; try done.
    unfold ctx_booted. simpl. by rewrite list_lookup_middle.
Qed.

(** ** [boot] *)

(** X2.  [boot] does its work once: on a context that exists it returns the
    context; the first call marks it booted, pushes it on the stack (once),
    subscribes the hot-reloading listener to 'init' (once) and loads the
    environment file when the context is the primary one; any later call
    changes nothing. *)
Theorem boot_works_once (this : CtxId) (w : World) :
  this < length (contexts w) ->
  let w1 := snd (boot this w) in
  fst (boot this w) = Ok this /\
  ctx_booted w1 this = true /\
  boot this w1 = (Ok this, w1) /\
  current w1 = current w ++ (if ctx_booted w this then [] else [this]) /\
  handlers_for "init" (ctx_listeners w1 this)
  = handlers_for "init" (ctx_listeners w this)
    ++ (if ctx_booted w this then [] else [HHotRecord this]) /\
  log w1 = log w ++ (if ctx_booted w this then []
                     else if decide (primary w = Some this) then [EvDotenv]
                          else []).
Proof.
  intros Hthis w1.
  assert (Hb : ctx_booted w1 this = true) by (by apply ctx_booted_boot).
  split_and!.
  - unfold boot. by destruct (ctx_booted w this).
  - exact Hb.
  - unfold boot at 1. by rewrite Hb.
  - unfold w1, boot. destruct (ctx_booted w this); simpl;
      [by rewrite app_nil_r|]. case_decide; destruct (sees _ _); reflexivity.
  - apply lookup_lt_is_Some_2 in Hthis as [m Hm].
    unfold w1, boot. destruct (ctx_booted w this); simpl;
      [by rewrite app_nil_r|].
    unfold ctx_listeners, handlers_for, listen, upd_ctx. simpl.
    case_decide; destruct (sees _ _); simpl;
      rewrite !list_lookup_alter_eq, Hm; simpl;
      by rewrite filter_app, fmap_app.
  - unfold w1, boot. destruct (ctx_booted w this); simpl;
      [by rewrite app_nil_r|].
    unfold listen, upd_ctx. simpl.
    repeat case_decide; destruct (sees _ _); simpl; try done;
      by rewrite ?app_nil_r.
Qed.

(** X2, witness: booting the primary context, twice. *)
Lemma boot_works_once_witness :
  0 < length (contexts unbooted_world) /\
  current (snd (boot 0 unbooted_world)) = [0] /\
  log (snd (boot 0 unbooted_world)) = [EvDotenv] /\
  boot 0 (snd (boot 0 unbooted_world)) = (Ok 0, snd (boot 0 unbooted_world)).
Proof.
  assert (H : 0 < length (contexts unbooted_world)) by (vm_compute; lia).
  split; [exact H|].
  destruct (boot_works_once 0 unbooted_world H) as (_ & _ & H3 & H4 & _ & H6).
  split_and!; [exact H4 | exact H6 | exact H3].
Defined.

(** ** The stack and the globals *)

(** X3.  Pushing a context and popping again gives back the stack; the
    globals are then those of the context now on top, and those of the
    pushed context when the stack is empty: [popCurrent] has no context to
    make current, and the globals keep pointing at the context that was
    popped. *)
Theorem pop_push_globals (this that : CtxId) (w : World) :
  popCurrent that (pushCurrent this w)
  = set_globals (Some (default this (last (current w)))) w.
Proof.
  destruct w as [cs pr cur g ch os ps ms lg mg ar mo].
  unfold popCurrent, pushCurrent, makeCurrent, set_current, set_globals.
  simpl. rewrite removelast_last. destruct (last cur); reflexivity.
Qed.

(** The globals name the context on top of the stack. *)
Definition tracks_top (w : World) : Prop :=
  current w <> [] ->
  globalMix w = last (current w) /\ chunksCurrent w = last (current w).

(** ** Relations that every call observes *)

(** A preorder on worlds holds between the world before and the world after
    every call of the embedded code as soon as it holds across the state
    changes the calls are made of: a change that leaves the stack, the
    globals, the promises and the queue alone, the creation of a promise,
    the draining of the queue, a scoped call and (for [boot] and what calls
    it) a push. *)
Section Everywhere.
Variable R : relation World.
Context `{!PreOrder R}.
Hypothesis R_heap : forall w w',
  current w' = current w -> globalMix w' = globalMix w ->
  chunksCurrent w' = chunksCurrent w -> promises w' = promises w ->
  microtasks w' = microtasks w -> R w w'.
Hypothesis R_alloc : forall c w, R w (snd (alloc_promise c w)).
Hypothesis R_drain : forall w, R w (run_microtasks w).
Hypothesis R_while : forall this (callback : CtxId -> M JSVal),
  steps R (callback this) -> steps R (whileCurrent this callback).
Hypothesis R_push : forall this w, R w (pushCurrent this w).

Lemma every_await v : steps R (await v).
Proof. intros w. rewrite await_state. apply R_drain. Qed.

Lemma every_callHook c h args : steps R (callHook c h args).
Proof.
  intros w. unfold callHook. destruct (objects w !! c); [|reflexivity].
  by apply R_heap.
Qed.

Lemma every_pointwise {A} (m : M A) :
  (forall w, exists m' : M A, steps R m' /\ m w = m' w) -> steps R m.
Proof. intros H w. destruct (H w) as (m' & Hs & ->). apply Hs. Qed.

Ltac every_step :=
  lazymatch goal with
  | |- steps _ (ret _) => apply (steps_ret R)
  | |- steps _ (throw _) => apply (steps_throw R)
  | |- steps _ (gets _) => apply (steps_gets R)
  | |- steps _ (await _) => apply every_await
  | |- steps _ (callHook _ _ _) => apply every_callHook
  | |- steps _ (async _) => apply (steps_async R); [exact R_alloc|]
  | |- steps _ (whileCurrent _ _) => apply R_while
  | |- steps _ (exec _) =>
      apply (steps_exec R); intros ?; by apply R_heap
  | |- steps _ (bind _ _) => apply (steps_bind R); [|intros ?]
  | |- steps _ (forEach _ _) => apply (steps_forEach R); intros ?
  | |- steps _ (mapM _ _) => apply (steps_mapM R); intros ?
  | |- steps _ (if ?b then _ else _) => destruct b
  | |- steps _ (match ?x with Some _ => _ | None => _ end) => destruct x
  end.

Lemma every_verb reg n c args : steps R (verb reg n c args).
Proof. unfold verb, record. repeat every_step. Qed.

Lemma every_componentNames c : steps R (componentNames c).
Proof.
  apply every_pointwise. intros w. unfold componentNames.
  destruct (objects w !! c) as [o|].
  - destruct (nameHook (cls o)) as [names|].
    + exists (callHook c HkName [] ;;; ret names).
      split; [repeat every_step | reflexivity].
    + exists (ret [lcfirst (ctorName (cls o))]).
      split; [repeat every_step | reflexivity].
  - exists (throw (VError "TypeError")).
    split; [repeat every_step | reflexivity].
Qed.

Lemma every_componentMix c : steps R (componentMix c).
Proof.
  apply every_pointwise. intros w. unfold componentMix.
  destruct (objects w !! c) as [o|].
  - destruct (mixHook (cls o)) as [keys|].
    + exists (callHook c HkMix [] ;;; ret keys).
      split; [repeat every_step | reflexivity].
    + exists (ret []). split; [repeat every_step | reflexivity].
  - exists (throw (VError "TypeError")).
    split; [repeat every_step | reflexivity].
Qed.

Lemma every_install reg C : steps R (install reg C).
Proof.
  unfold install, registerComponent, register.
  repeat first [ apply every_verb | apply every_componentNames
               | apply every_componentMix | every_step ].
  destruct C; [|apply (steps_ret R)]. intros w. by apply R_heap.
Qed.

Lemma every_api this : steps R (api this).
Proof.
  unfold api, installAll. repeat first [apply every_install | every_step].
Qed.

Lemma every_call f args : steps R (call f args).
Proof. destruct f; simpl; repeat first [apply every_verb | every_step]. Qed.

Lemma every_run_handler h data : steps R (run_handler h data).
Proof.
  destruct h; simpl; unfold eligible, applyBabelConfig, applyRules,
    applyPlugins; repeat every_step.
Qed.

Lemma every_fire this event data : steps R (fire this event data).
Proof.
  unfold fire. repeat first [apply every_run_handler | every_step].
Qed.

Lemma every_dispatch this event v : steps R (dispatch this event (DVal v)).
Proof.
  unfold dispatch. repeat first [apply every_fire | every_step].
Qed.

Lemma every_awaitAll vs : steps R (awaitAll vs).
Proof.
  intros w. unfold awaitAll.
  destruct (all_results (run_microtasks w) vs); apply R_drain.
Qed.

Lemma every_dispatchToChildren this event v :
  steps R (dispatchToChildren this event (DVal v)).
Proof.
  unfold dispatchToChildren.
  repeat first [apply every_dispatch | apply every_awaitAll | every_step].
Qed.

Lemma every_installDependencies this : steps R (installDependencies this).
Proof.
  unfold installDependencies.
  repeat first [ apply every_dispatch | apply every_dispatchToChildren
               | every_step ].
Qed.

Lemma every_init this : steps R (init this).
Proof.
  unfold init.
  repeat first [ apply every_dispatch | apply every_dispatchToChildren
               | every_step ].
Qed.

Lemma every_boot this : steps R (boot this).
Proof.
  intros w. unfold boot. destruct (ctx_booted w this); [reflexivity|].
  simpl. etrans; [|apply R_push].
  apply R_heap; unfold listen, upd_ctx;
    case_decide; destruct (sees _ _); reflexivity.
Qed.

Lemma every_build this : steps R (build this).
Proof.
  unfold build, webpackConfig_build.
  repeat first [apply every_boot | apply every_awaitAll | every_step].
  intros w. apply R_alloc.
Qed.

Lemma every_withChild this n (callback : CtxId -> M JSVal) :
  (forall c, steps R (callback c)) -> steps R (withChild this n callback).
Proof.
  intros H. unfold withChild.
  repeat first [apply every_boot | every_step]; [|apply H].
  intros w. by apply R_heap.
Qed.

Lemma every_on_context ctx m : steps R m -> steps R (on_context ctx m).
Proof. intros H. unfold on_context. by repeat every_step. Qed.

Lemma every_run_op o : steps R (run_op o).
Proof.
  induction o as [| | | | | | | | | |p n body IH] using Op_induction; simpl;
    try apply every_on_context.
  - apply (steps_bind R); [|intros ?; apply (steps_ret R)].
    intros w. unfold get_primary. destruct (primary w); simpl;
      [reflexivity | by apply R_heap].
  - apply (steps_bind R); [|intros ?; apply (steps_ret R)].
    intros w. by apply R_heap.
  - apply (steps_bind R); [apply every_boot|intros ?; apply (steps_ret R)].
  - apply every_install.
  - apply every_api.
  - apply (steps_bind R); [apply (steps_gets R)|].
    intros [f|]; [apply every_call | apply (steps_throw R)].
  - apply every_dispatch.
  - apply every_installDependencies.
  - apply every_init.
  - apply every_build.
  - unfold Group_register. apply (steps_bind R); [apply (steps_gets R)|].
    intros g.
    match goal with |- steps _ (if ?b then _ else _) => destruct b end;
      [apply (steps_ret R)|].
    apply (steps_bind R); [|intros ?; apply (steps_ret R)].
    apply every_withChild. intros c.
    apply (steps_bind R); [apply every_api|]. intros _.
    induction IH as [|o body Ho _ IHb]; [apply (steps_ret R)|].
    apply (steps_bind R); [exact Ho | intros _; exact IHb].
Qed.

Lemma every_run_ops l w : R w (run_ops l w).
Proof.
  unfold run_ops. revert w. induction l as [|o l IH]; intros w; [reflexivity|].
  simpl. etrans; [apply every_run_op | apply IH].
Qed.
End Everywhere.

(** The relation of an invariant: it holds afterwards if it held before. *)
Definition keeps (P : World -> Prop) : relation World :=
  fun w w' => P w -> P w'.

#[global] Instance keeps_preorder P : PreOrder (keeps P).
Proof.
  split; [intros w H; exact H | intros w1 w2 w3 H1 H2 H; exact (H2 (H1 H))].
Qed.

Lemma tracks_top_pushCurrent this w : tracks_top (pushCurrent this w).
Proof. intros _. simpl. by rewrite last_snoc. Qed.

Lemma tracks_top_popCurrent this w : tracks_top (popCurrent this w).
Proof.
  unfold popCurrent. simpl.
  destruct (last (removelast (current w))) as [c|] eqn:Hl.
  - intros _. simpl. by rewrite Hl.
  - intros H. simpl in H. by apply last_None in Hl.
Qed.

Lemma tracks_top_run_microtasks w :
  tracks_top w -> tracks_top (run_microtasks w).
Proof.
  unfold run_microtasks. intros H.
  assert (H0 : tracks_top (set_microtasks (fun _ => []) w)) by exact H.
  revert H0. generalize (set_microtasks (fun _ => []) w).
  induction (microtasks w) as [|[this] js IH]; intros w1 H1; [exact H1|].
  simpl. apply IH, tracks_top_popCurrent.
Qed.

(** X4.  Whatever a build script and the pipeline do, whenever a context is
    on the stack the globals ([global.Mix], [global.Config], the current
    chunks) are those of the context on top of it. *)
Theorem globals_track_top (ops : list Op) : tracks_top (run_ops ops world0).
Proof.
  assert (H : keeps tracks_top world0 (run_ops ops world0)); [|by apply H].
  apply (every_run_ops (keeps tracks_top)).
  - intros w w' Hc Hg Hch _ _ H. unfold tracks_top in *. by rewrite Hc, Hg, Hch.
  - intros c w H. exact H.
  - intros w. exact (tracks_top_run_microtasks w).
  - intros this callback. apply (steps_whileCurrent (keeps tracks_top)).
    + intros w _. exact (tracks_top_pushCurrent this w).
    + intros w _. exact (tracks_top_popCurrent this w).
    + intros p j w H. unfold promise_finally.
      by destruct (promises w !! root p) as [[[s|] rs]|].
  - intros this w _. exact (tracks_top_pushCurrent this w).
Qed.

(** X4, witness: after a group on the booted primary context the stack is
    not empty and the globals are those of the group. *)
Lemma globals_track_top_witness :
  current (run_ops [OpPrimary; OpBoot 0; OpGroup 0 "a" []] world0) = [0; 1] /\
  globalMix (run_ops [OpPrimary; OpBoot 0; OpGroup 0 "a" []] world0) = Some 1.
Proof.
  split; [reflexivity|].
  apply (globals_track_top [OpPrimary; OpBoot 0; OpGroup 0 "a" []]).
  discriminate.
Defined.

(** ** Activation *)

Lemma grows_run_ops (ops : list Op) (w : World) : grows w (run_ops ops w).
Proof.
  unfold run_ops. revert w. induction ops as [|o l IH]; intros w; [reflexivity|].
  simpl. etrans; [apply (proj2 (good_run_op o)) | apply IH].
Qed.

(** X5.  Nothing takes an activation back: a component that is activated
    stays activated through whatever the script and the pipeline do next,
    and what has been logged stays logged. *)
Theorem activation_is_kept (ops : list Op) (w : World) (c : CompId) :
  obj_activated w c = true ->
  obj_activated (run_ops ops w) c = true /\
  log w `prefix_of` log (run_ops ops w).
Proof.
  intros H. split.
  - eapply grows_activated; [apply grows_run_ops | exact H].
  - apply grows_run_ops.
Qed.

(** X5, witness: Vue, activated by its verb, is still activated after the
    pipeline has run. *)
Lemma activation_is_kept_witness :
  obj_activated (run_ops vue_build world0) 1 = true /\
  obj_activated
    (run_ops [OpInit 0; OpInstallDependencies 0; OpBuild 0]
       (run_ops vue_build world0)) 1 = true.
Proof.
  assert (H : obj_activated (run_ops vue_build world0) 1 = true)
    by reflexivity.
  split; [exact H|].
  exact (proj1 (activation_is_kept
                  [OpInit 0; OpInstallDependencies 0; OpBuild 0] _ 1 H)).
Defined.

(** X6.  A component gets activated by a call of one of its verb callables
    and in no other way: in every world a script and the pipeline can
    produce, an activated component has a verb call in the log. *)
Theorem activated_by_verb_only (ops : list Op) (c : CompId) :
  obj_activated (run_ops ops world0) c = true ->
  exists reg n args, EvVerb reg n c args ∈ log (run_ops ops world0).
Proof. apply (inv_activated _ (Inv_run_ops ops)). Qed.

(** X6, witness: Vue in [vue_build]. *)
Lemma activated_by_verb_only_witness :
  obj_activated (run_ops vue_build world0) 1 = true /\
  exists reg n args, EvVerb reg n 1 args ∈ log (run_ops vue_build world0).
Proof.
  assert (H : obj_activated (run_ops vue_build world0) 1 = true)
    by reflexivity.
  split; [exact H|]. exact (activated_by_verb_only vue_build 1 H).
Defined.

(** ** [withChild] *)

(** X7.  [withChild] makes the child, boots it and enters it in the
    parent's [children] before the callback runs, and runs the callback as a
    scoped call of the child; the other contexts keep their children.  When
    the callback throws, the error comes out of [withChild] and nothing is
    taken back: the contexts are as the callback left them, the child
    among them. *)
Theorem withChild_attaches_child (this : CtxId) (name : string)
    (callback : CtxId -> M JSVal) (w : World) :
  this < length (contexts w) ->
  let child := length (contexts w) in
  let w0 := child_entry this name w in
  withChild this name callback w = whileCurrent child callback w0 /\
  contexts w0 !! child
  = Some (mkMix name true false []
            (if artisan w then Some "public" else None) []
            [("init", HHotRecord child)] ∅ [] false) /\
  (forall i, ctx_children w0 i
             = ctx_children w i ++ (if decide (i = this) then [child] else [])) /\
  globalMix w0 = Some child /\
  forall e w2, callback child (pushCurrent child w0) = (Throw e, w2) ->
    fst (withChild this name callback w) = Throw e /\
    contexts (snd (withChild this name callback w)) = contexts w2.
Proof.
  intros Hthis child w0.
  assert (Hne : this <> child) by (unfold child; lia).
  apply lookup_lt_is_Some_2 in Hthis as [m Hm].
  assert (Hs : forall x, sees "laravel" x = artisan x)
    by (intros x; unfold sees; by rewrite decide_True).
  assert (He : contexts w0
               = alter (set_children (fun l => l ++ [child])) this
                   (contexts w ++
                    [mkMix name true false []
                       (if artisan w then Some "public" else None) []
                       [("init", HHotRecord child)] ∅ [] false])).
  { unfold w0, child_entry, bind, newMix, boot, exec, ctx_booted, child.
    simpl. rewrite lookup_app_r by lia. rewrite Nat.sub_diag. simpl.
    rewrite Hs. unfold listen, upd_ctx.
    case_decide; simpl; destruct (artisan w); simpl;
      repeat (rewrite alter_app_r_alt by (simpl; lia);
              rewrite Nat.sub_diag; simpl); reflexivity. }
  split_and!.
  - apply withChild_unfold.
  - rewrite He, list_lookup_alter_ne by done.
    by rewrite list_lookup_middle.
  - intros i. unfold ctx_children. rewrite He.
    destruct (decide (i = this)) as [->|Hi].
    + rewrite list_lookup_alter_eq.
      rewrite lookup_app_l by (by eapply lookup_lt_Some).
      by rewrite Hm.
    + rewrite list_lookup_alter_ne by done. rewrite app_nil_r.
      destruct (decide (i < child)) as [Hlt|Hge].
      * by rewrite lookup_app_l.
      * rewrite lookup_app_r by (unfold child in Hge; lia).
        rewrite (lookup_ge_None_2 (contexts w)) by (unfold child in Hge; lia).
        by destruct (i - length (contexts w)) as [|[|j]].
  - unfold w0, child_entry, bind, newMix, boot, exec, ctx_booted, child.
    simpl. rewrite lookup_app_r by lia. rewrite Nat.sub_diag. reflexivity.
  - intros e w2 Hcb. rewrite withChild_unfold. fold child w0.
    unfold whileCurrent. rewrite Hcb. simpl. split; [done|].
    unfold popCurrent. simpl. by destruct (last (removelast (current w2))).
Qed.

(** X7, witness: a group whose callback throws is still a child of the
    primary context. *)
Lemma withChild_attaches_child_witness :
  0 < length (contexts booted_world) /\
  withChild 0 "a" (fun _ => throw (VError "no")) booted_world
  = whileCurrent 1 (fun _ => throw (VError "no"))
      (child_entry 0 "a" booted_world) /\
  fst (withChild 0 "a" (fun _ => throw (VError "no")) booted_world)
  = Throw (VError "no") /\
  ctx_children (snd (withChild 0 "a" (fun _ => throw (VError "no"))
                       booted_world)) 0 = [1].
Proof.
  assert (H : 0 < length (contexts booted_world)) by (vm_compute; lia).
  split; [exact H|].
  destruct (withChild_attaches_child 0 "a" (fun _ => throw (VError "no"))
              booted_world H) as (H1 & _ & _ & _ & H5).
  split; [exact H1|].
  destruct (H5 (VError "no") _ eq_refl) as [H6 _].
  split; [exact H6 | reflexivity].
Defined.

(** ** [Group.register] *)

(** X8.  With MIX_GROUP set to the name of another group, [register] with a
    callback skips the group altogether: it returns undefined, no context
    is made and the world is as it was. *)
Theorem Group_register_skips (parent : CtxId) (name : string)
    (cb : JSVal -> CtxId -> M JSVal) (w : World) (g : string) :
  MIX_GROUP w = Some g -> g <> name -> g <> "" ->
  Group_register parent name (Some cb) w = (Ok VUndefined, w).
Proof.
  intros Hg Hn He. unfold Group_register. rewrite bind_gets, Hg.
  rewrite bool_decide_eq_false_2 by congruence.
  by rewrite bool_decide_eq_false_2 by done.
Qed.

(** X8, witness: the group 'admin' when MIX_GROUP is 'site'. *)
Lemma Group_register_skips_witness :
  Group_register 0 "admin" (Some (fun _ _ => ret VUndefined))
    (mkWorld [] None [] None None [] [] [] [] (Some "site") false [])
  = (Ok VUndefined,
     mkWorld [] None [] None None [] [] [] [] (Some "site") false []).
Proof. by apply (Group_register_skips 0 "admin" _ _ "site"). Defined.

(** ** The name a component is registered under *)


(** ** [dispatch] *)

(** X10.  When the data of a [dispatch] is a function, it is called with the
    context pushed; if it throws, the event is not fired at all, the promise
    of [dispatch] is rejected with the error (nothing is thrown at the
    caller) and the entry pushed for the call is popped again. *)
Theorem dispatch_data_throws (this : CtxId) (event : string) (f : M JSVal)
    (w w2 : World) (e : JSVal) :
  f (pushCurrent this w) = (Throw e, w2) ->
  exists p w',
    dispatch this event (DFun f) w = (Ok (VPromise p), w') /\
    promise_state w' p = Some (Rejected e) /\
    log w' = log w2 /\
    contexts w' = contexts w2 /\
    current w' = removelast (current w2).
Proof.
  intros Hf.
  destruct (async_state
              (whileCurrent this
                 (fun _ => d <- f ;; fire this event d)) w
              (Throw e) (popCurrent this w2))
    as (w' & Ha & Hc & Hl & Hcur & Hp); [|done|].
  { unfold whileCurrent. erewrite bind_Throw by exact Hf. reflexivity. }
  eexists _, w'. split; [exact Ha|]. split; [exact Hp|].
  rewrite Hl, Hc, Hcur, current_popCurrent.
  unfold popCurrent. simpl. by destruct (last (removelast (current w2))).
Qed.

(** X10, witness: a data function that throws, on the booted primary
    context. *)
Lemma dispatch_data_throws_witness :
  exists p w',
    dispatch 0 "init" (DFun (throw (VError "no data"))) booted_world
    = (Ok (VPromise p), w') /\
    promise_state w' p = Some (Rejected (VError "no data")) /\
    fired (log w') = [] /\
    current w' = [0].
Proof.
  destruct (dispatch_data_throws 0 "init" (throw (VError "no data"))
              booted_world _ (VError "no data") eq_refl)
    as (p & w' & Hd & Hp & Hl & _ & Hc).
  exists p, w'. split; [exact Hd|]. split; [exact Hp|].
  rewrite Hl, Hc. split; reflexivity.
Defined.

(** X11.  [dispatchToChildren] fires the event on every child of the
    context, in the order of [children], whatever the handlers of the
    children do: a child whose handler fails or never finishes does not
    keep the event from the children after it.  It fires nothing on the
    context itself, and with no child its promise is fulfilled with the
    empty list. *)
Theorem dispatchToChildren_reaches_all (this : CtxId) (event : string)
    (v : JSVal) (w : World) :
  exists p w',
    dispatchToChildren this event (DVal v) w = (Ok (VPromise p), w') /\
    fired (log w') = fired (log w)
                     ++ ((fun c => (c, event)) <$> ctx_children w this) /\
    (ctx_children w this = [] ->
     promise_state w' p = Some (Fulfilled (VArray []))).
Proof.
  destruct (dispatchToChildren_effect this event v w)
    as (p & w' & Hd & _ & _ & Hf).
  exists p, w'. split; [exact Hd|]. split; [exact Hf|].
  intros Hc. revert Hd. unfold dispatchToChildren.
  destruct (async_state
              (cs <- gets (fun w => ctx_children w this) ;;
               promises <- mapM (fun child => dispatch child event (DVal v))
                             cs ;;
               awaitAll promises) w (Ok (VArray [])) (run_microtasks w))
    as (w'' & Ha & _ & _ & _ & Hp); [|done|].
  { rewrite bind_gets, Hc. reflexivity. }
  rewrite Ha. intros [= <- <-]. exact Hp.
Qed.

(** ** [init] and [installDependencies] *)

(** X12.  [init] runs once for a context: after a first call, whether its
    promise was fulfilled, rejected or is still pending, a second call
    fires nothing, changes no context and returns a fulfilled promise.  (So
    an initialisation that failed is not tried again.) *)
Theorem init_runs_once (this : CtxId) (w : World) :
  this < length (contexts w) ->
  let w1 := snd (init this w) in
  exists p w2,
    init this w1 = (Ok (VPromise p), w2) /\
    promise_state w2 p = Some (Fulfilled VUndefined) /\
    log w2 = log w1 /\ contexts w2 = contexts w1 /\ current w2 = current w1.
Proof.
  intros Hthis w1.
  assert (Hi : ctx_initialized w1 this = true).
  { unfold w1, init. destruct (ctx_initialized w this) eqn:Hi.
    - destruct (async_state
                  (i <- gets (fun w => ctx_initialized w this) ;;
                   if i then ret VUndefined
                   else exec (upd_ctx this (set_initialized true)) ;;;
                        p1 <- dispatch this "init" (DVal (VMix this)) ;;
                        await p1 ;;;
                        p2 <- dispatchToChildren this "init"
                                (DVal (VMix this)) ;;
                        await p2 ;;;
                        ret VUndefined) w (Ok VUndefined) w)
        as (w' & Ha & Hc & _); [|done|].
      { by rewrite bind_gets, Hi. }
      rewrite Ha. simpl. unfold ctx_initialized in *. by rewrite Hc.
    - destruct (init_body this w Hthis)
        as (r & wb & rest & Hb & Hr & Hi1 & _).
      destruct (async_state
                  (i <- gets (fun w => ctx_initialized w this) ;;
                   if i then ret VUndefined
                   else exec (upd_ctx this (set_initialized true)) ;;;
                        p1 <- dispatch this "init" (DVal (VMix this)) ;;
                        await p1 ;;;
                        p2 <- dispatchToChildren this "init"
                                (DVal (VMix this)) ;;
                        await p2 ;;;
                        ret VUndefined) w r wb)
        as (w' & Ha & Hc & _); [|done|].
      { by rewrite bind_gets, Hi. }
      rewrite Ha. simpl. unfold ctx_initialized in *. by rewrite Hc. }
  clearbody w1.
  destruct (async_state
              (i <- gets (fun w => ctx_initialized w this) ;;
               if i then ret VUndefined
               else exec (upd_ctx this (set_initialized true)) ;;;
                    p1 <- dispatch this "init" (DVal (VMix this)) ;;
                    await p1 ;;;
                    p2 <- dispatchToChildren this "init"
                            (DVal (VMix this)) ;;
                    await p2 ;;;
                    ret VUndefined) w1 (Ok VUndefined) w1)
    as (w2 & Ha & Hc & Hl & Hcur & Hp); [|done|].
  { by rewrite bind_gets, Hi. }
  by exists (PCell (length (promises w1))), w2.
Qed.

(** X12, witness: initialising the primary context of [two_groups]
    twice. *)
Lemma init_runs_once_witness :
  0 < length (contexts two_groups) /\
  fired (log (snd (init 0 two_groups)))
  = [(0, "init"); (1, "init"); (2, "init")] /\
  exists p w2,
    init 0 (snd (init 0 two_groups)) = (Ok (VPromise p), w2) /\
    fired (log w2) = [(0, "init"); (1, "init"); (2, "init")].
Proof.
  assert (H : 0 < length (contexts two_groups)) by (vm_compute; lia).
  split; [exact H|]. split; [vm_compute; reflexivity|].
  destruct (init_runs_once 0 two_groups H) as (p & w2 & Hi & _ & Hl & _).
  exists p, w2. split; [exact Hi|]. rewrite Hl. vm_compute. reflexivity.
Defined.

(** ** The stack across the pipeline *)

(** How the promise of an async function settles, by the completion of its
    body. *)
Definition settlement (r : Res JSVal) : option Settlement :=
  match r with
  | Ok v => Some (Fulfilled v)
  | Throw e => Some (Rejected e)
  | Stall => None
  end.

Lemma async_alloc (body : M JSVal) w r w1 :
  body w = (r, w1) -> (forall p, r <> Ok (VPromise p)) ->
  async body w
  = (Ok (VPromise (PCell (length (promises w1)))),
     set_promises (fun l => l ++ [mkCell (settlement r) []]) w1).
Proof.
  intros Hb Hr. unfold async. rewrite Hb.
  destruct r as [v|e|]; [|reflexivity..].
  destruct v; try reflexivity. by destruct (Hr p).
Qed.

(** What [fire] runs before its promise is made. *)
Definition fire_body (this : CtxId) (event : string) (data : JSVal)
    : M JSVal :=
  exec (emit (EvFire this event data)) ;;;
  hs <- gets (fun w => handlers_for event (ctx_listeners w this)) ;;
  forEach hs (fun h => r <- run_handler h data ;; await r ;;; ret tt) ;;;
  ret VUndefined.

Lemma fire_body_result this event data w p :
  fst (fire_body this event data w) <> Ok (VPromise p).
Proof.
  unfold fire_body. rewrite bind_exec, bind_gets. unfold bind.
  destruct (forEach _ _ _) as [[[]|e|] w1]; simpl; congruence.
Qed.

Section FireBody.
Variable R : relation World.
Context `{!PreOrder R}.
Hypothesis R_heap : forall w w',
  current w' = current w -> globalMix w' = globalMix w ->
  chunksCurrent w' = chunksCurrent w -> promises w' = promises w ->
  microtasks w' = microtasks w -> R w w'.
Hypothesis R_drain : forall w, R w (run_microtasks w).

Lemma every_fire_body this event data : steps R (fire_body this event data).
Proof.
  unfold fire_body.
  apply (steps_bind R);
    [apply (steps_exec R); intros w; by apply R_heap|intros _].
  apply (steps_bind R); [apply (steps_gets R)|intros hs].
  apply (steps_bind R); [|intros _; apply (steps_ret R)].
  apply (steps_forEach R). intros h.
  apply (steps_bind R); [by apply every_run_handler|intros r].
  apply (steps_bind R); [|intros _; apply (steps_ret R)].
  by apply every_await.
Qed.
End FireBody.

(** With nothing queued, running the handlers of an event leaves the stack,
    the queue and the promises alone. *)
Definition undisturbed (w w' : World) : Prop :=
  promises w' = promises w /\
  (microtasks w = [] -> microtasks w' = [] /\ current w' = current w).

#[global] Instance undisturbed_preorder : PreOrder undisturbed.
Proof.
  split; [by intros w|].
  intros w1 w2 w3 [H1 H1'] [H2 H2']. split; [congruence|].
  intros H. destruct (H1' H) as [Hm Hc]. destruct (H2' Hm) as [Hm' Hc'].
  split; congruence.
Qed.

Lemma undisturbed_fire_body this event data w :
  undisturbed w (snd (fire_body this event data w)).
Proof.
  apply (every_fire_body undisturbed).
  - intros w1 w2 Hc _ _ Hp Hm. split; [done|]. intros H. split; congruence.
  - intros w1. split; [apply promises_run_microtasks|]. intros H.
    unfold run_microtasks. rewrite H. done.
Qed.

(** What [dispatch] comes to: the handlers run with the context pushed, the
    promise of [fire] is made, and the pop is queued when that promise has
    settled, left on the promise when it is pending. *)
Lemma dispatch_cell this event v w :
  exists r w1 w',
    fire_body this event v (pushCurrent this w) = (r, w1) /\
    dispatch this event (DVal v) w
    = (Ok (VPromise (PFinally (PCell (length (promises w1))))), w') /\
    current w' = current w1 /\
    promises w'
    = promises w1
      ++ [mkCell (settlement r)
            (match settlement r with
             | Some _ => []
             | None => [JPopCurrent this]
             end)] /\
    microtasks w'
    = microtasks w1 ++ (match settlement r with
                        | Some _ => [JPopCurrent this]
                        | None => []
                        end).
Proof.
  destruct (fire_body this event v (pushCurrent this w)) as [r w1] eqn:Hb.
  assert (Hr : forall p, r <> Ok (VPromise p)).
  { intros p. pose proof (fire_body_result this event v (pushCurrent this w) p)
      as H. by rewrite Hb in H. }
  exists r, w1.
  assert (Hf : fire this event v (pushCurrent this w)
               = (Ok (VPromise (PCell (length (promises w1)))),
                  set_promises (fun l => l ++ [mkCell (settlement r) []]) w1))
    by (by apply async_alloc).
  unfold dispatch, async, whileCurrent. rewrite bind_ret, Hf.
  unfold promise_finally. simpl root. simpl promises.
  rewrite list_lookup_middle by done.
  destruct (settlement r) as [s|]; simpl.
  - eexists. split_and!; reflexivity.
  - eexists. split_and!; [reflexivity..| |].
    + simpl. rewrite (insert_app_r_alt _ _ (length (promises w1))) by lia.
      by rewrite Nat.sub_diag.
    + simpl. by rewrite app_nil_r.
Qed.

(** X13.  Awaiting a [dispatch] made with nothing queued leaves the stack
    as it was, whether the handlers succeeded or failed; only when a
    handler never finishes is the caller left waiting, with the context
    still on the stack. *)
Theorem dispatch_await_restores (this : CtxId) (event : string) (v : JSVal)
    (w : World) :
  microtasks w = [] ->
  let rw := (p <- dispatch this event (DVal v) ;; await p) w in
  match fst rw with
  | Stall => current (snd rw) = current w ++ [this]
  | _ => current (snd rw) = current w /\ microtasks (snd rw) = []
  end.
Proof.
  intros Hm rw.
  destruct (dispatch_cell this event v w)
    as (r & w1 & w' & Hb & Hd & Hc & Hp & Hq).
  destruct (undisturbed_fire_body this event v (pushCurrent this w))
    as [Hp1 Hu].
  rewrite Hb in Hp1, Hu. simpl in Hp1, Hu. destruct (Hu Hm) as [Hm1 Hc1].
  rewrite Hm1 in Hq. rewrite Hc1 in Hc. simpl in Hq.
  assert (Hst : promise_state (run_microtasks w')
                  (PFinally (PCell (length (promises w1))))
                = settlement r).
  { unfold promise_state. rewrite promises_run_microtasks, Hp. simpl.
    by rewrite list_lookup_middle. }
  assert (Hcur : current (run_microtasks w')
                 = match settlement r with
                   | Some _ => current w
                   | None => current w ++ [this]
                   end).
  { rewrite current_run_microtasks, Hq, Hc.
    destruct (settlement r); simpl; [apply removelast_last | done]. }
  assert (Hmt : microtasks (run_microtasks w') = []).
  { unfold run_microtasks.
    generalize (microtasks w'). intros js.
    assert (H : microtasks (set_microtasks (fun _ => []) w') = [])
      by reflexivity.
    revert H. generalize (set_microtasks (fun _ => []) w').
    induction js as [|[c] js IH]; intros w2 H2; [exact H2|].
    simpl. apply IH. unfold popCurrent. simpl.
    by destruct (last (removelast (current w2))). }
  unfold rw. erewrite bind_Ok by exact Hd. unfold await. rewrite Hst.
  destruct r as [x|e|]; simpl in *; auto.
Qed.

(** X13, witness: the 'init' event on the primary context of
    [installed_world]. *)
Lemma dispatch_await_restores_witness :
  microtasks installed_world = [] /\
  fst ((p <- dispatch 0 "init" (DVal (VMix 0)) ;; await p) installed_world)
  = Ok VUndefined /\
  current (snd ((p <- dispatch 0 "init" (DVal (VMix 0)) ;; await p)
                  installed_world))
  = current installed_world.
Proof.
  assert (H : microtasks installed_world = []) by reflexivity.
  split; [exact H|].
  assert (Hr : fst ((p <- dispatch 0 "init" (DVal (VMix 0)) ;; await p)
                      installed_world) = Ok VUndefined)
    by (vm_compute; reflexivity).
  split; [exact Hr|].
  pose proof (dispatch_await_restores 0 "init" (VMix 0) installed_world H)
    as Hd.
  cbv zeta in Hd. rewrite Hr in Hd. exact (proj1 Hd).
Defined.

(** The pops still to come: the reactions in the queue and those waiting on
    a promise that has not settled (every reaction is a [popCurrent]). *)
Definition cell_pops (c : PromiseCell) : nat :=
  match settled c with
  | None => length (reactions c)
  | Some _ => 0
  end.

Definition pending_pops (w : World) : nat :=
  sum_list_with cell_pops (promises w).

Definition owed (w : World) : nat := length (microtasks w) + pending_pops w.

(** [balanced w w']: if the top of the stack of [w] is made of the entries
    whose pops are still to come, then so is the top of the stack of [w'],
    above the same entries. *)
Definition balanced (w w' : World) : Prop :=
  forall base xs, current w = base ++ xs -> length xs = owed w ->
    exists ys, current w' = base ++ ys /\ length ys = owed w'.

#[global] Instance balanced_preorder : PreOrder balanced.
Proof.
  split.
  - intros w base xs H1 H2. by exists xs.
  - intros w1 w2 w3 H12 H23 base xs H1 H2.
    destruct (H12 base xs H1 H2) as (ys & H3 & H4).
    exact (H23 base ys H3 H4).
Qed.

Lemma balanced_heap w w' :
  current w' = current w -> globalMix w' = globalMix w ->
  chunksCurrent w' = chunksCurrent w -> promises w' = promises w ->
  microtasks w' = microtasks w -> balanced w w'.
Proof.
  intros Hc _ _ Hp Hm base xs H1 H2. exists xs.
  unfold owed, pending_pops in *. by rewrite Hc, Hp, Hm.
Qed.

Lemma iter_removelast_app (n : nat) (base xs : list CtxId) :
  n <= length xs ->
  Nat.iter n (@removelast nat) (base ++ xs) = base ++ take (length xs - n) xs.
Proof.
  induction n as [|n IH]; intros Hn.
  - simpl. by rewrite Nat.sub_0_r, firstn_all.
  - simpl. rewrite IH by lia.
    rewrite removelast_app.
    + f_equal. replace (length xs - n) with (S (length xs - S n)) by lia.
      apply removelast_firstn. lia.
    + intros H. apply (f_equal length) in H. rewrite length_take in H.
      simpl in H. lia.
Qed.

Lemma balanced_drain w : balanced w (run_microtasks w).
Proof.
  intros base xs H1 H2. unfold owed in H2.
  exists (take (length xs - length (microtasks w)) xs). split.
  - rewrite current_run_microtasks, H1. apply iter_removelast_app. lia.
  - rewrite length_take. unfold owed, pending_pops.
    rewrite promises_run_microtasks.
    assert (Hm : microtasks (run_microtasks w) = []).
    { unfold run_microtasks. generalize (microtasks w). intros js.
      assert (H : microtasks (set_microtasks (fun _ => []) w) = [])
        by reflexivity.
      revert H. generalize (set_microtasks (fun _ => []) w).
      induction js as [|[c] js IH]; intros w2 Hw2; [exact Hw2|].
      simpl. apply IH. unfold popCurrent. simpl.
      by destruct (last (removelast (current w2))). }
    rewrite Hm. simpl. unfold pending_pops in H2. lia.
Qed.

Lemma balanced_alloc s w :
  balanced w (set_promises (fun l => l ++ [mkCell s []]) w).
Proof.
  intros base xs H1 H2. exists xs. split; [exact H1|].
  unfold owed, pending_pops in *. simpl. rewrite sum_list_with_app. simpl.
  revert H2. generalize (sum_list_with cell_pops (promises w)). intros n H2.
  destruct s; unfold cell_pops; simpl; lia.
Qed.

Lemma balanced_async (body : M JSVal) :
  steps balanced body -> steps balanced (async body).
Proof.
  intros Hb w. unfold async. specialize (Hb w).
  destruct (body w) as [[v|e|] w1]; simpl in *;
    [destruct v; simpl; try exact Hb| |];
    (etrans; [exact Hb | apply balanced_alloc]).
Qed.

Lemma balanced_dispatch this event v :
  steps balanced (dispatch this event (DVal v)).
Proof.
  intros w base xs H1 H2.
  destruct (dispatch_cell this event v w)
    as (r & w1 & w' & Hb & Hd & Hc & Hp & Hq).
  rewrite Hd. simpl.
  pose proof (every_fire_body balanced balanced_heap balanced_drain
                this event v (pushCurrent this w)) as Hf.
  rewrite Hb in Hf. simpl in Hf.
  assert (exists x0 xs', xs ++ [this] = x0 :: xs' /\ length xs' = length xs)
    as (x0 & xs' & Hx & Hl).
  { destruct xs as [|x xs]; [by exists this, []|].
    exists x, (xs ++ [this]). split; [done|]. rewrite length_app. simpl. lia. }
  destruct (Hf (base ++ [x0]) xs') as (ys & Hy1 & Hy2).
  { simpl. rewrite H1, <- !app_assoc. simpl. by rewrite Hx. }
  { by rewrite Hl, H2. }
  exists (x0 :: ys). split.
  - rewrite Hc, Hy1, <- app_assoc. done.
  - simpl. rewrite Hy2. unfold owed, pending_pops. rewrite Hp, Hq.
    rewrite sum_list_with_app, length_app. simpl.
    generalize (sum_list_with cell_pops (promises w1)). intros n.
    destruct (settlement r); unfold cell_pops; simpl; lia.
Qed.

Lemma balanced_awaitAll vs : steps balanced (awaitAll vs).
Proof.
  intros w. unfold awaitAll.
  destruct (all_results (run_microtasks w) vs); apply balanced_drain.
Qed.

Lemma balanced_await v : steps balanced (await v).
Proof. intros w. rewrite await_state. apply balanced_drain. Qed.

Lemma balanced_dispatchToChildren this event v :
  steps balanced (dispatchToChildren this event (DVal v)).
Proof.
  unfold dispatchToChildren. apply balanced_async.
  apply (steps_bind balanced); [apply (steps_gets balanced)|intros cs].
  apply (steps_bind balanced); [|intros ps; apply balanced_awaitAll].
  apply (steps_mapM balanced). intros c. apply balanced_dispatch.
Qed.

Lemma balanced_rounds this event v (k : M JSVal) :
  steps balanced k ->
  steps balanced
    (p1 <- dispatch this event (DVal v) ;;
     await p1 ;;;
     p2 <- dispatchToChildren this event (DVal v) ;;
     await p2 ;;;
     k).
Proof.
  intros Hk.
  apply (steps_bind balanced); [apply balanced_dispatch|intros p1].
  apply (steps_bind balanced); [apply balanced_await|intros _].
  apply (steps_bind balanced); [apply balanced_dispatchToChildren|intros p2].
  apply (steps_bind balanced); [apply balanced_await|intros _]. exact Hk.
Qed.

Lemma balanced_init this : steps balanced (init this).
Proof.
  unfold init. apply balanced_async.
  apply (steps_bind balanced); [apply (steps_gets balanced)|intros i].
  destruct i; [apply (steps_ret balanced)|].
  apply (steps_bind balanced).
  - apply (steps_exec balanced). intros w. by apply balanced_heap.
  - intros _. apply balanced_rounds, (steps_ret balanced).
Qed.

Lemma balanced_installDependencies this :
  steps balanced (installDependencies this).
Proof.
  unfold installDependencies. apply balanced_async, balanced_rounds.
  apply (steps_bind balanced); [|intros _; apply (steps_ret balanced)].
  apply (steps_exec balanced). intros w. by apply balanced_heap.
Qed.

(** X14.  [init] and [installDependencies], called when no pop is owed,
    leave the stack as it was but for one entry above it for every pop they
    still owe: one queued, or one waiting on the promise of a handler that
    has not finished.  Nothing that was on the stack is removed. *)
Theorem pipeline_balances_stack (this : CtxId) (w : World) :
  owed w = 0 ->
  (exists ys, current (snd (init this w)) = current w ++ ys /\
              length ys = owed (snd (init this w))) /\
  (exists ys, current (snd (installDependencies this w)) = current w ++ ys /\
              length ys = owed (snd (installDependencies this w))).
Proof.
  intros H. split.
  - apply (balanced_init this w (current w) []); [by rewrite app_nil_r|done].
  - apply (balanced_installDependencies this w (current w) []);
      [by rewrite app_nil_r|done].
Qed.

(** A passive component whose [dependencies] hook never returns. *)
Definition Hanging : ComponentClass :=
  mkClass "Hanging" None None true false
    (fun h => match h with HkDependencies => true | _ => false end)
    (fun h _ => match h with HkDependencies => Stall | _ => Ok VUndefined end).

Definition hanging_world : World :=
  snd (install 0 (IClass Hanging) booted_world).

(** X14, witness: the gathering of dependencies hangs on the component, the
    pop of the dispatch waits on its promise, and the context stays on the
    stack once more. *)
Lemma pipeline_balances_stack_witness :
  owed hanging_world = 0 /\
  current hanging_world = [0] /\
  current (snd (installDependencies 0 hanging_world)) = [0; 0] /\
  owed (snd (installDependencies 0 hanging_world)) = 1.
Proof.
  assert (H : owed hanging_world = 0) by reflexivity.
  split; [exact H|]. split; [reflexivity|].
  assert (Hc : current (snd (installDependencies 0 hanging_world)) = [0; 0])
    by (vm_compute; reflexivity).
  split; [exact Hc|].
  destruct (pipeline_balances_stack 0 hanging_world H) as [_ (ys & H1 & H2)].
  rewrite <- H2. rewrite Hc in H1.
  change (current hanging_world) with [0] in H1.
  injection H1 as <-. reflexivity.
Defined.

Lemma bind_Ok_inv {A B} (m : M A) (k : A -> M B) w b w' :
  bind m k w = (Ok b, w') ->
  exists a w1, m w = (Ok a, w1) /\ k a w1 = (Ok b, w').
Proof.
  unfold bind. destruct (m w) as [[a|e|] w1]; [eauto|discriminate..].
Qed.

Definition not_promise (r : Res JSVal) : Prop :=
  forall p, r <> Ok (VPromise p).

Lemma not_promise_bind {A} (m : M A) (k : A -> M JSVal) w :
  (forall a w1, not_promise (fst (k a w1))) ->
  not_promise (fst (bind m k w)).
Proof.
  intros H. unfold bind. destruct (m w) as [[a|e|] w1]; [apply H|done..].
Qed.

Lemma microtasks_run_microtasks w : microtasks (run_microtasks w) = [].
Proof.
  unfold run_microtasks. generalize (microtasks w). intros js.
  assert (H : microtasks (set_microtasks (fun _ => []) w) = [])
    by reflexivity.
  revert H. generalize (set_microtasks (fun _ => []) w).
  induction js as [|[c] js IH]; intros w2 Hw2; [exact Hw2|].
  simpl. apply IH. unfold popCurrent. simpl.
  by destruct (last (removelast (current w2))).
Qed.

Lemma pending_pops_run_microtasks w :
  pending_pops (run_microtasks w) = pending_pops w.
Proof. unfold pending_pops. by rewrite promises_run_microtasks. Qed.

(** When the awaited promise of a [dispatch] is fulfilled, no pop is left
    waiting on it. *)
Lemma dispatch_settled this event v w x w' :
  (p <- dispatch this event (DVal v) ;; await p) w = (Ok x, w') ->
  pending_pops w' = pending_pops w /\ microtasks w' = [].
Proof.
  intros H.
  destruct (dispatch_cell this event v w)
    as (r & w1 & wd & Hb & Hd & Hc & Hp & Hq).
  destruct (undisturbed_fire_body this event v (pushCurrent this w))
    as [Hp1 _].
  rewrite Hb in Hp1. simpl in Hp1.
  erewrite bind_Ok in H by exact Hd. unfold await in H.
  assert (Hst : promise_state (run_microtasks wd)
                  (PFinally (PCell (length (promises w1))))
                = settlement r).
  { unfold promise_state. rewrite promises_run_microtasks, Hp. simpl.
    by rewrite list_lookup_middle. }
  rewrite Hst in H. destruct r as [y|e|]; simpl in H; try discriminate.
  injection H as _ <-. split; [|apply microtasks_run_microtasks].
  rewrite pending_pops_run_microtasks. unfold pending_pops.
  rewrite Hp, Hp1, sum_list_with_app. simpl.
  generalize (sum_list_with cell_pops (promises w)). intros n.
  unfold cell_pops. simpl. lia.
Qed.

Lemma mapM_dispatch_settled event v (cs : list CtxId) w :
  exists ps w' cells,
    mapM (fun child => dispatch child event (DVal v)) cs w = (Ok ps, w') /\
    promises w' = promises w ++ cells /\
    forall w'' rs, promises w'' = promises w' ->
      all_results w'' ps = Ok rs -> sum_list_with cell_pops cells = 0.
Proof.
  revert w. induction cs as [|c cs IH]; intros w.
  { exists [], w, []. split_and!; [done|by rewrite app_nil_r|done]. }
  destruct (dispatch_cell c event v w)
    as (r & w1 & wd & Hb & Hd & Hc & Hp & Hq).
  destruct (undisturbed_fire_body c event v (pushCurrent c w)) as [Hp1 _].
  rewrite Hb in Hp1. simpl in Hp1.
  destruct (IH wd) as (ps & w' & cells & Hm & Hp' & Hall).
  eexists (_ :: ps), w', (_ :: cells). split_and!.
  - simpl. erewrite bind_Ok by exact Hd. erewrite bind_Ok by exact Hm.
    reflexivity.
  - rewrite Hp', Hp, Hp1, <- app_assoc. reflexivity.
  - intros w'' rs Hw'' Hrs. simpl in Hrs.
    assert (Hst : promise_state w'' (PFinally (PCell (length (promises w1))))
                  = settlement r).
    { unfold promise_state. rewrite Hw'', Hp', Hp, <- app_assoc. simpl.
      by rewrite list_lookup_middle. }
    rewrite Hst in Hrs.
    destruct r as [y|e|]; simpl in Hrs;
      destruct (all_results w'' ps) as [rs'|e'|] eqn:Ha; try discriminate.
    simpl. rewrite (Hall w'' rs') by done. reflexivity.
Qed.

Lemma dispatchToChildren_settled this event v w x w' :
  (p <- dispatchToChildren this event (DVal v) ;; await p) w = (Ok x, w') ->
  pending_pops w' = pending_pops w /\ microtasks w' = [].
Proof.
  intros H.
  destruct (mapM_dispatch_settled event v (ctx_children w this) w)
    as (ps & wm & cells & Hm & Hp & Hall).
  set (body := cs <- gets (fun w => ctx_children w this) ;;
               promises <- mapM (fun child => dispatch child event (DVal v))
                             cs ;;
               awaitAll promises).
  assert (Hb : exists r, body w = (r, run_microtasks wm) /\ not_promise r /\
                 (forall y, r = Ok y ->
                    exists rs, all_results (run_microtasks wm) ps = Ok rs)).
  { unfold body. rewrite bind_gets. erewrite bind_Ok by exact Hm.
    unfold awaitAll.
    destruct (all_results (run_microtasks wm) ps) as [rs|e|];
      eexists; (split; [reflexivity|]); split; try done; eauto. }
  destruct Hb as (r & Hb & Hr & Hok).
  unfold dispatchToChildren in H. fold body in H.
  erewrite bind_Ok in H by (by apply async_alloc).
  unfold await in H.
  assert (Hst : promise_state
                  (run_microtasks
                     (set_promises (fun l => l ++ [mkCell (settlement r) []])
                        (run_microtasks wm)))
                  (PCell (length (promises (run_microtasks wm))))
                = settlement r).
  { unfold promise_state. rewrite !promises_run_microtasks. simpl.
    rewrite promises_run_microtasks. by rewrite list_lookup_middle. }
  rewrite Hst in H. destruct r as [y|e|]; simpl in H; try discriminate.
  injection H as _ <-. split; [|apply microtasks_run_microtasks].
  destruct (Hok y eq_refl) as [rs Hrs].
  rewrite pending_pops_run_microtasks. unfold pending_pops. simpl.
  rewrite promises_run_microtasks, Hp, !sum_list_with_app. simpl.
  rewrite (Hall (run_microtasks wm) rs);
    [|apply promises_run_microtasks|done].
  generalize (sum_list_with cell_pops (promises w)). intros n.
  unfold cell_pops. simpl. lia.
Qed.

Lemma rounds_settled this event v (k : M JSVal) w x w' :
  (forall w1 y w2, k w1 = (Ok y, w2) ->
     promises w2 = promises w1 /\ microtasks w2 = microtasks w1) ->
  (p1 <- dispatch this event (DVal v) ;;
   await p1 ;;;
   p2 <- dispatchToChildren this event (DVal v) ;;
   await p2 ;;;
   k) w = (Ok x, w') ->
  pending_pops w' = pending_pops w /\ microtasks w' = [].
Proof.
  intros Hk H.
  assert (H1 : ((p1 <- dispatch this event (DVal v) ;; await p1) ;;;
                (p2 <- dispatchToChildren this event (DVal v) ;; await p2) ;;;
                k) w = (Ok x, w')).
  { rewrite <- H. unfold bind.
    destruct (dispatch this event (DVal v) w) as [[a|e|] wa]; try done.
    destruct (await a wa) as [[b|e|] wb]; try done.
    destruct (dispatchToChildren this event (DVal v) wb) as [[c|e|] wc];
      try done. }
  apply bind_Ok_inv in H1 as (a & w1 & Ha & H1).
  apply bind_Ok_inv in H1 as (b & w2 & Hb & H1).
  apply dispatch_settled in Ha as [Ha1 Ha2].
  apply dispatchToChildren_settled in Hb as [Hb1 Hb2].
  apply Hk in H1 as [Hk1 Hk2]. unfold pending_pops in *. split; congruence.
Qed.

(** X15.  When the promise of [init], or of [installDependencies], is
    fulfilled, and no pop was owed when it was called, the stack is exactly
    as it was before the call. *)
Theorem fulfilled_pipeline_restores_stack (this : CtxId) (w : World) :
  owed w = 0 ->
  (forall p w' v,
     init this w = (Ok (VPromise p), w') ->
     promise_state w' p = Some (Fulfilled v) -> current w' = current w) /\
  (forall p w' v,
     installDependencies this w = (Ok (VPromise p), w') ->
     promise_state w' p = Some (Fulfilled v) -> current w' = current w).
Proof.
  intros Hw.
  assert (Hm : microtasks w = []).
  { unfold owed in Hw. destruct (microtasks w); [done|simpl in Hw; lia]. }
  assert (Hpp : pending_pops w = 0) by (unfold owed in Hw; lia).
  assert (Hend : forall (m : World -> Res JSVal * World) p w' v r wb,
             m w = (Ok (VPromise p), w') ->
             m w = (Ok (VPromise (PCell (length (promises wb)))),
                    set_promises (fun l => l ++ [mkCell (settlement r) []]) wb)
             ->
             promise_state w' p = Some (Fulfilled v) ->
             (forall y, r = Ok y -> pending_pops wb = 0 /\ microtasks wb = []) ->
             (exists ys, current w' = current w ++ ys /\ length ys = owed w') ->
             current w' = current w).
  { intros m p w' v r wb H1 H2 Hp Hr (ys & Hy1 & Hy2).
    rewrite H1 in H2. injection H2 as -> ->.
    unfold promise_state in Hp. simpl in Hp.
    rewrite list_lookup_middle in Hp by done. simpl in Hp.
    destruct r as [y|e|]; simpl in Hp; try discriminate.
    destruct (Hr y eq_refl) as [Hr1 Hr2].
    unfold owed, pending_pops in Hy2. simpl in Hy2.
    rewrite Hr2, sum_list_with_app in Hy2. unfold pending_pops in Hr1.
    rewrite Hr1 in Hy2. simpl in Hy2. unfold cell_pops in Hy2. simpl in Hy2.
    destruct ys; [|discriminate]. by rewrite app_nil_r in Hy1. }
  split; intros p w' v Hi Hp.
  - set (body := i <- gets (fun w => ctx_initialized w this) ;;
                 if i then ret VUndefined
                 else exec (upd_ctx this (set_initialized true)) ;;;
                      p1 <- dispatch this "init" (DVal (VMix this)) ;;
                      await p1 ;;;
                      p2 <- dispatchToChildren this "init"
                              (DVal (VMix this)) ;;
                      await p2 ;;;
                      ret VUndefined).
    destruct (body w) as [r wb] eqn:Hb.
    assert (Hr : not_promise r).
    { replace r with (fst (body w)) by (by rewrite Hb). unfold body.
      apply not_promise_bind. intros [] w1; [done|].
      repeat (apply not_promise_bind; intros ? ?). done. }
    eapply (Hend (init this)); [exact Hi| |exact Hp| |].
    + by apply async_alloc.
    + intros y ->. unfold body in Hb. rewrite bind_gets in Hb.
      destruct (ctx_initialized w this).
      * injection Hb as _ <-. done.
      * rewrite bind_exec in Hb.
        eapply rounds_settled in Hb as [Hb1 Hb2].
        -- split; [|exact Hb2]. rewrite Hb1. exact Hpp.
        -- intros w1 z w2 [= _ <-]. done.
    + pose proof (balanced_init this w (current w) []) as Hbal.
      rewrite Hi in Hbal. apply Hbal; [by rewrite app_nil_r|done].
  - set (body := p1 <- dispatch this "internal:gather-dependencies"
                         (DVal VUndefined) ;;
                 await p1 ;;;
                 p2 <- dispatchToChildren this "internal:gather-dependencies"
                         (DVal VUndefined) ;;
                 await p2 ;;;
                 exec (emit EvInstallQueued) ;;;
                 ret VUndefined).
    destruct (body w) as [r wb] eqn:Hb.
    assert (Hr : not_promise r).
    { replace r with (fst (body w)) by (by rewrite Hb). unfold body.
      repeat (apply not_promise_bind; intros ? ?). done. }
    eapply (Hend (installDependencies this)); [exact Hi| |exact Hp| |].
    + by apply async_alloc.
    + intros y ->. unfold body in Hb.
      eapply rounds_settled in Hb as [Hb1 Hb2].
      * split; [|exact Hb2]. rewrite Hb1. exact Hpp.
      * intros w1 z w2 [= _ <-]. done.
    + pose proof (balanced_installDependencies this w (current w) []) as Hbal.
      rewrite Hi in Hbal. apply Hbal; [by rewrite app_nil_r|done].
Qed.

(** X15, witness: [init] on the primary context of [two_groups], whose
    children have a listener each. *)
Lemma fulfilled_pipeline_restores_stack_witness :
  owed two_groups = 0 /\
  promise_state (snd (init 0 two_groups)) (PCell 4)
  = Some (Fulfilled VUndefined) /\
  current (snd (init 0 two_groups)) = current two_groups.
Proof.
  assert (H : owed two_groups = 0) by reflexivity.
  assert (Hp : promise_state (snd (init 0 two_groups)) (PCell 4)
               = Some (Fulfilled VUndefined)) by (vm_compute; reflexivity).
  split; [exact H|]. split; [exact Hp|].
  refine (proj1 (fulfilled_pipeline_restores_stack 0 two_groups H)
            (PCell 4) _ VUndefined _ Hp).
  vm_compute. reflexivity.
Defined.

(** * The API table of the registrar *)

(** The entries of [this.components] stay as they are. *)
Definition same_components (w w' : World) : Prop :=
  components <$> contexts w' = components <$> contexts w.

#[global] Instance same_components_preorder : PreOrder same_components.
Proof.
  split; [done|]. intros w1 w2 w3 H1 H2. unfold same_components in *.
  congruence.
Qed.

Lemma same_components_lookup w w' i :
  same_components w w' ->
  ctx_components w' i = ctx_components w i /\
  length (contexts w') = length (contexts w).
Proof.
  intros H. split.
  - unfold ctx_components.
    apply (f_equal (fun l => l !! i)) in H. rewrite !list_lookup_fmap in H.
    destruct (contexts w' !! i), (contexts w !! i); simpl in *; congruence.
  - apply (f_equal length) in H. by rewrite !length_fmap in H.
Qed.

Lemma same_components_callHook c h args :
  steps same_components (callHook c h args).
Proof. intros w. unfold callHook. by destruct (objects w !! c). Qed.

Lemma same_components_verb reg n c args :
  steps same_components (verb reg n c args).
Proof.
  unfold verb, record.
  repeat first
    [ apply same_components_callHook
    | apply (steps_ret same_components)
    | apply (steps_gets same_components)
    | apply (steps_bind same_components); [|intros ?]
    | match goal with |- steps _ (if ?b then _ else _) => destruct b end
    | apply (steps_exec same_components); intros ?;
      first [ reflexivity
            | unfold same_components; simpl; apply fmap_alter_same;
              by intros [] ] ].
Qed.

Lemma same_components_componentMix c w :
  same_components w (snd (componentMix c w)).
Proof.
  unfold componentMix. destruct (objects w !! c) as [o|]; [|done].
  destruct (mixHook (cls o)); [|done].
  unfold bind. pose proof (same_components_callHook c HkMix [] w) as H.
  by destruct (callHook c HkMix [] w) as [[v|e|] w1].
Qed.

Lemma componentNames_effect c k w :
  is_instance w c k -> install_hooks_return k ->
  exists w',
    componentNames c w
    = (Ok (default [lcfirst (ctorName k)] (nameHook k)), w') /\
    objects w' = objects w /\ contexts w' = contexts w.
Proof.
  intros (o & Ho & <-) Hret. unfold componentNames. rewrite Ho.
  destruct (nameHook (cls o)) as [names|]; simpl; [|by eexists].
  destruct (Hret HkName) as [v Hv]; [set_solver|].
  erewrite bind_Ok by (by eapply callHook_Ok). by eexists.
Qed.

(** What one registration under the name [n] writes: the verb callable
    under [n], then the function of each key of [component.mix()] under
    that key. *)
Definition publish (reg : CtxId) (c : CompId) (keys : list string)
    (n : string) (m : gmap string Callable) : gmap string Callable :=
  foldl (fun m key => <[key := CRaw c key]> m) (<[n := CVerb reg n c]> m) keys.

Lemma lookup_foldl_insert {V} (f : string -> V) (keys : list string)
    (m : gmap string V) (x : string) :
  foldl (fun m key => <[key := f key]> m) m keys !! x
  = if decide (x ∈ keys) then Some (f x) else m !! x.
Proof.
  revert m. induction keys as [|key keys IH]; intros m; simpl foldl.
  { rewrite decide_False; [done | apply not_elem_of_nil]. }
  rewrite IH. destruct (decide (x ∈ keys)) as [Hin|Hnin].
  - rewrite decide_True; [done | by right].
  - destruct (decide (x = key)) as [->|Hne].
    + rewrite lookup_insert_eq. rewrite decide_True; [done | by left].
    + rewrite lookup_insert_ne by done.
      rewrite decide_False; [done|]. by intros [?|?]%elem_of_cons.
Qed.

Lemma mix_keys_publish reg c k (keys : list string) w :
  is_instance w c k -> install_hooks_return k -> reg < length (contexts w) ->
  exists w',
    forEach keys (fun key =>
      componentMix c ;;;
      exec (upd_ctx reg (set_components (<[key := CRaw c key]>)))) w
    = (Ok tt, w') /\
    is_instance w' c k /\ reg < length (contexts w') /\
    ctx_components w' reg
    = foldl (fun m key => <[key := CRaw c key]> m) (ctx_components w reg) keys.
Proof.
  intros Hi Hret. revert w Hi.
  induction keys as [|key keys IH]; intros w Hi Hreg; simpl.
  { by exists w. }
  destruct (componentMix_effect c k w Hi Hret) as (w1 & l1 & Hm & Ho1 & _).
  pose proof (same_components_componentMix c w) as Hs.
  rewrite Hm in Hs. simpl in Hs.
  destruct (same_components_lookup _ _ reg Hs) as [Hc1 Hl1].
  erewrite bind_Ok; cycle 1.
  { erewrite bind_Ok by exact Hm. reflexivity. }
  set (w2 := upd_ctx reg _ w1).
  destruct (IH w2) as (w' & Hf & Hi' & Hreg' & Hc').
  { unfold is_instance. simpl. by rewrite Ho1. }
  { unfold w2. simpl. rewrite length_alter. lia. }
  exists w'. split_and!; try done. rewrite Hc'. f_equal.
  unfold ctx_components, w2 in *. simpl. rewrite list_lookup_alter_eq.
  assert (is_Some (contexts w1 !! reg)) as [m Hm1]
    by (apply lookup_lt_is_Some; lia).
  rewrite Hm1 in *. simpl in *. by rewrite Hc1.
Qed.

Lemma register_publish reg c k n w :
  is_instance w c k -> install_hooks_return k -> reg < length (contexts w) ->
  exists w',
    register reg c n w = (Ok tt, w') /\
    is_instance w' c k /\ reg < length (contexts w') /\
    ctx_components w' reg
    = publish reg c (default [] (mixHook k)) n (ctx_components w reg).
Proof.
  intros Hi Hret Hreg. unfold register. rewrite bind_exec, bind_gets.
  set (w0 := upd_ctx reg _ w).
  assert (Hi0 : is_instance w0 c k) by exact Hi.
  assert (Hreg0 : reg < length (contexts w0))
    by (unfold w0; simpl; by rewrite length_alter).
  assert (Hc0 : ctx_components w0 reg
                = <[n := CVerb reg n c]> (ctx_components w reg)).
  { apply lookup_lt_is_Some_2 in Hreg as [m Hm].
    unfold ctx_components, w0. simpl. by rewrite list_lookup_alter_eq, Hm. }
  assert (exists w1,
            (if obj_passive w0 c then verb reg n c [] else ret VUndefined) w0
            = (Ok (if obj_passive w0 c then VApi reg else VUndefined), w1) /\
            is_instance w1 c k /\ same_components w0 w1)
    as (w1 & Hv & Hi1 & Hs1).
  { destruct (obj_passive w0 c).
    - destruct (verb_effect reg n c k w0 Hi0 Hret) as (w1 & l & Hv & Hi1 & _).
      exists w1. split_and!; [done..|].
      pose proof (same_components_verb reg n c [] w0) as H.
      by rewrite Hv in H.
    - exists w0. by split_and!. }
  clearbody w0.
  erewrite bind_Ok by exact Hv.
  destruct (same_components_lookup _ _ reg Hs1) as [Hc1 Hl1].
  destruct (componentMix_effect c k w1 Hi1 Hret) as (w2 & l2 & Hm & Ho2 & _).
  pose proof (same_components_componentMix c w1) as Hs2.
  rewrite Hm in Hs2. simpl in Hs2.
  destruct (same_components_lookup _ _ reg Hs2) as [Hc2 Hl2].
  erewrite bind_Ok by exact Hm.
  destruct (mix_keys_publish reg c k (default [] (mixHook k)) w2)
    as (w3 & Hf & Hi3 & Hreg3 & Hc3); [|exact Hret|lia|].
  { unfold is_instance. by rewrite Ho2. }
  exists w3. split_and!; try done.
  unfold publish. by rewrite Hc3, Hc2, Hc1, Hc0.
Qed.

Lemma names_publish reg c k (names : list string) w :
  is_instance w c k -> install_hooks_return k -> reg < length (contexts w) ->
  exists w',
    forEach names (register reg c) w = (Ok tt, w') /\
    reg < length (contexts w') /\
    ctx_components w' reg
    = foldl (fun m n => publish reg c (default [] (mixHook k)) n m)
        (ctx_components w reg) names.
Proof.
  intros Hi Hret. revert w Hi.
  induction names as [|n names IH]; intros w Hi Hreg; simpl.
  { by exists w. }
  destruct (register_publish reg c k n w Hi Hret Hreg)
    as (w1 & Hr & Hi1 & Hreg1 & Hc1).
  erewrite bind_Ok by exact Hr.
  destruct (IH w1 Hi1 Hreg1) as (w2 & Hf & Hreg2 & Hc2).
  exists w2. split_and!; try done. by rewrite Hc2, Hc1.
Qed.

Lemma lookup_publish reg c (keys : list string) (n : string)
    (m : gmap string Callable) (x : string) :
  publish reg c keys n m !! x
  = if decide (x ∈ keys) then Some (CRaw c x)
    else if decide (x = n) then Some (CVerb reg x c) else m !! x.
Proof.
  unfold publish. rewrite lookup_foldl_insert.
  destruct (decide (x ∈ keys)); [done|].
  destruct (decide (x = n)) as [->|Hne];
    [by rewrite lookup_insert_eq | by rewrite lookup_insert_ne].
Qed.

Lemma lookup_publish_names reg c (keys names : list string)
    (m : gmap string Callable) (x : string) :
  foldl (fun m n => publish reg c keys n m) m names !! x
  = match names with
    | [] => m !! x
    | _ => if decide (x ∈ keys) then Some (CRaw c x)
           else if decide (x ∈ names) then Some (CVerb reg x c)
                else m !! x
    end.
Proof.
  revert m. induction names as [|n names IH]; intros m; [done|].
  simpl foldl. rewrite IH.
  destruct names as [|n' names]; rewrite lookup_publish;
    repeat case_decide; subst; try done; exfalso;
    repeat match goal with
           | H : ?y ∈ _ :: _ |- _ => apply elem_of_cons in H as [H|H]
           | H : ?y ∈ [] |- _ => by apply not_elem_of_nil in H
           | H : ?y ∉ _ :: _ |- _ => apply not_elem_of_cons in H as [? ?]
           end; subst; done.
Qed.

(** X16.  What [install] leaves in the API table of the registrar, for a
    class whose name, mix and register hooks return: under every key of
    [component.mix()] the function of that key, under every other name of
    the component its verb callable, and every other entry as it was.  So a
    key of [mix()] wins over the verb of the same name, and an entry that
    was there under one of these names, of whatever component, is
    replaced. *)
Theorem install_last_wins (reg : CtxId) (k : ComponentClass) (w : World) :
  reg < length (contexts w) -> install_hooks_return k ->
  let c := length (objects w) in
  let names := default [lcfirst (ctorName k)] (nameHook k) in
  let keys := default [] (mixHook k) in
  exists w',
    install reg (IClass k) w = (Ok (VApi reg), w') /\
    forall x,
      ctx_components w' reg !! x
      = match names with
        | [] => ctx_components w reg !! x
        | _ => if decide (x ∈ keys) then Some (CRaw c x)
               else if decide (x ∈ names) then Some (CVerb reg x c)
                    else ctx_components w reg !! x
        end.
Proof.
  intros Hreg Hret c names keys.
  unfold install. erewrite bind_Ok by reflexivity. fold c.
  set (w1 := set_objects _ w).
  assert (Hi1 : is_instance w1 c k).
  { exists (mkObj k false None). split; [|done]. unfold w1, c. simpl.
    by rewrite list_lookup_middle. }
  assert (Hreg1 : reg < length (contexts w1)) by exact Hreg.
  assert (Hc1 : ctx_components w1 reg = ctx_components w reg) by reflexivity.
  clearbody w1.
  destruct (componentNames_effect c k w1 Hi1 Hret) as (w2 & Hn & Ho2 & Hx2).
  destruct (names_publish reg c k names w2) as (w3 & Hf & Hreg3 & Hc3);
    [by unfold is_instance; rewrite Ho2 | exact Hret | by rewrite Hx2 |].
  erewrite bind_Ok; cycle 1.
  { unfold registerComponent. erewrite bind_Ok by exact Hn. exact Hf. }
  rewrite !bind_exec. unfold ret. eexists. split; [reflexivity|].
  intros x. rewrite <- (lookup_publish_names reg c keys names).
  f_equal. rewrite <- Hc1.
  replace (ctx_components w1 reg) with (ctx_components w2 reg)
    by (unfold ctx_components; by rewrite Hx2).
  unfold keys. rewrite <- Hc3.
  apply lookup_lt_is_Some_2 in Hreg3 as [m Hm].
  unfold ctx_components, listen. simpl.
  by rewrite !list_lookup_alter_eq, Hm.
Qed.

(** A component that writes to the API directly, under the name of Vue's
    verb among others. *)
Definition Plugin : ComponentClass :=
  mkClass "Plugin" None (Some ["vue"; "extract"]) false false
    (fun h => match h with HkMix => true | _ => false end)
    (fun _ _ => Ok VUndefined).

(** X16, witness: installing Plugin after Vue replaces the verb callable of
    Vue under 'vue'. *)
Lemma install_last_wins_witness :
  ctx_components installed_world 0 !! "vue" = Some (CVerb 0 "vue" 1) /\
  exists w',
    install 0 (IClass Plugin) installed_world = (Ok (VApi 0), w') /\
    ctx_components w' 0 !! "vue" = Some (CRaw 2 "vue") /\
    ctx_components w' 0 !! "plugin" = Some (CVerb 0 "plugin" 2) /\
    ctx_components w' 0 !! "notifications"
    = Some (CVerb 0 "notifications" 0).
Proof.
  split; [vm_compute; reflexivity|].
  assert (H : 0 < length (contexts installed_world)) by (vm_compute; lia).
  assert (Hret : install_hooks_return Plugin) by (intros h _; by exists VUndefined).
  destruct (install_last_wins 0 Plugin installed_world H Hret)
    as (w' & Hi & Hx).
  exists w'. split; [exact Hi|].
  split_and!; rewrite Hx; vm_compute; reflexivity.
Defined.

(** X17.  When the [register] hook of a passive component throws as
    [install] calls its verb callable, the error comes out of [install] and
    the component is left half installed: its verb callable is in the API
    table and the call is in the ledger, but the component is not
    activated, and the registrar has subscribed no listener for it. *)
Theorem install_register_throws (reg : CtxId) (k : ComponentClass)
    (w : World) (e : JSVal) :
  reg < length (contexts w) ->
  nameHook k = None -> passive k = true ->
  has k HkRegister = true -> outcome k HkRegister [] = Throw e ->
  let c := length (objects w) in
  let n := lcfirst (ctorName k) in
  exists w',
    install reg (IClass k) w = (Throw e, w') /\
    ctx_components w' reg !! n = Some (CVerb reg n c) /\
    ctx_ledger w' reg = ctx_ledger w reg ++ [(n, c)] /\
    ctx_listeners w' reg = ctx_listeners w reg /\
    obj_activated w' c = false /\ obj_caller w' c = Some n.
Proof.
  intros Hreg Hn Hp Hh He c n.
  apply lookup_lt_is_Some_2 in Hreg as [m Hm].
  unfold install. erewrite bind_Ok by reflexivity. fold c.
  set (w1 := set_objects _ w).
  assert (Ho : objects w1 !! c = Some (mkObj k false None)).
  { unfold w1, c. simpl. by rewrite list_lookup_middle. }
  assert (Hc1 : contexts w1 = contexts w) by reflexivity.
  clearbody w1.
  set (w2 := upd_obj c (set_caller (Some n))
               (record reg n c
                  (emit (EvVerb reg n c [])
                     (upd_ctx reg (set_components (<[n := CVerb reg n c]>))
                        w1)))).
  assert (Hv : verb reg n c []
                 (upd_ctx reg (set_components (<[n := CVerb reg n c]>)) w1)
               = (Throw e, emit (EvHook c HkRegister []) w2)).
  { unfold verb. rewrite !bind_exec, bind_gets. fold w2.
    assert (Ho2 : objects w2 !! c = Some (mkObj k false (Some n))).
    { unfold w2. simpl. by rewrite list_lookup_alter_eq, Ho. }
    unfold obj_has at 1. rewrite Ho2. simpl. rewrite Hh.
    erewrite bind_Throw; [reflexivity|].
    unfold callHook. rewrite Ho2. simpl. by rewrite He. }
  assert (Hr : registerComponent reg c w1
               = (Throw e, emit (EvHook c HkRegister []) w2)).
  { unfold registerComponent. erewrite bind_Ok; cycle 1.
    { unfold componentNames. rewrite Ho. simpl. rewrite Hn. reflexivity. }
    simpl forEach. fold n. erewrite bind_Throw; [reflexivity|].
    unfold register. rewrite bind_exec, bind_gets.
    unfold obj_passive at 1. simpl objects. rewrite Ho. simpl from_option.
    rewrite Hp. by erewrite bind_Throw by exact Hv. }
  erewrite bind_Throw by exact Hr.
  eexists. split; [reflexivity|].
  unfold ctx_components, ctx_ledger, ctx_listeners, obj_activated,
    obj_caller, w2, record, upd_ctx, upd_obj. simpl.
  rewrite !list_lookup_alter_eq, Hc1, Hm, Ho. simpl.
  split_and!; try done. apply lookup_insert_eq.
Qed.

(** X17, witness: installing Fragile on the booted primary context. *)
Lemma install_register_throws_witness :
  exists w',
    install 0 (IClass Fragile) booted_world
    = (Throw (VError "missing argument"), w') /\
    ctx_components w' 0 !! "fragile" = Some (CVerb 0 "fragile" 0) /\
    ctx_listeners w' 0 = ctx_listeners booted_world 0 /\
    obj_activated w' 0 = false.
Proof.
  assert (H : 0 < length (contexts booted_world)) by (vm_compute; lia).
  destruct (install_register_throws 0 Fragile booted_world
              (VError "missing argument") H eq_refl eq_refl eq_refl eq_refl)
    as (w' & Hi & H1 & _ & H3 & H4 & _).
  exists w'. by split_and!.
Defined.

(** ** The getter [api] *)

(** [installed w w']: from [w] to [w'] no component instance has been made
    or has changed its class, no listener has been subscribed, and the
    default components are the same. *)
Definition installed (w w' : World) : Prop :=
  cls <$> objects w' = cls <$> objects w /\
  listeners <$> contexts w' = listeners <$> contexts w /\
  modules w' = modules w.

#[global] Instance installed_preorder : PreOrder installed.
Proof.
  split; [done|].
  intros w1 w2 w3 (H1 & H2 & H3) (H4 & H5 & H6). unfold installed.
  split_and!; congruence.
Qed.

Lemma installed_callHook c h args : steps installed (callHook c h args).
Proof. intros w. unfold callHook. by destruct (objects w !! c). Qed.

Ltac installed_step :=
  lazymatch goal with
  | |- steps _ (ret _) => apply (steps_ret installed)
  | |- steps _ (throw _) => apply (steps_throw installed)
  | |- steps _ (gets _) => apply (steps_gets installed)
  | |- steps _ (callHook _ _ _) => apply installed_callHook
  | |- steps _ (exec (upd_ctx _ _)) =>
      apply (steps_exec installed); intros ?; unfold installed; simpl;
      split_and!; [done | apply fmap_alter_same; by intros [] | done]
  | |- steps _ (exec (upd_obj _ _)) =>
      apply (steps_exec installed); intros ?; unfold installed; simpl;
      split_and!; [apply fmap_alter_same; by intros [] | done | done]
  | |- steps _ (exec _) => apply (steps_exec installed); by intros ?
  | |- steps _ (bind _ _) => apply (steps_bind installed); [|intros ?]
  | |- steps _ (forEach _ _) => apply (steps_forEach installed); intros ?
  | |- steps _ (if ?b then _ else _) => destruct b
  end.

Lemma installed_verb reg n c args : steps installed (verb reg n c args).
Proof. unfold verb, record. repeat installed_step. Qed.

Lemma installed_componentNames c : steps installed (componentNames c).
Proof.
  intros w. unfold componentNames. destruct (objects w !! c) as [o|]; [|done].
  destruct (nameHook (cls o)); [|done].
  apply (steps_bind installed);
    [apply installed_callHook | intros ?; apply (steps_ret installed)].
Qed.

Lemma installed_componentMix c : steps installed (componentMix c).
Proof.
  intros w. unfold componentMix. destruct (objects w !! c) as [o|]; [|done].
  destruct (mixHook (cls o)); [|done].
  apply (steps_bind installed);
    [apply installed_callHook | intros ?; apply (steps_ret installed)].
Qed.

Lemma installed_registerComponent reg c :
  steps installed (registerComponent reg c).
Proof.
  unfold registerComponent, register.
  repeat first [ apply installed_verb | apply installed_componentNames
               | apply installed_componentMix | installed_step ].
Qed.

(** The listeners that [install] subscribes for a component. *)
Definition install_listeners (reg : CtxId) (c : CompId)
    : list (string * Handler) :=
  [("internal:gather-dependencies", HGatherDependencies reg c);
   ("init", HInit reg c)].

(** An [install] that returns has made one instance of the class and
    subscribed its two listeners. *)
Lemma install_adds reg k w v w' :
  reg < length (contexts w) ->
  install reg (IClass k) w = (Ok v, w') ->
  cls <$> objects w' = (cls <$> objects w) ++ [k] /\
  ctx_listeners w' reg
  = ctx_listeners w reg ++ install_listeners reg (length (objects w)) /\
  modules w' = modules w /\
  length (contexts w') = length (contexts w).
Proof.
  intros Hreg H. unfold install in H.
  apply bind_Ok_inv in H as (c & w1 & Hn & H). injection Hn as <- <-.
  apply bind_Ok_inv in H as ([] & w2 & Hr & H).
  rewrite !bind_exec in H. injection H as _ <-.
  pose proof (installed_registerComponent reg (length (objects w))
                (set_objects (fun l => l ++ [mkObj k false None]) w)) as Hs.
  rewrite Hr in Hs. destruct Hs as (Ho & Hl & Hm). simpl in Ho, Hl, Hm.
  assert (Hlen : length (contexts w2) = length (contexts w)).
  { apply (f_equal length) in Hl. by rewrite !length_fmap in Hl. }
  split_and!.
  - simpl. by rewrite Ho, fmap_app.
  - assert (Hl2 : ctx_listeners w2 reg = ctx_listeners w reg).
    { unfold ctx_listeners.
      apply (f_equal (fun l => l !! reg)) in Hl.
      rewrite !list_lookup_fmap in Hl.
      destruct (contexts w2 !! reg), (contexts w !! reg); simpl in *;
        congruence. }
    assert (is_Some (contexts w2 !! reg)) as [m Hm2]
      by (apply lookup_lt_is_Some; lia).
    unfold ctx_listeners in *. unfold listen. simpl.
    rewrite !list_lookup_alter_eq, Hm2 in *. simpl in *.
    by rewrite Hl2, <- app_assoc.
  - exact Hm.
  - unfold listen. simpl. by rewrite !length_alter.
Qed.

Lemma installAll_adds reg (ms : list ComponentClass) w w' :
  reg < length (contexts w) ->
  forEach ms (fun k => install reg (IClass k) ;;; ret tt) w = (Ok tt, w') ->
  cls <$> objects w' = (cls <$> objects w) ++ ms /\
  ctx_listeners w' reg
  = ctx_listeners w reg
    ++ (seq (length (objects w)) (length ms) ≫= install_listeners reg) /\
  modules w' = modules w /\
  length (contexts w') = length (contexts w).
Proof.
  revert w. induction ms as [|k ms IH]; intros w Hreg H.
  { injection H as <-. by rewrite !app_nil_r. }
  simpl in H. apply bind_Ok_inv in H as ([] & w1 & Hi & H).
  apply bind_Ok_inv in Hi as (v & w1' & Hi & Hr). injection Hr as ->.
  destruct (install_adds reg k w v w1 Hreg Hi) as (Ho & Hl & Hm & Hc).
  destruct (IH w1) as (Ho' & Hl' & Hm' & Hc'); [lia | exact H |].
  assert (Hlen : length (objects w1) = S (length (objects w))).
  { apply (f_equal length) in Ho.
    rewrite length_app, !length_fmap in Ho. simpl in Ho. lia. }
  split_and!.
  - by rewrite Ho', Ho, <- app_assoc.
  - rewrite Hl', Hl, Hlen, <- app_assoc. reflexivity.
  - congruence.
  - congruence.
Qed.

(** X18.  The getter [api] installs the default components, once.  The
    first access that returns has made one instance of each default
    component, in their order, and subscribed for each, on this context,
    the two listeners of [install]; it has put [inProduction] in the API
    table, which it returns.  Every later access returns the table and
    changes nothing. *)
Theorem api_installs_once (this : CtxId) (w w1 : World) (v : JSVal) :
  this < length (contexts w) ->
  api this w = (Ok v, w1) ->
  v = VApi this /\
  api this w1 = (Ok (VApi this), w1) /\
  if from_option has_api false (contexts w !! this) then w1 = w
  else
    cls <$> objects w1 = (cls <$> objects w) ++ modules w /\
    ctx_listeners w1 this
    = ctx_listeners w this
      ++ (seq (length (objects w)) (length (modules w))
          ≫= install_listeners this) /\
    ctx_components w1 this !! "inProduction" = Some (CInProduction this).
Proof.
  intros Hthis H. unfold api in H. rewrite bind_gets in H.
  destruct (from_option has_api false (contexts w !! this)) eqn:Ha.
  - rewrite bind_ret in H. injection H as <- <-. split; [done|].
    split; [|done]. unfold api. by rewrite bind_gets, Ha.
  - apply bind_Ok_inv in H as ([] & w' & H & Hr). injection Hr as <- <-.
    apply bind_Ok_inv in H as (a & w2 & Hi & H).
    rewrite !bind_exec in H. injection H as <-.
    unfold installAll in Hi. rewrite bind_gets in Hi.
    apply bind_Ok_inv in Hi as ([] & w3 & Hf & Hr). injection Hr as _ <-.
    destruct (installAll_adds this (modules w) w w3 Hthis Hf)
      as (Ho & Hl & _ & Hc).
    assert (is_Some (contexts w3 !! this)) as [m Hm]
      by (apply lookup_lt_is_Some; lia).
    split; [done|]. split; [|split_and!].
    + unfold api. rewrite bind_gets. simpl.
      by rewrite !list_lookup_alter_eq, Hm.
    + exact Ho.
    + rewrite <- Hl. unfold ctx_listeners. simpl.
      by rewrite !list_lookup_alter_eq, Hm.
    + unfold ctx_components. simpl.
      rewrite !list_lookup_alter_eq, Hm. simpl. apply lookup_insert_eq.
Qed.

(** The booted primary context of an installation whose default components
    are Notifications and Vue. *)
Definition stocked_world : World :=
  snd ((p <- get_primary ;; boot p)
         (mkWorld [] None [] None None [] [] [] [] None false
            [Notifications; Vue])).

(** X18, witness: the first access installs Notifications and Vue, the
    second changes nothing. *)
Lemma api_installs_once_witness :
  exists w1,
    api 0 stocked_world = (Ok (VApi 0), w1) /\
    cls <$> objects w1 = [Notifications; Vue] /\
    ctx_listeners w1 0
    = ctx_listeners stocked_world 0
      ++ [("internal:gather-dependencies", HGatherDependencies 0 0);
          ("init", HInit 0 0);
          ("internal:gather-dependencies", HGatherDependencies 0 1);
          ("init", HInit 0 1)] /\
    api 0 w1 = (Ok (VApi 0), w1) /\
    ctx_components w1 0 !! "inProduction" = Some (CInProduction 0).
Proof.
  assert (H : 0 < length (contexts stocked_world)) by (vm_compute; lia).
  destruct (api 0 stocked_world) as [r w1] eqn:Ha.
  assert (Hr : r = Ok (VApi 0)).
  { replace r with (fst (api 0 stocked_world)) by (by rewrite Ha).
    vm_compute. reflexivity. }
  subst r. exists w1.
  destruct (api_installs_once 0 stocked_world w1 (VApi 0) H Ha)
    as (_ & H2 & H3).
  change (from_option has_api false (contexts stocked_world !! 0))
    with false in H3.
  destruct H3 as (Ho & Hl & Hp).
  split_and!; [done | exact Ho | exact Hl | exact H2 | exact Hp].
Defined.

(** * Installing the queued dependencies *)

(** The calls of [Dependencies.installQueued()] in a stretch of the log. *)
Definition installs (l : list Event) : nat :=
  length (omap (fun e => match e with
                         | EvInstallQueued => Some tt
                         | _ => None
                         end) l).

Lemma installs_app l1 l2 : installs (l1 ++ l2) = installs l1 + installs l2.
Proof. unfold installs. by rewrite omap_app, length_app. Qed.

(** No call of [Dependencies.installQueued()] in between. *)
Definition no_install (w w' : World) : Prop :=
  installs (log w') = installs (log w).

#[global] Instance no_install_preorder : PreOrder no_install.
Proof.
  split; [done|]. intros w1 w2 w3 H1 H2. unfold no_install in *. congruence.
Qed.

Lemma no_install_popCurrent this w : no_install w (popCurrent this w).
Proof.
  unfold no_install, popCurrent. simpl.
  by destruct (last (removelast (current w))).
Qed.

Lemma no_install_run_microtasks w : no_install w (run_microtasks w).
Proof.
  unfold run_microtasks.
  assert (H : no_install w (set_microtasks (fun _ => []) w)) by done.
  revert H. generalize (set_microtasks (fun _ => []) w).
  induction (microtasks w) as [|[c] js IH]; intros w1 H1; [exact H1|].
  simpl. apply IH. etrans; [exact H1 | apply no_install_popCurrent].
Qed.

Lemma no_install_await v : steps no_install (await v).
Proof. intros w. rewrite await_state. apply no_install_run_microtasks. Qed.

Lemma no_install_callHook c h args : steps no_install (callHook c h args).
Proof.
  intros w. unfold callHook. destruct (objects w !! c); [|done].
  unfold no_install. simpl. rewrite installs_app. simpl. unfold installs at 2.
  simpl. lia.
Qed.

Ltac no_install_step :=
  lazymatch goal with
  | |- steps _ (ret _) => apply (steps_ret no_install)
  | |- steps _ (gets _) => apply (steps_gets no_install)
  | |- steps _ (await _) => apply no_install_await
  | |- steps _ (callHook _ _ _) => apply no_install_callHook
  | |- steps _ (exec (emit _)) =>
      apply (steps_exec no_install); intros ?; unfold no_install;
      simpl; rewrite installs_app; unfold installs at 2; simpl; lia
  | |- steps _ (exec _) => apply (steps_exec no_install); by intros ?
  | |- steps _ (bind _ _) => apply (steps_bind no_install); [|intros ?]
  | |- steps _ (forEach _ _) => apply (steps_forEach no_install); intros ?
  | |- steps _ (mapM _ _) => apply (steps_mapM no_install); intros ?
  | |- steps _ (if ?b then _ else _) => destruct b
  end.

Lemma no_install_run_handler h data : steps no_install (run_handler h data).
Proof.
  destruct h; simpl; unfold eligible, applyBabelConfig, applyRules,
    applyPlugins; repeat no_install_step.
Qed.

Lemma no_install_dispatch this event v :
  steps no_install (dispatch this event (DVal v)).
Proof.
  unfold dispatch. apply (steps_async no_install); [by intros c w|].
  apply (steps_whileCurrent no_install).
  - by intros w.
  - intros w. apply no_install_popCurrent.
  - intros p j w. unfold promise_finally.
    by destruct (promises w !! root p) as [[[s|] rs]|].
  - unfold fire. apply (steps_bind no_install); [no_install_step|intros d].
    apply (steps_async no_install); [by intros c w|].
    repeat first [apply no_install_run_handler | no_install_step].
Qed.

Lemma no_install_dispatchToChildren this event v :
  steps no_install (dispatchToChildren this event (DVal v)).
Proof.
  unfold dispatchToChildren. apply (steps_async no_install); [by intros c w|].
  apply (steps_bind no_install); [no_install_step|intros cs].
  apply (steps_bind no_install).
  - apply (steps_mapM no_install). intros c. apply no_install_dispatch.
  - intros ps w. unfold awaitAll.
    destruct (all_results (run_microtasks w) ps);
      apply no_install_run_microtasks.
Qed.

(** X19.  [installDependencies] fires the gathering event on the context
    itself; when that has succeeded, and only then, on each of its
    children, in order.  It has the queued dependencies installed exactly
    when its promise is fulfilled, that is when both rounds have succeeded:
    then once, after all the firings, as the last thing it does.  When the
    promise is rejected or stays pending, nothing is installed. *)
Theorem installDependencies_installs_last (this : CtxId) (w : World) :
  let gather := "internal:gather-dependencies" in
  let own := (p1 <- dispatch this gather (DVal VUndefined) ;; await p1) w in
  let below := (p2 <- dispatchToChildren this gather (DVal VUndefined) ;;
                await p2) (snd own) in
  exists p w',
    installDependencies this w = (Ok (VPromise p), w') /\
    fired (log w')
    = fired (log w) ++ (this, gather) ::
        match fst own with
        | Ok _ => (fun c => (c, gather)) <$> ctx_children w this
        | _ => []
        end /\
    promise_state w' p
    = match fst own with
      | Ok _ =>
          match fst below with
          | Ok _ => Some (Fulfilled VUndefined)
          | Throw e => Some (Rejected e)
          | Stall => None
          end
      | Throw e => Some (Rejected e)
      | Stall => None
      end /\
    match promise_state w' p with
    | Some (Fulfilled v) =>
        v = VUndefined /\
        fired (log w')
        = fired (log w) ++ (this, gather) ::
            ((fun c => (c, gather)) <$> ctx_children w this) /\
        installs (log w') = installs (log w) + 1 /\
        last (log w') = Some EvInstallQueued
    | _ => installs (log w') = installs (log w)
    end.
Proof.
  intros gather own below.
  set (kids := (fun c => (c, gather)) <$> ctx_children w this).
  set (body := p1 <- dispatch this gather (DVal VUndefined) ;;
               await p1 ;;;
               p2 <- dispatchToChildren this gather (DVal VUndefined) ;;
               await p2 ;;;
               exec (emit EvInstallQueued) ;;;
               ret VUndefined).
  pose proof (own_round_fired this gather VUndefined w) as Hown.
  fold own in Hown.
  pose proof (children_round_fired this gather VUndefined (snd own))
    as Hbelow.
  fold below in Hbelow.
  rewrite (tree_fired_children _ _ _ this Hown) in Hbelow. fold kids in Hbelow.
  pose proof (tree_fired_trans _ _ _ _ _ Hown Hbelow) as Hboth.
  assert (Hn1 : no_install w (snd own)).
  { unfold own.
    apply (steps_bind no_install);
      [apply no_install_dispatch | intros ?; apply no_install_await]. }
  assert (Hn2 : no_install (snd own) (snd below)).
  { unfold below.
    apply (steps_bind no_install);
      [apply no_install_dispatchToChildren | intros ?; apply no_install_await]. }
  assert (Hb : body w
               = match fst own with
                 | Ok _ =>
                     match fst below with
                     | Ok _ => (Ok VUndefined, emit EvInstallQueued (snd below))
                     | Throw e => (Throw e, snd below)
                     | Stall => (Stall, snd below)
                     end
                 | Throw e => (Throw e, snd own)
                 | Stall => (Stall, snd own)
                 end).
  { unfold body. rewrite rounds_split. fold own. fold below.
    destruct (fst own); [|done..]. by destruct (fst below). }
  unfold installDependencies. fold gather. fold body.
  unfold no_install in Hn1, Hn2.
  destruct (fst own) as [x|e|] eqn:Eo.
  - destruct (fst below) as [y|e|] eqn:Eb.
    + rewrite (async_alloc body w _ _ Hb) by done. eexists _, _.
      split; [reflexivity|]. unfold promise_state. simpl.
      rewrite list_lookup_middle by done. simpl.
      change (log (emit EvInstallQueued (snd below)))
        with (log (snd below) ++ [EvInstallQueued]).
      assert (Hf : fired (log (snd below) ++ [EvInstallQueued])
                   = fired (log w) ++ (this, gather) :: kids).
      { destruct Hboth as (_ & _ & H). etrans; [|exact H].
        unfold fired. rewrite omap_app. simpl. by rewrite app_nil_r. }
      split_and!; try done.
      * rewrite installs_app. change (installs [EvInstallQueued]) with 1. lia.
      * apply last_snoc.
    + rewrite (async_alloc body w _ _ Hb) by done. eexists _, _.
      split; [reflexivity|]. unfold promise_state. simpl.
      rewrite list_lookup_middle by done. simpl.
      split_and!; [by destruct Hboth as (_ & _ & ->) | done | lia].
    + rewrite (async_alloc body w _ _ Hb) by done. eexists _, _.
      split; [reflexivity|]. unfold promise_state. simpl.
      rewrite list_lookup_middle by done. simpl.
      split_and!; [by destruct Hboth as (_ & _ & ->) | done | lia].
  - rewrite (async_alloc body w _ _ Hb) by done. eexists _, _.
    split; [reflexivity|]. unfold promise_state. simpl.
    rewrite list_lookup_middle by done. simpl.
    split_and!; [by destruct Hown as (_ & _ & ->) | done | lia].
  - rewrite (async_alloc body w _ _ Hb) by done. eexists _, _.
    split; [reflexivity|]. unfold promise_state. simpl.
    rewrite list_lookup_middle by done. simpl.
    split_and!; [by destruct Hown as (_ & _ & ->) | done | lia].
Qed.

(** X19, witness: on [two_groups] the event is fired on the primary context
    and on the two groups, then the dependencies are installed.  With the
    component of [hanging_world], whose [dependencies] hook never returns,
    the event is fired and nothing is installed. *)
Lemma installDependencies_installs_last_witness :
  (exists p w',
     installDependencies 0 two_groups = (Ok (VPromise p), w') /\
     fired (log w')
     = fired (log two_groups)
       ++ [(0, "internal:gather-dependencies");
           (1, "internal:gather-dependencies");
           (2, "internal:gather-dependencies")] /\
     promise_state w' p = Some (Fulfilled VUndefined) /\
     installs (log w') = 1 /\ last (log w') = Some EvInstallQueued) /\
  exists p w',
    installDependencies 0 hanging_world = (Ok (VPromise p), w') /\
    fired (log w')
    = fired (log hanging_world) ++ [(0, "internal:gather-dependencies")] /\
    promise_state w' p = None /\
    installs (log w') = 0.
Proof.
  split.
  - pose proof (installDependencies_installs_last 0 two_groups) as H.
    cbv zeta in H. destruct H as (p & w' & Hi & Hf & Hp & Hm).
    assert (Hp' : promise_state w' p = Some (Fulfilled VUndefined))
      by (rewrite Hp; vm_compute; reflexivity).
    rewrite Hp' in Hm. destruct Hm as (_ & _ & Hn & Hl).
    exists p, w'. split_and!; [exact Hi | | exact Hp' | | exact Hl].
    + rewrite Hf. vm_compute. reflexivity.
    + rewrite Hn. vm_compute. reflexivity.
  - pose proof (installDependencies_installs_last 0 hanging_world) as H.
    cbv zeta in H. destruct H as (p & w' & Hi & Hf & Hp & Hm).
    assert (Hp' : promise_state w' p = None)
      by (rewrite Hp; vm_compute; reflexivity).
    rewrite Hp' in Hm.
    exists p, w'. split_and!; [exact Hi | | exact Hp' |].
    + rewrite Hf. vm_compute. reflexivity.
    + rewrite Hm. vm_compute. reflexivity.
Defined.

(** * Building a booted context *)

Lemma log_run_microtasks w :
  log (run_microtasks w) = log w /\ contexts (run_microtasks w) = contexts w.
Proof.
  unfold run_microtasks.
  assert (H : log (set_microtasks (fun _ => []) w) = log w /\
              contexts (set_microtasks (fun _ => []) w) = contexts w) by done.
  revert H. generalize (set_microtasks (fun _ => []) w).
  induction (microtasks w) as [|[c] js IH]; intros w1 H1; [exact H1|].
  simpl. apply IH. unfold popCurrent. simpl.
  by destruct (last (removelast (current w1))).
Qed.

Lemma mapM_webpackConfig_build_log (ops : list CtxId) (w : World) :
  log (snd (mapM webpackConfig_build ops w))
  = log w ++ (EvWebpackBuild <$> ops) /\
  contexts (snd (mapM webpackConfig_build ops w)) = contexts w.
Proof.
  revert w. induction ops as [|c ops IH]; intros w.
  { simpl. by rewrite app_nil_r. }
  simpl mapM. erewrite bind_Ok by reflexivity.
  set (w1 := snd (webpackConfig_build c w)).
  destruct (IH w1) as [Hl Hc].
  destruct (mapM_webpackConfig_build ops w1) as (ps & w2 & Hm & _).
  rewrite Hm in Hl, Hc. erewrite bind_Ok by exact Hm.
  unfold ret. cbn [snd] in *. rewrite Hl, Hc. unfold w1. simpl.
  by rewrite <- app_assoc.
Qed.

(** X20.  [build] on a context that is booted does not warn and does not
    boot again: all it has the outside world do is build one configuration
    for each context that [buildConfigs] yields, in that order, and it
    changes no context. *)
Theorem build_booted (this : CtxId) (w : World) :
  ctx_booted w this = true ->
  exists p w',
    build this w = (Ok (VPromise p), w') /\
    log w' = log w
             ++ (EvWebpackBuild <$> buildConfigs (length (contexts w)) w this)
    /\ contexts w' = contexts w.
Proof.
  intros Hb.
  set (ops := buildConfigs (length (contexts w)) w this).
  destruct (mapM_webpackConfig_build ops w) as (ps & w1 & Hm & _ & Hall).
  destruct (mapM_webpackConfig_build_log ops w) as [Hl Hc].
  rewrite Hm in Hl, Hc. simpl in Hl, Hc.
  destruct (log_run_microtasks w1) as [Hl' Hc'].
  destruct (async_state
              (b <- gets (fun w => ctx_booted w this) ;;
               (if negb b
                then exec (emit (EvWarn warning)) ;;; boot this ;;; ret tt
                else ret tt) ;;;
               ops <- gets (fun w => buildConfigs (length (contexts w)) w
                                       this) ;;
               promises <- mapM webpackConfig_build ops ;;
               awaitAll promises) w
              (Ok (VArray (VConfig <$> ops))) (run_microtasks w1))
    as (w' & Ha & Hc2 & Hl2 & _); [|done|].
  { rewrite bind_gets, Hb. simpl negb. cbv iota. rewrite bind_ret, bind_gets.
    fold ops. erewrite bind_Ok by exact Hm. unfold awaitAll.
    by rewrite Hall by (by rewrite promises_run_microtasks). }
  eexists _, w'. split; [exact Ha|]. split; congruence.
Qed.

(** X20, witness: building the primary context of [two_groups]. *)
Lemma build_booted_witness :
  ctx_booted two_groups 0 = true /\
  exists p w',
    build 0 two_groups = (Ok (VPromise p), w') /\
    log w' = log two_groups ++ [EvWebpackBuild 1; EvWebpackBuild 2].
Proof.
  assert (H : ctx_booted two_groups 0 = true) by reflexivity.
  split; [exact H|].
  destruct (build_booted 0 two_groups H) as (p & w' & Hb & Hl & _).
  exists p, w'. split; [exact Hb|]. rewrite Hl. f_equal.
Defined.

(** * The tree of contexts *)

(** X21.  Whatever a build script and the pipeline do, the contexts form a
    forest: a child was created after its parent, it is among the children
    of one context only, and there only once. *)
Theorem groups_form_a_forest (ops : list Op) :
  let w := run_ops ops world0 in
  (forall p c, c ∈ ctx_children w p -> p < c < length (contexts w)) /\
  (forall p1 p2 c,
     c ∈ ctx_children w p1 -> c ∈ ctx_children w p2 -> p1 = p2) /\
  (forall p, NoDup (ctx_children w p)).
Proof.
  intros w. destruct (heap_tree_run_ops ops) as [H1 H2 H3].
  split_and!; [exact H1 | exact H2 | exact H3].
Qed.

(** * Command-line flags *)

(** [s.startsWith(p)], the test behind [includes]. *)
Fixpoint starts_with (p s : string) : bool :=
  match p, s with
  | EmptyString, _ => true
  | String a p', String b s' => Ascii.eqb a b && starts_with p' s'
  | String _ _, EmptyString => false
  end.

(** [s.includes(sub)] on strings. *)
Fixpoint includes (sub s : string) : bool :=
  starts_with sub s ||
  match s with
  | EmptyString => false
  | String _ s' => includes sub s'
  end.

(** [isHot], [isWatching] and [isPolling] read [process.argv]. *)
Definition isHot (argv : list string) : bool :=
  bool_decide ("--hot" ∈ argv).

Definition isWatching (argv : list string) : bool :=
  isHot argv || bool_decide ("--watch" ∈ argv).

Definition isPolling (argv : list string) : bool :=
  let hasPollingOption := existsb (includes "--watch-options-poll") argv in
  isWatching argv && hasPollingOption.

Lemma starts_with_spec p s :
  starts_with p s = true <-> exists b, s = (p +:+ b)%string.
Proof.
  revert s. induction p as [|a p IH]; intros s; simpl.
  { split; [by exists s | done]. }
  destruct s as [|b s].
  { split; [done | by intros [? ?]]. }
  rewrite andb_true_iff, Ascii.eqb_eq, IH. split.
  - intros [-> [t ->]]. by exists t.
  - intros [t Ht]. injection Ht as -> ->. split; [done | by exists t].
Qed.

Lemma includes_spec sub s :
  includes sub s = true <-> exists a b, s = (a +:+ sub +:+ b)%string.
Proof.
  induction s as [|c s IH]; simpl.
  - rewrite orb_false_r, starts_with_spec. split.
    + intros [b Hb]. by exists EmptyString, b.
    + intros (a & b & H). destruct a; [by exists b | discriminate].
  - rewrite orb_true_iff, starts_with_spec, IH. split.
    + intros [[b Hb] | (a & b & ->)].
      * by exists EmptyString, b.
      * by exists (String c a), b.
    + intros (a & b & H). destruct a as [|c' a].
      * left. by exists b.
      * right. injection H as -> ->. by exists a, b.
Qed.

(** X22.  The command-line flags: hot reloading implies watching; polling
    is on exactly when the process is watching (--hot or --watch is an
    argument, as a whole) and some argument contains
    '--watch-options-poll'.  So the polling option alone, without --watch
    or --hot, does not turn polling on. *)
Theorem isPolling_spec (argv : list string) :
  (isHot argv = true -> isWatching argv = true) /\
  (isWatching argv = true <-> "--hot" ∈ argv \/ "--watch" ∈ argv) /\
  (isPolling argv = true <->
   ("--hot" ∈ argv \/ "--watch" ∈ argv) /\
   exists arg a b,
     arg ∈ argv /\ arg = (a +:+ "--watch-options-poll" +:+ b)%string).
Proof.
  assert (Hw : isWatching argv = true <-> "--hot" ∈ argv \/ "--watch" ∈ argv).
  { unfold isWatching, isHot.
    by rewrite orb_true_iff, !bool_decide_eq_true. }
  split_and!.
  - unfold isWatching. by intros ->.
  - exact Hw.
  - unfold isPolling. cbv zeta. rewrite andb_true_iff, Hw.
    rewrite existsb_exists. split.
    + intros [H1 (arg & Hin & Hinc)]. split; [done|].
      apply includes_spec in Hinc as (a & b & ->).
      exists (a +:+ "--watch-options-poll" +:+ b)%string, a, b.
      split; [|done]. by apply list_elem_of_In.
    + intros [H1 (arg & a & b & Hin & ->)]. split; [done|].
      exists (a +:+ "--watch-options-poll" +:+ b)%string. split.
      * by apply list_elem_of_In.
      * apply includes_spec. by exists a, b.
Qed.

(** * What the rules and plugins hooks contribute *)

(** JavaScript truthiness. *)
Definition truthy (v : JSVal) : bool :=
  match v with
  | VUndefined | VNull => false
  | VBool b => b
  | VNum n => negb (n =? 0)%Z
  | VStr s => negb (String.eqb s "")
  | _ => true
  end.

(** [[].concat(v)] *)
Definition concat_value (v : JSVal) : list JSVal :=
  match v with
  | VArray items => items
  | _ => [v]
  end.

(** [newRules && rules.push(...[].concat(newRules))]: the array
    afterwards. *)
Definition push_new (rules : list JSVal) (newRules : JSVal) : list JSVal :=
  if truthy newRules then rules ++ concat_value newRules else rules.

(** [applyRules] and [applyPlugins] with the array they are given: the
    completion carries the contents of the array after the call. *)
Definition applyRules_to (rules : list JSVal) (c : CompId)
    : M (list JSVal) :=
  newRules <- callHook c HkWebpackRules [] ;;
  ret (push_new rules newRules).

Definition applyPlugins_to (plugins : list JSVal) (c : CompId)
    : M (list JSVal) :=
  newPlugins <- callHook c HkWebpackPlugins [] ;;
  ret (push_new plugins newPlugins).

(** X23.  The rules array only grows, at its end: when [applyRules] has
    run for one component and then for another, and the hooks returned,
    the array holds what it held, then what the first hook returned, then
    what the second returned: the elements of an array, a single value as
    one element, nothing for undefined, null, false, 0, the empty string
    or an empty array.  [applyPlugins] treats the plugins array the same
    way. *)
Theorem rules_accumulate (apply_to : list JSVal -> CompId -> M (list JSVal))
    (h : Hook) (c1 c2 : CompId) (o1 o2 : ComponentObj) (v1 v2 : JSVal)
    (rules : list JSVal) (w : World) :
  (apply_to, h) = (applyRules_to, HkWebpackRules) \/
  (apply_to, h) = (applyPlugins_to, HkWebpackPlugins) ->
  objects w !! c1 = Some o1 -> objects w !! c2 = Some o2 ->
  outcome (cls o1) h [] = Ok v1 -> outcome (cls o2) h [] = Ok v2 ->
  let added v := if truthy v then concat_value v else [] in
  fst ((r <- apply_to rules c1 ;; apply_to r c2) w)
  = Ok (rules ++ added v1 ++ added v2) /\
  (forall v, v ∈ [VUndefined; VNull; VBool false; VNum 0; VStr ""; VArray []]
             -> added v = []) /\
  (forall items, added (VArray items) = items) /\
  (forall n, added (VObject n) = [VObject n]).
Proof.
  intros Hfh H1 H2 Hr1 Hr2 added.
  assert (Hpush : forall l v, push_new l v = l ++ added v).
  { intros l v. unfold push_new, added.
    destruct (truthy v); [done | by rewrite app_nil_r]. }
  split_and!.
  - destruct Hfh as [[= -> ->] | [= -> ->]].
    + unfold applyRules_to.
      erewrite bind_Ok; cycle 1.
      { erewrite bind_Ok by (by eapply callHook_Ok). reflexivity. }
      erewrite bind_Ok; cycle 1.
      { eapply callHook_Ok; [exact H2 | exact Hr2]. }
      simpl. by rewrite !Hpush, app_assoc.
    + unfold applyPlugins_to.
      erewrite bind_Ok; cycle 1.
      { erewrite bind_Ok by (by eapply callHook_Ok). reflexivity. }
      erewrite bind_Ok; cycle 1.
      { eapply callHook_Ok; [exact H2 | exact Hr2]. }
      simpl. by rewrite !Hpush, app_assoc.
  - intros v Hv. unfold added.
    repeat (apply elem_of_cons in Hv as [->|Hv]; [reflexivity|]).
    by apply not_elem_of_nil in Hv.
  - done.
  - done.
Qed.

(** Two components with rules: Sass returns two of them in an array, Less
    a single one. *)
Definition Sass : ComponentClass :=
  mkClass "Sass" None None false false
    (fun h => match h with HkWebpackRules => true | _ => false end)
    (fun h _ => match h with
                | HkWebpackRules => Ok (VArray [VObject 1; VObject 2])
                | _ => Ok VUndefined
                end).

Definition Less : ComponentClass :=
  mkClass "Less" None None false false
    (fun h => match h with HkWebpackRules => true | _ => false end)
    (fun h _ => match h with
                | HkWebpackRules => Ok (VObject 3)
                | _ => Ok VUndefined
                end).

Definition styles_world : World :=
  snd ((install 0 (IClass Sass) ;;; install 0 (IClass Less)) booted_world).

(** X23, witness: the rules of Sass, then the rule of Less, after the rule
    that was there. *)
Lemma rules_accumulate_witness :
  fst ((r <- applyRules_to [VObject 7] 0 ;; applyRules_to r 1) styles_world)
  = Ok [VObject 7; VObject 1; VObject 2; VObject 3].
Proof.
  refine (proj1 (rules_accumulate applyRules_to HkWebpackRules 0 1
                   (mkObj Sass false None) (mkObj Less false None)
                   (VArray [VObject 1; VObject 2]) (VObject 3) [VObject 7]
                   styles_world (or_introl eq_refl) _ _ eq_refl eq_refl));
    reflexivity.
Defined.
